(** * cloudbot: deployment orchestration and price selection

    A shallow embedding of the price optimizer
    ([internal/service/aliyun_price_optimizer.go],
    [internal/service/price_optimizer_service.go]), of the Tencent capacity
    probe ([internal/service/tencent_client.go]), of the Terraform service
    and of the project service (deploy, region failover, multi-region
    fragmentation, destroy), together with the properties of the
    specification that concern them; and of the price repository and the
    price service, the credential file
    ([internal/credentials/credentials.go]) and the project and scenario
    operations of the project service (create, list, delete, init), with
    further properties read off the code.

    Conventions.
    - Go [string] is [string]; [strings.Contains], [strings.HasPrefix] and
      [strings.TrimPrefix] are written out below.
    - Go [int] is [Z]; Go [float64] is the primitive binary64 [float].
    - Go [error] is [option string]: [None] is [nil], [Some msg] carries the
      text of [err.Error()]; [fmt.Errorf("... %w", err)] is concatenation.
    - [map[string]string] is [gmap string string].
    - External collaborators (the provider price API, the [tccli] probes,
      the Terraform engine, the template copier) are oracles: variables of
      the enclosing section. *)

From Stdlib Require Import ZArith Ascii String List Floats Permutation Sorted Bool Lia.
From stdpp Require Import base gmap strings list pretty.

Set Warnings "-inexact-float".
Local Open Scope string_scope.

(** ** Go strings *)

Module GoStrings.

(** [strings.HasPrefix(s, prefix)]. *)
Definition HasPrefix (s prefix : string) : bool := String.prefix prefix s.

(** [strings.Contains(s, substr)]. *)
Fixpoint Contains (s substr : string) : bool :=
  String.prefix substr s ||
  match s with
  | EmptyString => false
  | String _ rest => Contains rest substr
  end.

(** [strings.TrimPrefix(s, prefix)]. *)
Definition TrimPrefix (s prefix : string) : string :=
  if HasPrefix s prefix
  then String.substring (String.length prefix)
                        (String.length s - String.length prefix) s
  else s.

(** [strings.Join(elems, sep)]. *)
Fixpoint Join (elems : list string) (sep : string) : string :=
  match elems with
  | [] => ""
  | [e] => e
  | e :: rest => e +:+ sep +:+ Join rest sep
  end.

(** [strconv.Itoa]. *)
Definition Itoa (n : Z) : string := pretty n.

(** [fmt.Sprintf("%v", xs)] for [xs : []string]. *)
Definition fmt_slice (xs : list string) : string := "[" +:+ Join xs " " +:+ "]".

End GoStrings.
Export GoStrings.

(** Results of fallible calls that return a value. *)
Inductive result (A : Type) : Type :=
| Ok (a : A)
| Err (msg : string).
Arguments Ok {A} a.
Arguments Err {A} msg.

Definition is_Ok {A} (r : result A) : bool :=
  match r with Ok _ => true | Err _ => false end.

(** ** [sort.Slice]

    The Go standard library sorts in place with an unstable algorithm.  Only
    its contract is used: the result is a rearrangement of the input, and it
    is in ascending order whenever [less] is a strict weak ordering on the
    elements, which is what [sort.Interface] asks of [Less]. *)

Section Ordering.
Context {A : Type} (less : A -> A -> bool).

Record strict_weak (x : list A) : Prop := {
    sw_irrefl : forall a, In a x -> less a a = false;
    sw_trans : forall a b c, In a x -> In b x -> In c x ->
      less a b = true -> less b c = true -> less a c = true;
    sw_negtrans : forall a b c, In a x -> In b x -> In c x ->
      less a b = false -> less b c = false -> less a c = false
  }.

Definition ascending : list A -> Prop :=
    Sorted (fun a b => less b a = false).
End Ordering.

Class SliceSorter : Type := {
  sort_Slice : forall {A : Type}, (A -> A -> bool) -> list A -> list A;
  sort_Slice_Permutation :
    forall {A} (less : A -> A -> bool) x, Permutation (sort_Slice less x) x;
  sort_Slice_ascending :
    forall {A} (less : A -> A -> bool) x,
      strict_weak less x -> ascending less (sort_Slice less x)
}.

(** A sorter that meets the contract: the stable insertion sort, which is
    what [sort.Slice] runs on a slice of at most 12 elements. *)
Module Insertion.

Section Sort.
Context {A : Type} (less : A -> A -> bool).

(** [a] goes before the first element it is less than. *)
Fixpoint insert (a : A) (x : list A) : list A :=
  match x with
  | [] => [a]
  | b :: rest => if less a b then a :: b :: rest else b :: insert a rest
  end.

Definition sort (x : list A) : list A :=
  fold_left (fun sorted a => insert a sorted) x [].
End Sort.

End Insertion.

(** ** The price optimizer *)

Module Pricing.

(** [InstancePrice] (aliyun_price_optimizer.go). *)
Record InstancePrice : Type := {
  InstanceType : string;
  Region : string;
  PricePerHour : float;
  PricePerMonth : float;
  Currency : string
}.

(** [OptimalInstanceConfig]; its fields carry the prefix [opt_] where the
    name is already a field of [InstancePrice]. *)
Record OptimalInstanceConfig : Type := {
  opt_InstanceType : string;
  opt_Region : string;
  Price : float;
  opt_PricePerMonth : float;
  opt_Currency : string
}.

(** The [PriceInfo.Price] object of a DescribePrice response, as
    [json.Unmarshal] fills it (an absent field stays 0). *)
Record PriceFields : Type := {
  OriginalPrice : float;
  TradePrice : float;
  DiscountPrice : float
}.

(** What one DescribePrice round trip yields: a transport or API error
    (the cases of [callAliyunAPI] after the key check), a body that does not
    decode, or the decoded price fields. *)
Inductive ApiReply : Type :=
| ApiFailed (msg : string)
| ApiUndecodable (msg : string)
| ApiPrice (p : PriceFields).

(** [aliyunPriceOptimizer]: the two keys; the HTTP client is the oracle. *)
Record aliyunPriceOptimizer : Type := {
  accessKey : string;
  secretKey : string
}.

Definition is_zero (p : float) : bool := PrimFloat.eqb p 0%float.

Section Optimizer.
  (** The provider: the reply to DescribePrice for (instanceType, region). *)
Variable describePrice : string -> string -> ApiReply.
Context {sorter : SliceSorter}.

  (** [callAliyunAPI], up to the decoding of the body. *)
Definition callAliyunAPI (o : aliyunPriceOptimizer)
      (instanceType region : string) : ApiReply :=
    if (String.eqb (accessKey o) "" || String.eqb (secretKey o) "")%bool
    then ApiFailed "未配置阿里云 AccessKey 和 SecretKey"
    else describePrice instanceType region.

  (** [GetPriceForInstance]. *)
Definition GetPriceForInstance (o : aliyunPriceOptimizer)
      (instanceType region : string) : result InstancePrice :=
    match callAliyunAPI o instanceType region with
    | ApiFailed msg => Err ("调用 DescribePrice API 失败: " +:+ msg)
    | ApiUndecodable msg => Err ("解析 API 响应失败: " +:+ msg)
    | ApiPrice resp =>
        let pricePerHour := TradePrice resp in
        let pricePerHour :=
          if is_zero pricePerHour then OriginalPrice resp else pricePerHour in
        let pricePerHour :=
          if is_zero pricePerHour then DiscountPrice resp else pricePerHour in
        if is_zero pricePerHour then Err "无法获取有效价格"
        else
          let pricePerMonth := (pricePerHour * 24 * 30)%float in
          Ok {| InstanceType := instanceType;
                Region := region;
                PricePerHour := pricePerHour;
                PricePerMonth := pricePerMonth;
                Currency := "CNY" |}
    end.

Definition less_price (a b : InstancePrice) : bool :=
    PrimFloat.ltb (PricePerHour a) (PricePerHour b).

  (** The two nested loops of [ComparePrices]: the successful quotes, in
      query order. *)
Definition collect_region (o : aliyunPriceOptimizer) (instanceType : string)
      (acc : list InstancePrice) (region : string) : list InstancePrice :=
    match GetPriceForInstance o instanceType region with
    | Ok price => (acc ++ [price])%list
    | Err _ => acc
    end.

Definition collect_prices (o : aliyunPriceOptimizer)
      (instanceTypes regions : list string) : list InstancePrice :=
    fold_left
      (fun acc instanceType =>
         fold_left (collect_region o instanceType) regions acc)
      instanceTypes [].

  (** [ComparePrices]; its error result is always [nil]. *)
Definition ComparePrices (o : aliyunPriceOptimizer)
      (instanceTypes regions : list string) : result (list InstancePrice) :=
    let instanceTypes :=
      match instanceTypes with
      | [] => ["ecs.t5-lc1m1.small"; "ecs.t5-lc1m2.small"; "ecs.t6-c1m1.large"]
      | _ => instanceTypes
      end in
    let regions :=
      match regions with
      | [] => ["cn-beijing"; "cn-shanghai"; "cn-hangzhou"; "cn-shenzhen";
               "cn-hongkong"; "ap-southeast-1"]
      | _ => regions
      end in
    let allPrices := collect_prices o instanceTypes regions in
    Ok (sort_Slice less_price allPrices).

  (** [priceOptimizerService]: [optimizer] may be [nil]. *)
Record priceOptimizerService : Type := {
    optimizer : option aliyunPriceOptimizer
  }.

Definition to_config (cheapest : InstancePrice) : OptimalInstanceConfig :=
    {| opt_InstanceType := InstanceType cheapest;
       opt_Region := Region cheapest;
       Price := PricePerHour cheapest;
       opt_PricePerMonth := PricePerMonth cheapest;
       opt_Currency := Currency cheapest |}.

  (** [FindOptimalConfig]. *)
Definition FindOptimalConfig (s : priceOptimizerService)
      (provider template : string) (instanceTypes regions : list string)
      : result OptimalInstanceConfig :=
    if negb (String.eqb provider "aliyun")
    then Err "当前仅支持阿里云价格优化"
    else
      match optimizer s with
      | None => Err "价格优化器未初始化"
      | Some o =>
          let instanceTypes :=
            match instanceTypes with
            | [] => ["ecs.t5-lc1m1.small"; "ecs.t5-lc1m2.small"]
            | _ => instanceTypes
            end in
          match ComparePrices o instanceTypes regions with
          | Err msg => Err ("查询价格失败: " +:+ msg)
          | Ok allPrices =>
              match allPrices with
              | [] => Err "未找到任何价格信息"
              | cheapest :: _ => Ok (to_config cheapest)
              end
          end
      end.

  (** The quotes a call of [FindOptimalConfig] collects before ranking. *)
Definition collected (o : aliyunPriceOptimizer)
      (instanceTypes regions : list string) : list InstancePrice :=
    let instanceTypes :=
      match instanceTypes with
      | [] => ["ecs.t5-lc1m1.small"; "ecs.t5-lc1m2.small"]
      | _ => instanceTypes
      end in
    let regions :=
      match regions with
      | [] => ["cn-beijing"; "cn-shanghai"; "cn-hangzhou"; "cn-shenzhen";
               "cn-hongkong"; "ap-southeast-1"]
      | _ => regions
      end in
    collect_prices o instanceTypes regions.

End Optimizer.

End Pricing.

(** ** The credential store ([internal/credentials/credentials.go]) *)

Module Credentials.

Inductive Provider : Type :=
| ProviderAliyun
| ProviderTencent
| ProviderHuaweicloud
| ProviderAWS
| ProviderVultr.

Definition Provider_String (p : Provider) : string :=
  match p with
  | ProviderAliyun => "aliyun"
  | ProviderTencent => "tencent"
  | ProviderHuaweicloud => "huaweicloud"
  | ProviderAWS => "aws"
  | ProviderVultr => "vultr"
  end.

Record Credentials : Type := {
  AccessKey : string;
  SecretKey : string;
  Region : string
}.

(** [credentialManager]: the in-memory table [creds]; the process
    environment it falls back on is [environ]. *)
Record credentialManager : Type := {
  creds : Provider -> option Credentials;
  environ : gmap string string
}.

(** [os.Getenv]: the empty string when the variable is not set. *)
Definition Getenv (env : gmap string string) (key : string) : string :=
  default "" (env !! key).

Definition getEnvAccessKey (m : credentialManager) (p : Provider) : string :=
  Getenv (environ m)
    match p with
    | ProviderAliyun => "ALICLOUD_ACCESS_KEY"
    | ProviderTencent => "TENCENTCLOUD_SECRET_ID"
    | ProviderHuaweicloud => "HUAWEICLOUD_ACCESS_KEY"
    | ProviderAWS => "AWS_ACCESS_KEY_ID"
    | ProviderVultr => "VULTR_API_KEY"
    end.

Definition getEnvSecretKey (m : credentialManager) (p : Provider) : string :=
  Getenv (environ m)
    match p with
    | ProviderAliyun => "ALICLOUD_SECRET_KEY"
    | ProviderTencent => "TENCENTCLOUD_SECRET_KEY"
    | ProviderHuaweicloud => "HUAWEICLOUD_SECRET_KEY"
    | ProviderAWS => "AWS_SECRET_ACCESS_KEY"
    | ProviderVultr => "VULTR_API_KEY"
    end.

Definition getEnvRegion (m : credentialManager) (p : Provider) : string :=
  Getenv (environ m)
    match p with
    | ProviderAliyun => "ALICLOUD_REGION"
    | ProviderTencent => "TENCENTCLOUD_REGION"
    | ProviderHuaweicloud => "HUAWEICLOUD_REGION"
    | ProviderAWS => "AWS_REGION"
    | ProviderVultr => "VULTR_REGION"
    end.

Definition nonempty (s : string) : bool := negb (String.eqb s "").

(** [GetCredentials]. *)
Definition GetCredentials (m : credentialManager) (p : Provider)
  : result Credentials :=
  match creds m p with
  | Some c => Ok c
  | None =>
      let accessKey := getEnvAccessKey m p in
      let secretKey := getEnvSecretKey m p in
      let region := getEnvRegion m p in
      if nonempty accessKey && nonempty secretKey
      then Ok {| AccessKey := accessKey; SecretKey := secretKey;
                 Region := region |}
      else Err ("未找到 " +:+ Provider_String p +:+ " 的凭据配置")
  end.

(** [HasCredentials]. *)
Definition HasCredentials (m : credentialManager) (p : Provider) : bool :=
  match creds m p with
  | Some _ => true
  | None => nonempty (getEnvAccessKey m p) && nonempty (getEnvSecretKey m p)
  end.

End Credentials.

(** ** Goroutine fan-out

    Both probes start one goroutine per region and read the results from a
    channel: the order in which results arrive is the scheduler's.  A
    scheduler is any rearrangement of the results. *)

Class Scheduler : Type := {
  arrival : forall {A : Type}, list A -> list A;
  arrival_Permutation : forall {A} (x : list A), Permutation (arrival x) x
}.

(** ** The capacity probe ([internal/service/tencent_client.go]) *)

Module Probe.
Import Credentials.

(** What a [tccli] invocation yields: a failed command (non-zero exit,
    missing binary, the 10 s timeout), output that does not decode, or the
    decoded set. *)
Inductive CmdOutput (A : Type) : Type :=
| CmdFailed
| CmdUndecodable
| CmdJSON (a : A).
Arguments CmdFailed {A}.
Arguments CmdUndecodable {A}.
Arguments CmdJSON {A} a.

(** An entry of [InstanceTypeConfigSet]. *)
Record InstanceTypeConfig : Type := {
  cfg_InstanceType : string;
  cfg_InstanceFamily : string;
  cfg_Status : string
}.

(** [SpotAvailability]. *)
Record SpotAvailability : Type := {
  sa_Region : string;
  sa_InstanceType : string;
  Available : bool
}.

Definition tencentRegions : list string :=
  ["ap-shanghai"; "ap-nanjing"; "ap-guangzhou"; "ap-beijing"; "ap-chengdu";
   "ap-chongqing"].

(** [GetDomesticRegions]. *)
Definition GetDomesticRegions : list string :=
  ["ap-shanghai"; "ap-nanjing"; "ap-guangzhou"; "ap-beijing"; "ap-chengdu";
   "ap-chongqing"].

(** [GetTencentRegions]. *)
Definition GetTencentRegions : list string := tencentRegions.

Section Probes.
(** The default credential manager. *)
Variable cm : credentialManager.
(** [tccli cvm DescribeSpotPriceHistory --region r --InstanceType t
    --SecretId i --SecretKey k]: the length of [SpotPriceHistorySet]. *)
Variable DescribeSpotPriceHistory :
  string -> string -> string -> string -> CmdOutput nat.
(** [tccli cvm DescribeInstanceTypeConfigs --region r --InstanceType t ...]. *)
Variable DescribeInstanceTypeConfigs :
  string -> string -> string -> string -> CmdOutput (list InstanceTypeConfig).
(** [tccli cvm DescribeInstanceTypeConfigs --region r --InstanceFamily f ...]. *)
Variable DescribeInstanceFamilyConfigs :
  string -> string -> string -> string -> CmdOutput (list InstanceTypeConfig).
Context {scheduler : Scheduler}.

(** [testRegionAvailabilityByInstanceType]: the error is always [nil]. *)
Definition testRegionAvailabilityByInstanceType
    (region instanceType secretId secretKey : string) : bool * option string :=
  match DescribeInstanceTypeConfigs region instanceType secretId secretKey with
  | CmdFailed => (false, None)
  | CmdUndecodable => (false, None)
  | CmdJSON set =>
      if (0 <? length set)%nat then (true, None) else (false, None)
  end.

(** [testRegionAvailability]. *)
Definition testRegionAvailability
    (region instanceType secretId secretKey : string) : bool * option string :=
  match DescribeSpotPriceHistory region instanceType secretId secretKey with
  | CmdFailed =>
      testRegionAvailabilityByInstanceType region instanceType secretId secretKey
  | CmdUndecodable =>
      testRegionAvailabilityByInstanceType region instanceType secretId secretKey
  | CmdJSON n =>
      if (0 <? n)%nat then (true, None)
      else testRegionAvailabilityByInstanceType
             region instanceType secretId secretKey
  end.

(** [regionResult]. *)
Record regionResult : Type := {
  rr_region : string;
  rr_available : bool;
  rr_err : option string
}.

(** [FindAvailableRegions]. *)
Definition FindAvailableRegions (instanceType : string) : result (list string) :=
  if negb (HasCredentials cm ProviderTencent)
  then Err "未配置腾讯云凭据，请先运行: credential set tencent"
  else
    match GetCredentials cm ProviderTencent with
    | Err msg => Err ("获取腾讯云凭据失败: " +:+ msg)
    | Ok creds =>
        let results :=
          arrival
            (map (fun r =>
                    let '(available, err) :=
                      testRegionAvailability r instanceType
                        (AccessKey creds) (SecretKey creds) in
                    {| rr_region := r; rr_available := available;
                       rr_err := err |})
                 tencentRegions) in
        let availableRegions :=
          map rr_region (filter (fun res => rr_available res = true) results) in
        match availableRegions with
        | [] => Ok tencentRegions
        | _ => Ok availableRegions
        end
    end.

(** [FindBestTencentRegion]. *)
Definition FindBestTencentRegion (instanceType : string) : result string :=
  match FindAvailableRegions instanceType with
  | Err msg => Err msg
  | Ok availableRegions =>
      match availableRegions with
      | [] => Ok "ap-beijing"
      | first :: _ =>
          let domesticRegions :=
            ["ap-beijing"; "ap-shanghai"; "ap-guangzhou"; "ap-chengdu";
             "ap-chongqing"; "ap-nanjing"] in
          match
            List.find (fun region =>
                         existsb (String.eqb region) availableRegions)
                      domesticRegions
          with
          | Some region => Ok region
          | None => Ok first
          end
      end
  end.

(** The body of one goroutine of [QuerySpotInstanceAvailability]. *)
Definition querySpotRegion (instanceFamily secretId secretKey r : string)
  : list SpotAvailability :=
  match DescribeInstanceFamilyConfigs r instanceFamily secretId secretKey with
  | CmdFailed => []
  | CmdUndecodable => []
  | CmdJSON set =>
      fold_left
        (fun (regionResults : list SpotAvailability) config =>
           if negb (String.eqb (cfg_Status config) "SELL") then regionResults
           else
             match DescribeSpotPriceHistory r (cfg_InstanceType config)
                     secretId secretKey with
             | CmdFailed => regionResults
             | CmdUndecodable => regionResults
             | CmdJSON n =>
                 if (0 <? n)%nat
                 then (regionResults ++
                       [{| sa_Region := r;
                           sa_InstanceType := cfg_InstanceType config;
                           Available := true |}])%list
                 else regionResults
             end)
        set []
  end.

(** [QuerySpotInstanceAvailability]. *)
Definition QuerySpotInstanceAvailability (regions : list string)
    (instanceFamily : string) : result (list SpotAvailability) :=
  if negb (HasCredentials cm ProviderTencent)
  then Err "未配置腾讯云凭据"
  else
    match GetCredentials cm ProviderTencent with
    | Err msg => Err ("获取腾讯云凭据失败: " +:+ msg)
    | Ok creds =>
        Ok (concat
              (arrival
                 (map (querySpotRegion instanceFamily
                         (AccessKey creds) (SecretKey creds))
                      regions)))
    end.

End Probes.

End Probe.

(** ** The Terraform service *)

Module Terraform.
Import Credentials.

(** The [TerraformService] interface, as the project service calls it. *)
Inductive EngineCall : Type :=
| CallInit (workDir : string)
| CallValidate (workDir : string)
| CallPlan (workDir : string) (vars : gmap string string)
| CallApply (workDir : string) (autoApprove : bool) (vars : gmap string string)
| CallDestroy (workDir : string) (autoApprove : bool)
    (vars : gmap string string).

(** An implementation of the interface: the error of a call, given the
    calls made before it. *)
Definition Engine : Type := list EngineCall -> EngineCall -> option string.

(** [isCredentialVar]. *)
Definition credentialVars : list string :=
  ["tencentcloud_secret_id"; "tencentcloud_secret_key"; "access_key";
   "secret_key"; "alicloud_access_key"; "alicloud_secret_key";
   "huaweicloud_access_key"; "huaweicloud_secret_key"; "aws_access_key_id";
   "aws_secret_access_key"].

Definition isCredentialVar (varName : string) : bool :=
  existsb (String.eqb varName) credentialVars.

(** The loop [for k, v := range vars] of [Plan], [Apply] and [Destroy]; Go
    leaves the order of the iteration open, here it is [map_to_list]'s. *)
Definition varArgs (vars : gmap string string) : list string :=
  flat_map
    (fun kv : string * string =>
       if isCredentialVar (fst kv) then []
       else ["-var"; fst kv +:+ "=" +:+ snd kv])
    (map_to_list vars).

Definition autoApproveArgs (autoApprove : bool) : list string :=
  if autoApprove then ["-auto-approve"] else [].

(** The three updates of [envMap] for one provider's credentials. *)
Definition setCreds (akName skName regionName : string) (c : Credentials)
    (envMap : gmap string string) : gmap string string :=
  let envMap := <[akName := AccessKey c]> envMap in
  let envMap := <[skName := SecretKey c]> envMap in
  if nonempty (Region c) then <[regionName := Region c]> envMap else envMap.

(** The override of [envMap] by a pair of entries of [vars]. *)
Definition overrideFromVars (vars : gmap string string)
    (idVar keyVar akName skName : string)
    (envMap : gmap string string) : gmap string string :=
  match vars !! idVar with
  | Some id =>
      if nonempty id then
        match vars !! keyVar with
        | Some key =>
            if nonempty key
            then <[skName := key]> (<[akName := id]> envMap)
            else envMap
        | None => envMap
        end
      else envMap
  | None => envMap
  end.

(** [setupCloudProviderEnv], before it is turned back into [K=V] strings. *)
Definition cloudProviderEnvMap (cm : credentialManager)
    (vars : gmap string string) : gmap string string :=
  let envMap := environ cm in
  let envMap :=
    if HasCredentials cm ProviderTencent then
      match GetCredentials cm ProviderTencent with
      | Ok c =>
          if nonempty (AccessKey c) && nonempty (SecretKey c)
          then setCreds "TENCENTCLOUD_SECRET_ID" "TENCENTCLOUD_SECRET_KEY"
                 "TENCENTCLOUD_REGION" c envMap
          else envMap
      | Err _ => envMap
      end
    else envMap in
  let envMap :=
    overrideFromVars vars "tencentcloud_secret_id" "tencentcloud_secret_key"
      "TENCENTCLOUD_SECRET_ID" "TENCENTCLOUD_SECRET_KEY" envMap in
  let envMap :=
    if HasCredentials cm ProviderAliyun then
      match GetCredentials cm ProviderAliyun with
      | Ok c =>
          if nonempty (AccessKey c) && nonempty (SecretKey c)
          then setCreds "ALICLOUD_ACCESS_KEY" "ALICLOUD_SECRET_KEY"
                 "ALICLOUD_REGION" c envMap
          else envMap
      | Err _ => envMap
      end
    else envMap in
  let envMap :=
    overrideFromVars vars "access_key" "secret_key"
      "ALICLOUD_ACCESS_KEY" "ALICLOUD_SECRET_KEY" envMap in
  let envMap :=
    if HasCredentials cm ProviderHuaweicloud then
      match GetCredentials cm ProviderHuaweicloud with
      | Ok c => setCreds "HUAWEICLOUD_ACCESS_KEY" "HUAWEICLOUD_SECRET_KEY"
                  "HUAWEICLOUD_REGION" c envMap
      | Err _ => envMap
      end
    else envMap in
  if HasCredentials cm ProviderAWS then
    match GetCredentials cm ProviderAWS with
    | Ok c => setCreds "AWS_ACCESS_KEY_ID" "AWS_SECRET_ACCESS_KEY"
                "AWS_REGION" c envMap
    | Err _ => envMap
    end
  else envMap.

(** [setupCloudProviderEnv]. *)
Definition setupCloudProviderEnv (cm : credentialManager) (workDir : string)
    (vars : gmap string string) : list string :=
  map (fun kv : string * string => fst kv +:+ "=" +:+ snd kv)
      (map_to_list (cloudProviderEnvMap cm vars)).

(** The process [exec.CommandContext] starts: the arguments after the
    executable, [cmd.Dir] and [cmd.Env]. *)
Record Command : Type := {
  Args : list string;
  Dir : string;
  Env : list string
}.

(** The command each method of [terraformService] runs. *)
Definition commandOf (cm : credentialManager) (c : EngineCall) : Command :=
  match c with
  | CallInit workDir =>
      {| Args := ["init"]; Dir := workDir;
         Env := setupCloudProviderEnv cm workDir ∅ |}
  | CallValidate workDir =>
      {| Args := ["validate"]; Dir := workDir;
         Env := setupCloudProviderEnv cm workDir ∅ |}
  | CallPlan workDir vars =>
      {| Args := "plan" :: varArgs vars; Dir := workDir;
         Env := setupCloudProviderEnv cm workDir vars |}
  | CallApply workDir autoApprove vars =>
      {| Args := "apply" :: varArgs vars ++ autoApproveArgs autoApprove;
         Dir := workDir;
         Env := setupCloudProviderEnv cm workDir vars |}
  | CallDestroy workDir autoApprove vars =>
      {| Args := "destroy" :: varArgs vars ++ autoApproveArgs autoApprove;
         Dir := workDir;
         Env := setupCloudProviderEnv cm workDir vars |}
  end.

(** The text each method puts before the error of [cmd.Run]. *)
Definition failurePrefix (c : EngineCall) : string :=
  match c with
  | CallInit _ => "Terraform init 失败: "
  | CallValidate _ => "Terraform 配置验证失败: "
  | CallPlan _ _ => "Terraform plan 失败: "
  | CallApply _ _ _ => "Terraform apply 失败: "
  | CallDestroy _ _ _ => "Terraform destroy 失败: "
  end.

(** [terraformService], over the operating system's process runner [run]
    (the error of [cmd.Run], given the commands run before). *)
Definition terraformService (cm : credentialManager)
    (run : list Command -> Command -> option string) : Engine :=
  fun before c =>
    match run (map (commandOf cm) before) (commandOf cm c) with
    | Some msg => Some (failurePrefix c +:+ msg)
    | None => None
    end.

End Terraform.

(** ** Scenarios and the project repository *)

Module Domain.

(** [domain.Scenario] without its two timestamps. *)
Record Scenario : Type := {
  ID : string;
  Name : string;
  Template : string;
  Path : string;
  Status : string
}.

Definition with_Status (s : Scenario) (status : string) : Scenario :=
  {| ID := ID s; Name := Name s; Template := Template s; Path := Path s;
     Status := status |}.

Definition with_Template (s : Scenario) (template : string) : Scenario :=
  {| ID := ID s; Name := Name s; Template := template; Path := Path s;
     Status := Status s |}.

Definition with_Path (s : Scenario) (path : string) : Scenario :=
  {| ID := ID s; Name := Name s; Template := Template s; Path := path;
     Status := Status s |}.

(** [domain.Project], as far as the project service reads it. *)
Record Project : Type := {
  proj_Name : string;
  proj_Path : string
}.

End Domain.

(** ** The project service: deploy, failover, fragmentation, destroy *)

Module Orchestrator.
Import Credentials Probe Terraform Domain.

(** [strconv.Atoi]. *)
Definition digitValue (a : ascii) : option Z :=
  let n := Z.of_nat (nat_of_ascii a) in
  if (48 <=? n)%Z && (n <=? 57)%Z then Some (n - 48)%Z else None.

Fixpoint digitsValue (s : string) (acc : Z) : option Z :=
  match s with
  | EmptyString => Some acc
  | String a rest =>
      match digitValue a with
      | Some d => digitsValue rest (10 * acc + d)%Z
      | None => None
      end
  end.

Definition inInt (n : Z) : option Z :=
  if (- 2 ^ 63 <=? n)%Z && (n <? 2 ^ 63)%Z then Some n else None.

Definition Atoi (s : string) : option Z :=
  match s with
  | EmptyString => None
  | String a rest =>
      if Ascii.eqb a "+"%char then
        match rest with
        | EmptyString => None
        | _ => digitsValue rest 0 ≫= inInt
        end
      else if Ascii.eqb a "-"%char then
        match rest with
        | EmptyString => None
        | _ => digitsValue rest 0 ≫= (fun n => inInt (- n)%Z)
        end
      else digitsValue s 0 ≫= inInt
  end.

(** The logger's levels. *)
Inductive Level : Type := LDebug | LInfo | LWarn | LError.

(** What a call leaves behind, in order: the calls of the Terraform service
    with their errors, the calls of the logger (level, format, arguments as
    they print) and the template copies. *)
Inductive Event : Type :=
| EvEngine (c : EngineCall) (err : option string)
| EvLog (level : Level) (format : string) (args : list string)
| EvCopyTemplate (provider templateName destPath : string)
    (err : option string).

(** The state the project service works on: the events so far, the
    project directories that exist (by project name) and the scenario
    metadata files (by scenario directory). *)
Record World : Type := {
  trace : list Event;
  projects : gset string;
  scenarios : gmap string Scenario
}.

Definition with_trace (w : World) (t : list Event) : World :=
  {| trace := t; projects := projects w; scenarios := scenarios w |}.

Definition with_scenarios (w : World) (s : gmap string Scenario) : World :=
  {| trace := trace w; projects := projects w; scenarios := s |}.

(** The engine calls among the events, oldest first. *)
Definition engineCalls (t : list Event) : list EngineCall :=
  flat_map (fun ev => match ev with EvEngine c _ => [c] | _ => [] end) t.

(** How a call ends: it returns its error, or the runtime panics. *)
Inductive Outcome : Type :=
| Returned (err : option string)
| Panicked (msg : string).

(** State passing. *)
Definition M (A : Type) : Type := World -> A * World.

Definition ret {A} (a : A) : M A := fun w => (a, w).

Definition bind {A B} (m : M A) (k : A -> M B) : M B :=
  fun w => let (a, w') := m w in k a w'.

Notation "'do' x <- m ; k" := (bind m (fun x => k))
  (at level 10, x name, m at level 100, k at level 200,
   format "'[v' 'do'  x  <-  m ; '/' k ']'").
Notation "'exec' m ; k" := (bind m (fun _ => k))
  (at level 10, m at level 100, k at level 200,
   format "'[v' 'exec'  m ; '/' k ']'").

(** [fmt.Errorf(prefix + "%w", err)]. *)
Definition wrap (prefix msg : string) : option string := Some (prefix +:+ msg).

(** [%v] of an error that may be [nil]. *)
Definition fmt_error (err : option string) : string :=
  match err with Some msg => msg | None => "<nil>" end.

(** The quota test both failover paths apply to the text of an engine
    error. *)
Definition isQuotaError (msg : string) : bool :=
  Contains msg "LimitExceeded.SpotQuota" || Contains msg "配额不足".

(** [vars[key]] where Go reads the zero value for a missing key. *)
Definition varOf (vars : gmap string string) (key : string) : string :=
  default "" (vars !! key).

(** The region suffix table of the aliyun-proxy templates. *)
Definition regionMap : gmap string string :=
  list_to_map
    [("bj", "aliyun/aliyun-proxy/zone-node/ss-libev-node-bj");
     ("sh", "aliyun/aliyun-proxy/zone-node/ss-libev-node-sh");
     ("hhht", "aliyun/aliyun-proxy/zone-node/ss-libev-node-hhht");
     ("wlcb", "aliyun/aliyun-proxy/zone-node/ss-libev-node-wlcb");
     ("zjk", "aliyun/aliyun-proxy/zone-node/ss-libev-node-zjk")].

Definition regionOrder : list string := ["bj"; "sh"; "hhht"; "wlcb"; "zjk"].

(** The chain of [strings.Contains] tests of [deployAliyunProxyWithRegion]
    that reads the short region name off a template path. *)
Definition extractRegion (templatePath : string) : string :=
  if Contains templatePath "ss-libev-node-bj" then "bj"
  else if Contains templatePath "ss-libev-node-sh" then "sh"
  else if Contains templatePath "ss-libev-node-hhht" then "hhht"
  else if Contains templatePath "ss-libev-node-wlcb" then "wlcb"
  else if Contains templatePath "ss-libev-node-zjk" then "zjk"
  else "".

(** The chain of tests of [deployAliyunProxyScenario] that sets
    [vars["region"]] from the template path. *)
Definition templateRegionVar (template : string) : option string :=
  if Contains template "ss-libev-node-bj" then Some "cn-beijing"
  else if Contains template "ss-libev-node-sh" then Some "cn-shanghai"
  else if Contains template "ss-libev-node-hhht" then Some "cn-huhehaote"
  else if Contains template "ss-libev-node-wlcb" then Some "cn-wulanchabu"
  else if Contains template "ss-libev-node-zjk" then Some "cn-zhangjiakou"
  else None.

Section Service.
(** [config.ProjectDir]. *)
Variable ProjectDir : string.
(** The default credential manager. *)
Variable cm : credentialManager.
(** The [tccli] probes and the goroutine scheduler. *)
Variable DescribeSpotPriceHistory :
  string -> string -> string -> string -> CmdOutput nat.
Variable DescribeInstanceTypeConfigs :
  string -> string -> string -> string -> CmdOutput (list InstanceTypeConfig).
Variable DescribeInstanceFamilyConfigs :
  string -> string -> string -> string -> CmdOutput (list InstanceTypeConfig).
Context {scheduler : Scheduler}.
(** [s.terraformSvc]. *)
Variable terraformSvc : Engine.
(** [s.templateRepo.CopyTemplate(provider, templateName, destPath)]. *)
Variable copyTemplate : string -> string -> string -> option string.

(** *** The logger and the engine *)

Definition log (level : Level) (format : string) (args : list string)
  : M unit :=
  fun w => (tt, with_trace w (trace w ++ [EvLog level format args])).

Definition engine (c : EngineCall) : M (option string) :=
  fun w =>
    let err := terraformSvc (engineCalls (trace w)) c in
    (err, with_trace w (trace w ++ [EvEngine c err])).

Definition CopyTemplate (provider templateName destPath : string)
  : M (option string) :=
  fun w =>
    let err := copyTemplate provider templateName destPath in
    (err,
     with_trace w
       (trace w ++ [EvCopyTemplate provider templateName destPath err])).

(** *** [projectRepository]

    A project exists when its directory does; a scenario exists when its
    directory holds [.scenario.json].  [filepath.Join] is written for clean
    components. *)

Definition joinPath (dir name : string) : string := dir +:+ "/" +:+ name.

Definition GetProject (name : string) : M (result Project) :=
  fun w =>
    if decide (name ∈ projects w)
    then (Ok {| proj_Name := name; proj_Path := joinPath ProjectDir name |}, w)
    else (Err ("项目 " +:+ name +:+ " 不存在"), w).

Definition GetScenario (projectName scenarioID : string)
  : M (result Scenario) :=
  do p <- GetProject projectName;
  match p with
  | Err msg => ret (Err msg)
  | Ok project =>
      fun w =>
        let scenarioPath := joinPath (proj_Path project) scenarioID in
        match scenarios w !! scenarioPath with
        | None => (Err ("场景 " +:+ scenarioID +:+ " 不存在"), w)
        | Some scenario => (Ok (with_Path scenario scenarioPath), w)
        end
  end.

(** [saveScenarioMetadata]: the file is written under [scenario.Path]. *)
Definition saveScenarioMetadata (scenario : Scenario) : M (option string) :=
  fun w =>
    (None, with_scenarios w (<[Path scenario := scenario]> (scenarios w))).

(** [AddScenario]; it sets [scenario.Path], so the scenario is returned. *)
Definition AddScenario (projectName : string) (scenario : Scenario)
  : M (option string * Scenario) :=
  do p <- GetProject projectName;
  match p with
  | Err msg => ret (Some msg, scenario)
  | Ok project =>
      let scenario :=
        with_Path scenario (joinPath (proj_Path project) (ID scenario)) in
      do err <- saveScenarioMetadata scenario;
      match err with
      | Some msg => ret (wrap "保存场景元数据失败: " msg, scenario)
      | None => ret (None, scenario)
      end
  end.

(** [UpdateScenario]. *)
Definition UpdateScenario (projectName : string) (scenario : Scenario)
  : M (option string) :=
  do found <- GetScenario projectName (ID scenario);
  match found with
  | Err msg => ret (Some msg)
  | Ok _ => saveScenarioMetadata scenario
  end.

(** The tail every successful deploy path shares: set the status, store
    the scenario, log. *)
Definition markDeployed (projectName scenarioID : string)
    (scenario : Scenario) (successFormat : string) (successArgs : list string)
  : M (option string) :=
  let scenario := with_Status scenario "deployed" in
  do err <- UpdateScenario projectName scenario;
  match err with
  | Some msg =>
      exec log LError "更新场景状态失败: project=%s, scenario=%s, error=%v"
            [projectName; scenarioID; msg];
      ret (wrap "更新场景状态失败: " msg)
  | None =>
      exec log LInfo successFormat successArgs;
      ret None
  end.

(** *** [deployAliyunProxyScenario] *)

Definition aliyunProxyVars (nodeCount : Z) (scenario : Scenario)
  : gmap string string :=
  let vars : gmap string string := ∅ in
  let vars :=
    if HasCredentials cm ProviderAliyun then
      match GetCredentials cm ProviderAliyun with
      | Ok creds =>
          let vars := <["access_key" := AccessKey creds]> vars in
          let vars := <["secret_key" := SecretKey creds]> vars in
          match templateRegionVar (Template scenario) with
          | Some region => <["region" := region]> vars
          | None => vars
          end
      | Err _ => vars
      end
    else vars in
  if (0 <? nodeCount)%Z then <["node_count" := Itoa nodeCount]> vars else vars.

Definition deployAliyunProxyScenario (projectName scenarioID : string)
    (autoApprove : bool) (nodeCount : Z) (toolName toolArgs : string)
    (scenario : Scenario) : M (option string) :=
  let vars := aliyunProxyVars nodeCount scenario in
  do err <- engine (CallInit (Path scenario));
  match err with
  | Some msg => ret (wrap "初始化 Terraform 失败: " msg)
  | None =>
  do err <- engine (CallValidate (Path scenario));
  match err with
  | Some msg => ret (wrap "验证 Terraform 配置失败: " msg)
  | None =>
  do err <- engine (CallPlan (Path scenario) vars);
  match err with
  | Some msg => ret (wrap "Terraform plan 失败: " msg)
  | None =>
  do err <- engine (CallApply (Path scenario) autoApprove vars);
  match err with
  | Some msg => ret (wrap "Terraform apply 失败: " msg)
  | None =>
      markDeployed projectName scenarioID scenario
        "场景部署成功: project=%s, scenario=%s" [projectName; scenarioID]
  end end end end.

(** *** [deployAliyunProxyWithRegion] *)

(** One turn of the loop over [regionOrder]: the new [lastErr] and whether
    the region was deployed. *)
Definition deployRegionTurn (projectName : string) (autoApprove : bool)
    (nodeCount : Z) (toolName toolArgs : string) (scenario : Scenario)
    (project : Project) (lastErr : option string) (reg : string)
  : M (option string * bool) :=
  let templatePath := varOf regionMap reg in
  exec log LInfo "尝试启动区域: %s，模板路径: %s" [reg; templatePath];
  let regionScenarioID := ID scenario +:+ "-" +:+ reg in
  let regionScenarioPath := proj_Path project +:+ "/" +:+ regionScenarioID in
  let provider := "aliyun" in
  let templateName := TrimPrefix templatePath "aliyun/" in
  do err <- CopyTemplate provider templateName regionScenarioPath;
  match err with
  | Some msg =>
      exec log LWarn "区域 %s 复制模板失败: %v" [reg; msg];
      ret (Some msg, false)
  | None =>
  let regionScenario :=
    {| ID := regionScenarioID;
       Name := Name scenario +:+ "-" +:+ reg;
       Template := templatePath;
       Status := "pending";
       Path := regionScenarioPath |} in
  do added <- AddScenario projectName regionScenario;
  let regionScenario := snd added in
  match fst added with
  | Some msg =>
      exec log LWarn "区域 %s 保存场景失败: %v" [reg; msg];
      ret (Some msg, false)
  | None =>
  do err <- deployAliyunProxyScenario projectName regionScenarioID autoApprove
              nodeCount toolName toolArgs regionScenario;
  match err with
  | Some msg =>
      exec log LWarn "区域 %s 部署失败: %v" [reg; msg];
      ret (Some msg, false)
  | None =>
      exec log LInfo "区域 %s 部署成功" [reg];
      ret (lastErr, true)
  end end end.

Fixpoint deployRegions (projectName : string) (autoApprove : bool)
    (nodeCount : Z) (toolName toolArgs : string) (scenario : Scenario)
    (project : Project) (regions : list string) (lastErr : option string)
    (successCount : Z) : M (option string * Z) :=
  match regions with
  | [] => ret (lastErr, successCount)
  | reg :: rest =>
      do turn <- deployRegionTurn projectName autoApprove nodeCount toolName
                   toolArgs scenario project lastErr reg;
      deployRegions projectName autoApprove nodeCount toolName toolArgs
        scenario project rest (fst turn)
        (if snd turn then successCount + 1 else successCount)%Z
  end.

Definition deployAliyunProxyWithRegion (projectName scenarioID : string)
    (autoApprove : bool) (nodeCount : Z) (toolName toolArgs : string)
    (scenario : Scenario) (region : string) : M (option string) :=
  let deploy := deployAliyunProxyScenario projectName scenarioID autoApprove
                  nodeCount toolName toolArgs in
  (* what follows the first [if] block of the function *)
  let rest (scenario : Scenario) : M (option string) :=
    if nonempty region then
      match regionMap !! region with
      | None =>
          ret (Some ("无效的区域: " +:+ region +:+
                     "，支持的区域: bj, sh, hhht, wlcb, zjk"))
      | Some templatePath =>
          let scenario := with_Template scenario templatePath in
          exec log LInfo "使用指定区域: %s，模板路径: %s" [region; templatePath];
          deploy scenario
      end
    else
      exec log LInfo "未指定区域，按顺序启动所有区域: %v" [fmt_slice regionOrder];
      do p <- GetProject projectName;
      match p with
      | Err msg => ret (wrap "获取项目失败: " msg)
      | Ok project =>
          do res <- deployRegions projectName autoApprove nodeCount toolName
                      toolArgs scenario project regionOrder None 0;
          let lastErr := fst res in
          let successCount := snd res in
          if (successCount =? 0)%Z
          then ret (Some ("所有区域部署失败，最后一个错误: " +:+
                          match lastErr with
                          | Some msg => msg
                          | None => "%!w(<nil>)"
                          end))
          else
            exec log LInfo "区域部署完成: 成功 %d/%d"
                   [Itoa successCount; Itoa (Z.of_nat (length regionOrder))];
            ret None
      end in
  if Contains (Template scenario) "aliyun/aliyun-proxy/zone-node/ss-libev-node-"
  then
    let extractedRegion := extractRegion (Template scenario) in
    if nonempty extractedRegion && negb (nonempty region) then
      exec log LInfo "场景已指定区域: %s，使用模板中的区域进行部署"
             [extractedRegion];
      deploy scenario
    else
      let switched :=
        if nonempty extractedRegion && nonempty region &&
           negb (String.eqb region extractedRegion)
        then Some (regionMap !! region) else None in
      match switched with
      | Some found =>
          exec log LWarn
                 "场景模板区域 (%s) 与部署指定区域 (%s) 不一致，使用部署指定的区域"
                 [extractedRegion; region];
          match found with
          | Some newTemplatePath =>
              let scenario := with_Template scenario newTemplatePath in
              exec log LInfo "切换到区域: %s，模板路径: %s"
                     [region; newTemplatePath];
              deploy scenario
          | None => rest scenario
          end
      | None =>
          if nonempty extractedRegion && String.eqb region extractedRegion
          then deploy scenario
          else rest scenario
      end
  else rest scenario.

(** *** [deployAcrossMultipleRegions] *)

(** The loop [for remainingNodes > 0 && regionIndex < len(regions)], over
    the regions from [regionIndex] on; it yields [remainingNodes] and
    [deployedRegions]. *)
Fixpoint placeNodes (autoApprove : bool) (scenario : Scenario)
    (baseVars : gmap string string) (regions : list string)
    (remainingNodes : Z) (deployedRegions : list string)
  : M (Z * list string) :=
  if negb (0 <? remainingNodes)%Z then ret (remainingNodes, deployedRegions)
  else
    match regions with
    | [] => ret (remainingNodes, deployedRegions)
    | region :: rest =>
        let next := placeNodes autoApprove scenario baseVars rest in
        let nodesToDeploy := 1%Z in
        exec log LInfo "尝试在区域 %s 部署 %d 个节点 (剩余 %d 个节点)"
               [region; Itoa nodesToDeploy; Itoa remainingNodes];
        let newVars := baseVars in
        let newVars := <["region" := region]> newVars in
        let newVars := <["node_count" := Itoa nodesToDeploy]> newVars in
        do err <- engine (CallInit (Path scenario));
        match err with
        | Some msg =>
            exec log LWarn "区域 %s 初始化失败，跳过: %v" [region; msg];
            next remainingNodes deployedRegions
        | None =>
        do err <- engine (CallValidate (Path scenario));
        match err with
        | Some msg =>
            exec log LWarn "区域 %s 验证失败，跳过: %v" [region; msg];
            next remainingNodes deployedRegions
        | None =>
        do err <- engine (CallPlan (Path scenario) newVars);
        match err with
        | Some msg =>
            if isQuotaError msg then
              exec log LWarn "区域 %s 配额不足，尝试下一个区域" [region];
              next remainingNodes deployedRegions
            else
              exec log LWarn "区域 %s Plan 失败，跳过: %v" [region; msg];
              next remainingNodes deployedRegions
        | None =>
        do err <- engine (CallApply (Path scenario) autoApprove newVars);
        match err with
        | Some msg =>
            if isQuotaError msg then
              exec log LWarn "区域 %s 配额不足，尝试下一个区域" [region];
              next remainingNodes deployedRegions
            else
              exec log LWarn "区域 %s Apply 失败，尝试下一个区域: %v"
                     [region; msg];
              next remainingNodes deployedRegions
        | None =>
            exec log LInfo "成功在区域 %s 部署 %d 个节点"
                   [region; Itoa nodesToDeploy];
            let deployedRegions :=
              (deployedRegions ++
               [region +:+ "(" +:+ Itoa nodesToDeploy +:+ ")"])%list in
            let remainingNodes := (remainingNodes - nodesToDeploy)%Z in
            if (remainingNodes <=? 0)%Z
            then ret (remainingNodes, deployedRegions)
            else next remainingNodes deployedRegions
        end end end end
    end.

Definition deployAcrossMultipleRegions (projectName scenarioID : string)
    (autoApprove : bool) (totalNodeCount : Z) (toolName toolArgs : string)
    (scenario : Scenario) (baseVars : gmap string string)
    (regions : list string) : M Outcome :=
  exec log LInfo "开始跨区域分散部署: 总节点数=%d, 可用区域数=%d"
         [Itoa totalNodeCount; Itoa (Z.of_nat (length regions))];
  (* nodesPerRegion := totalNodeCount / len(regions) *)
  if (Z.of_nat (length regions) =? 0)%Z
  then ret (Panicked "runtime error: integer divide by zero")
  else
    do placed <- placeNodes autoApprove scenario baseVars regions
                   totalNodeCount [];
    let remainingNodes := fst placed in
    let deployedRegions := snd placed in
    if (0 <? remainingNodes)%Z
    then ret (Returned
                (Some ("跨区域部署未完成: 剩余 " +:+ Itoa remainingNodes +:+
                       " 个节点未部署。已部署区域: " +:+
                       fmt_slice deployedRegions)))
    else
      do err <- markDeployed projectName scenarioID scenario
                  "跨区域部署成功: 总节点数=%d, 部署区域=%v"
                  [Itoa totalNodeCount; fmt_slice deployedRegions];
      ret (Returned err).

(** *** [retryDeployWithDifferentRegions] *)

(** The node count both Tencent paths work with: [nodeCount] when it is
    positive, else [vars["node_count"]] when it parses to a positive number,
    else 3. *)
Definition actualNodeCountOf (nodeCount : Z) (vars : gmap string string) : Z :=
  let actualNodeCount := nodeCount in
  if (actualNodeCount <=? 0)%Z then
    let actualNodeCount :=
      match vars !! "node_count" with
      | Some nodeCountStr =>
          if nonempty nodeCountStr then
            match Atoi nodeCountStr with
            | Some parsed =>
                if (0 <? parsed)%Z then parsed else actualNodeCount
            | None => actualNodeCount
            end
          else actualNodeCount
      | None => actualNodeCount
      end in
    if (actualNodeCount <=? 0)%Z then 3%Z else actualNodeCount
  else actualNodeCount.

(** The single-region loop [for _, region := range availableRegions]. *)
Fixpoint tryRegions (projectName scenarioID : string) (autoApprove : bool)
    (scenario : Scenario) (originalVars : gmap string string)
    (originalErr : string) (regions : list string) : M (option string) :=
  match regions with
  | [] =>
      ret (Some ("所有国内区域都配额不足，部署失败。原始错误: " +:+ originalErr))
  | region :: rest =>
      let next := tryRegions projectName scenarioID autoApprove scenario
                    originalVars originalErr rest in
      exec log LInfo "尝试使用区域: %s" [region];
      let newVars := originalVars in
      let newVars := <["region" := region]> newVars in
      do err <- engine (CallInit (Path scenario));
      match err with
      | Some msg =>
          exec log LWarn "重新初始化失败，跳过区域 %s: %v" [region; msg];
          next
      | None =>
      do err <- engine (CallValidate (Path scenario));
      match err with
      | Some msg =>
          exec log LWarn "验证失败，跳过区域 %s: %v" [region; msg];
          next
      | None =>
      do err <- engine (CallPlan (Path scenario) newVars);
      match err with
      | Some msg =>
          if isQuotaError msg then
            exec log LWarn "区域 %s 配额不足，继续尝试其他区域" [region];
            next
          else
            exec log LWarn "Plan 失败，跳过区域 %s: %v" [region; msg];
            next
      | None =>
      do err <- engine (CallApply (Path scenario) autoApprove newVars);
      match err with
      | Some msg =>
          if isQuotaError msg then
            exec log LWarn "区域 %s 配额不足，继续尝试其他区域" [region];
            next
          else
            ret (Some ("Terraform apply 失败 (区域: " +:+ region +:+ "): " +:+
                       msg))
      | None =>
          markDeployed projectName scenarioID scenario
            "场景部署成功 (使用区域: %s): project=%s, scenario=%s"
            [region; projectName; scenarioID]
      end end end end
  end.

Definition retryDeployWithDifferentRegions (projectName scenarioID : string)
    (autoApprove : bool) (nodeCount : Z) (toolName toolArgs : string)
    (scenario : Scenario) (originalVars : gmap string string)
    (originalErr : string) : M Outcome :=
  let actualNodeCount := actualNodeCountOf nodeCount originalVars in
  exec log LWarn "检测到配额不足错误，尝试跨区域分散部署: error=%v, nodeCount=%d"
         [originalErr; Itoa actualNodeCount];
  let domesticRegions := GetDomesticRegions in
  let currentRegion := varOf originalVars "region" in
  let currentRegion :=
    if nonempty currentRegion then currentRegion else "ap-beijing" in
  let availableRegions :=
    List.filter (fun region => negb (String.eqb region currentRegion))
                domesticRegions in
  if (1 <? actualNodeCount)%Z && (1 <? length availableRegions)%nat
  then deployAcrossMultipleRegions projectName scenarioID autoApprove
         actualNodeCount toolName toolArgs scenario originalVars
         availableRegions
  else
    do err <- tryRegions projectName scenarioID autoApprove scenario
                originalVars originalErr availableRegions;
    ret (Returned err).

(** *** [DeployScenario] *)

(** The two nested loops that look for an available domestic region. *)
Fixpoint firstDomestic (domesticRegions : list string)
    (availability : list SpotAvailability) : option SpotAvailability :=
  match domesticRegions with
  | [] => None
  | dr :: rest =>
      match
        List.find (fun av => String.eqb (sa_Region av) dr && Available av)
                  availability
      with
      | Some av => Some av
      | None => firstDomestic rest availability
      end
  end.

(** The choice of [vars["region"]] for a Tencent template whose credentials
    carry no region. *)
Definition chooseTencentRegion (vars : gmap string string)
  : M (gmap string string) :=
  let fallback : M (gmap string string) :=
    match FindBestTencentRegion cm DescribeSpotPriceHistory
            DescribeInstanceTypeConfigs "S5.SMALL1" with
    | Ok bestRegion =>
        if nonempty bestRegion then
          exec log LInfo "自动选择腾讯云区域: %s" [bestRegion];
          ret (<["region" := bestRegion]> vars)
        else ret (<["region" := "ap-beijing"]> vars)
    | Err _ => ret (<["region" := "ap-beijing"]> vars)
    end in
  match QuerySpotInstanceAvailability cm DescribeSpotPriceHistory
          DescribeInstanceFamilyConfigs GetTencentRegions "S5" with
  | Ok (first :: others) =>
      let availability := first :: others in
      let domesticRegions :=
        ["ap-shanghai"; "ap-nanjing"; "ap-guangzhou"; "ap-beijing";
         "ap-chengdu"; "ap-chongqing"] in
      match firstDomestic domesticRegions availability with
      | Some av =>
          exec (if nonempty (sa_InstanceType av)
                then log LInfo
                       "自动选择腾讯云区域和实例类型: region=%s, instance_type=%s"
                       [sa_Region av; sa_InstanceType av]
                else log LInfo "自动选择腾讯云区域: %s" [sa_Region av]);
          ret (<["region" := sa_Region av]> vars)
      | None =>
          exec log LInfo "自动选择腾讯云区域: %s" [sa_Region first];
          ret (<["region" := sa_Region first]> vars)
      end
  | Ok [] => fallback
  | Err _ => fallback
  end.

Definition tencentVars (templatePath : string) (vars : gmap string string)
  : M (gmap string string) :=
  if HasPrefix templatePath "tencent/" && HasCredentials cm ProviderTencent
  then
    match GetCredentials cm ProviderTencent with
    | Ok creds =>
        let vars := <["tencentcloud_secret_id" := AccessKey creds]> vars in
        let vars := <["tencentcloud_secret_key" := SecretKey creds]> vars in
        if nonempty (Region creds)
        then ret (<["region" := Region creds]> vars)
        else chooseTencentRegion vars
    | Err _ => ret vars
    end
  else ret vars.

Definition aliyunVars (templatePath : string) (vars : gmap string string)
  : gmap string string :=
  if HasPrefix templatePath "aliyun/" && HasCredentials cm ProviderAliyun
  then
    match GetCredentials cm ProviderAliyun with
    | Ok creds =>
        let vars :=
          if Contains templatePath "aliyun-proxy"
          then <["secret_key" := SecretKey creds]>
                 (<["access_key" := AccessKey creds]> vars)
          else vars in
        if nonempty (Region creds)
        then <["region" := Region creds]> vars
        else vars
    | Err _ => vars
    end
  else vars.

Definition huaweicloudVars (templatePath : string)
    (vars : gmap string string) : gmap string string :=
  if HasPrefix templatePath "huaweicloud/" &&
     HasCredentials cm ProviderHuaweicloud
  then
    match GetCredentials cm ProviderHuaweicloud with
    | Ok creds =>
        let vars := <["access_key" := AccessKey creds]> vars in
        let vars := <["secret_key" := SecretKey creds]> vars in
        if nonempty (Region creds)
        then <["region" := Region creds]> vars
        else vars
    | Err _ => vars
    end
  else vars.

Definition nodeCountVars (template : string) (nodeCount : Z)
    (vars : gmap string string) : gmap string string :=
  if (0 <? nodeCount)%Z &&
     (Contains template "aliyun/aliyun-proxy" ||
      Contains template "huaweicloud/huaweicloud-proxy" ||
      Contains template "tencent/tencent-proxy" ||
      Contains template "tencent/tencent-proxy-postpaid")
  then <["node_count" := Itoa nodeCount]> vars
  else vars.

Definition toolVars (template projectName scenarioID toolName toolArgs : string)
    (vars : gmap string string) : M (gmap string string) :=
  if nonempty toolName && Contains template "task-executor-spot" then
    let vars := <["program_oss_path" := toolName]> vars in
    let vars :=
      if nonempty toolArgs then <["execution_args" := toolArgs]> vars
      else vars in
    let vars := <["project_name" := projectName]> vars in
    let vars := <["scenario_id" := scenarioID]> vars in
    let toolBucket := Getenv (environ cm) "TOOL_OSS_BUCKET" in
    let toolBucket :=
      if nonempty toolBucket then toolBucket else "aliyuncloudtools" in
    let vars := <["tool_oss_bucket" := toolBucket]> vars in
    exec log LInfo "使用工具存储桶: %s" [toolBucket];
    ret vars
  else ret vars.

(** The region list of the direct fragmentation: the chosen region first,
    then the other domestic regions. *)
Definition spreadRegions (vars : gmap string string) : list string :=
  let domesticRegions := GetDomesticRegions in
  if nonempty (varOf vars "region")
  then varOf vars "region" ::
       List.filter (fun r => negb (String.eqb r (varOf vars "region")))
                   domesticRegions
  else domesticRegions.

(** Whether [DeployScenario] goes straight to fragmentation, and with how
    many nodes. *)
Definition spreadNodeCount (template : string) (nodeCount : Z)
    (vars : gmap string string) : option Z :=
  if Contains template "tencent/" then
    let actualNodeCount := actualNodeCountOf nodeCount vars in
    if (1 <? actualNodeCount)%Z &&
       negb (Contains template "tencent-proxy-postpaid")
    then
      let enableSpot :=
        match vars !! "enable_spot" with
        | Some spotEnabled => negb (String.eqb spotEnabled "false")
        | None => true
        end in
      if enableSpot then Some actualNodeCount else None
    else None
  else None.

(** The test under which a failed plan or apply starts the failover. *)
Definition startsFailover (template msg : string) : bool :=
  Contains template "tencent/" && isQuotaError msg.

Definition DeployScenario (projectName scenarioID : string)
    (autoApprove : bool) (nodeCount : Z) (toolName toolArgs region : string)
  : M Outcome :=
  exec log LInfo
         "开始部署场景: project=%s, scenario=%s, nodeCount=%d, toolName=%s, region=%s"
         [projectName; scenarioID; Itoa nodeCount; toolName; region];
  do found <- GetScenario projectName scenarioID;
  match found with
  | Err msg =>
      exec log LError "获取场景信息失败: project=%s, scenario=%s, error=%v"
             [projectName; scenarioID; msg];
      ret (Returned (Some msg))
  | Ok scenario =>
  if Contains (Template scenario)
       "aliyun/aliyun-proxy/zone-node/ss-libev-node-"
  then
    exec log LInfo "场景已指定区域（模板路径: %s），使用模板中的区域进行部署"
           [Template scenario];
    do err <- deployAliyunProxyScenario projectName scenarioID autoApprove
                nodeCount toolName toolArgs scenario;
    ret (Returned err)
  else if Contains (Template scenario) "aliyun/aliyun-proxy" &&
          negb (Contains (Template scenario) "zone-node")
  then
    exec log LWarn "场景模板未指定区域，使用旧的逻辑按顺序启动所有区域" [];
    do err <- deployAliyunProxyWithRegion projectName scenarioID autoApprove
                nodeCount toolName toolArgs scenario region;
    ret (Returned err)
  else
    let templatePath := Template scenario in
    do vars <- tencentVars templatePath ∅;
    let vars := aliyunVars templatePath vars in
    let vars := huaweicloudVars templatePath vars in
    let vars := nodeCountVars (Template scenario) nodeCount vars in
    do vars <- toolVars (Template scenario) projectName scenarioID toolName
                 toolArgs vars;
    match spreadNodeCount (Template scenario) nodeCount vars with
    | Some actualNodeCount =>
        exec log LInfo
               "腾讯云抢占式实例多节点部署，使用跨区域分散部署策略: nodeCount=%d"
               [Itoa actualNodeCount];
        deployAcrossMultipleRegions projectName scenarioID autoApprove
          actualNodeCount toolName toolArgs scenario vars (spreadRegions vars)
    | None =>
    do err <- engine (CallInit (Path scenario));
    match err with
    | Some msg => ret (Returned (wrap "初始化 Terraform 失败: " msg))
    | None =>
    do err <- engine (CallValidate (Path scenario));
    match err with
    | Some msg => ret (Returned (wrap "验证 Terraform 配置失败: " msg))
    | None =>
    do err <- engine (CallPlan (Path scenario) vars);
    match err with
    | Some msg =>
        if startsFailover (Template scenario) msg
        then retryDeployWithDifferentRegions projectName scenarioID
               autoApprove nodeCount toolName toolArgs scenario vars msg
        else ret (Returned (wrap "Terraform plan 失败: " msg))
    | None =>
    do err <- engine (CallApply (Path scenario) autoApprove vars);
    match err with
    | Some msg =>
        if startsFailover (Template scenario) msg
        then retryDeployWithDifferentRegions projectName scenarioID
               autoApprove nodeCount toolName toolArgs scenario vars msg
        else ret (Returned (wrap "Terraform apply 失败: " msg))
    | None =>
        do err <- markDeployed projectName scenarioID scenario
                    "场景部署成功: project=%s, scenario=%s"
                    [projectName; scenarioID];
        ret (Returned err)
    end end end end
    end
  end.

(** *** [DestroyScenario] *)

Definition destroyVars (templatePath : string) : M (gmap string string) :=
  let vars : gmap string string := ∅ in
  do vars <-
    (if HasPrefix templatePath "tencent/" &&
        HasCredentials cm ProviderTencent
     then
       match GetCredentials cm ProviderTencent with
       | Ok creds =>
           exec log LDebug "已传递腾讯云凭据到 Terraform destroy" [];
           ret (<["tencentcloud_secret_key" := SecretKey creds]>
                  (<["tencentcloud_secret_id" := AccessKey creds]> vars))
       | Err _ => ret vars
       end
     else ret vars);
  do vars <-
    (if HasPrefix templatePath "aliyun/" then
       do vars <-
         (if HasCredentials cm ProviderAliyun then
            match GetCredentials cm ProviderAliyun with
            | Ok creds =>
                if Contains templatePath "aliyun-proxy" then
                  exec log LDebug "已传递阿里云凭据到 Terraform destroy" [];
                  ret (<["secret_key" := SecretKey creds]>
                         (<["access_key" := AccessKey creds]> vars))
                else ret vars
            | Err _ => ret vars
            end
          else ret vars);
       if Contains templatePath "task-executor-spot" &&
          HasCredentials cm ProviderAliyun
       then
         match GetCredentials cm ProviderAliyun with
         | Ok creds =>
             exec log LDebug "已传递 OSS 凭据到 Terraform destroy" [];
             ret (<["oss_access_key_secret" := SecretKey creds]>
                    (<["oss_access_key_id" := AccessKey creds]> vars))
         | Err _ => ret vars
         end
       else ret vars
     else ret vars);
  if HasPrefix templatePath "huaweicloud/" &&
     HasCredentials cm ProviderHuaweicloud
  then
    match GetCredentials cm ProviderHuaweicloud with
    | Ok creds =>
        exec log LDebug "已传递华为云凭据到 Terraform destroy" [];
        ret (<["secret_key" := SecretKey creds]>
               (<["access_key" := AccessKey creds]> vars))
    | Err _ => ret vars
    end
  else ret vars.

Definition DestroyScenario (projectName scenarioID : string)
    (autoApprove : bool) : M (option string) :=
  exec log LInfo "开始销毁场景: project=%s, scenario=%s"
         [projectName; scenarioID];
  do found <- GetScenario projectName scenarioID;
  match found with
  | Err msg =>
      exec log LError "获取场景信息失败: project=%s, scenario=%s, error=%v"
             [projectName; scenarioID; msg];
      ret (Some msg)
  | Ok scenario =>
      do vars <- destroyVars (Template scenario);
      do err <- engine (CallDestroy (Path scenario) autoApprove vars);
      match err with
      | Some msg =>
          exec log LError
                 "Terraform destroy 失败: project=%s, scenario=%s, error=%v"
                 [projectName; scenarioID; msg];
          ret (wrap "Terraform destroy 失败: " msg)
      | None =>
          let scenario := with_Status scenario "destroyed" in
          do err <- UpdateScenario projectName scenario;
          match err with
          | Some msg =>
              exec log LError
                     "更新场景状态失败: project=%s, scenario=%s, error=%v"
                     [projectName; scenarioID; msg];
              ret (wrap "更新场景状态失败: " msg)
          | None =>
              exec log LInfo "场景销毁成功: project=%s, scenario=%s"
                     [projectName; scenarioID];
              ret None
          end
      end
  end.

End Service.

End Orchestrator.

(** ** The price repository and the price service

    [priceRepository] keeps a static price list, an optional fetcher of live
    prices and a cache of what the fetcher returned; [priceService] is a thin
    layer over it.  A [time.Time] is the number of nanoseconds it stands
    for, read once per call. *)

Module PriceRepo.

(** [domain.PriceInfo]. *)
Record PriceInfo : Type := {
  Provider : string;
  Template : string;
  Region : string;
  PricePerHour : float;
  PricePerMonth : float;
  Currency : string;
  Spec : string;
  UpdatedAt : string
}.

(** [domain.PriceRange]. *)
Record PriceRange : Type := {
  MinPerHour : float;
  MaxPerHour : float;
  MinPerMonth : float;
  MaxPerMonth : float
}.

(** [domain.PriceComparison]; [BestOption] is [nil] or points at an option. *)
Record PriceComparison : Type := {
  TemplateType : string;
  Options : list PriceInfo;
  BestOption : option PriceInfo;
  Range : PriceRange
}.

(** [cachedPrice]. *)
Record cachedPrice : Type := {
  price : PriceInfo;
  expires : Z
}.

(** The [PriceFetcher] interface: what the provider answers at a given
    time. *)
Record PriceFetcher : Type := {
  FetchPrice : Z -> string -> string -> string -> result PriceInfo;
  FetchPricesByType : Z -> string -> result (list PriceInfo)
}.

(** [priceRepository]. *)
Record priceRepository : Type := {
  prices : list PriceInfo;
  priceFetcher : option PriceFetcher;
  cache : gmap string cachedPrice;
  cacheExpiry : Z
}.

Definition with_cache (r : priceRepository) (c : gmap string cachedPrice)
  : priceRepository :=
  {| prices := prices r; priceFetcher := priceFetcher r; cache := c;
     cacheExpiry := cacheExpiry r |}.

(** [SetPriceFetcher]. *)
Definition SetPriceFetcher (r : priceRepository) (fetcher : PriceFetcher)
  : priceRepository :=
  {| prices := prices r; priceFetcher := Some fetcher; cache := cache r;
     cacheExpiry := cacheExpiry r |}.

(** [getDefaultPrices]. *)
Definition getDefaultPrices : list PriceInfo :=
  [ {| Provider := "aliyun"; Template := "ecs"; Region := "cn-beijing";
       PricePerHour := 0.08; PricePerMonth := 58.0; Currency := "CNY";
       Spec := "1核2G"; UpdatedAt := "2024-01-01" |};
    {| Provider := "aliyun"; Template := "ecs1c2g"; Region := "cn-beijing";
       PricePerHour := 0.16; PricePerMonth := 116.0; Currency := "CNY";
       Spec := "2核4G"; UpdatedAt := "2024-01-01" |};
    {| Provider := "aliyun"; Template := "aliyun-proxy";
       Region := "cn-beijing";
       PricePerHour := 0.05; PricePerMonth := 36.0; Currency := "CNY";
       Spec := "1核1G"; UpdatedAt := "2024-01-01" |};
    {| Provider := "tencent"; Template := "ecs"; Region := "ap-beijing";
       PricePerHour := 0.07; PricePerMonth := 51.0; Currency := "CNY";
       Spec := "1核2G"; UpdatedAt := "2024-01-01" |};
    {| Provider := "aws"; Template := "ec2"; Region := "us-east-1";
       PricePerHour := 0.0104; PricePerMonth := 7.5; Currency := "USD";
       Spec := "1核1G"; UpdatedAt := "2024-01-01" |};
    {| Provider := "aws"; Template := "ec2-1G"; Region := "us-east-1";
       PricePerHour := 0.0208; PricePerMonth := 15.0; Currency := "USD";
       Spec := "1核2G"; UpdatedAt := "2024-01-01" |};
    {| Provider := "vultr"; Template := "hk-vps"; Region := "hk";
       PricePerHour := 0.006; PricePerMonth := 4.5; Currency := "USD";
       Spec := "1核1G"; UpdatedAt := "2024-01-01" |} ].

(** [NewPriceRepository] when there is no readable [prices.json]. *)
Definition NewPriceRepository : priceRepository :=
  {| prices := getDefaultPrices; priceFetcher := None; cache := ∅;
     cacheExpiry := 3600 * 1000000000 |}.

(** [contains]: the loop [for i := 0; i <= len(s)-len(substr); i++] from
    [i], with [steps] iterations left. *)
Fixpoint containsFrom (s substr : string) (i steps : nat) : bool :=
  match steps with
  | O => false
  | S steps =>
      if String.eqb (substring i (String.length substr) s) substr then true
      else containsFrom s substr (S i) steps
  end.

Definition contains (s substr : string) : bool :=
  if (String.length s <? String.length substr)%nat then false
  else containsFrom s substr 0
         (String.length s - String.length substr + 1).

(** [matchesType]. *)
Definition typeMap : gmap string (list string) :=
  list_to_map
    [("ecs", ["ecs"; "ecs1c2g"]);
     ("proxy", ["aliyun-proxy"; "aws-proxy"]);
     ("ec2", ["ec2"; "ec2-1G"; "ec2-4G"]);
     ("vps", ["hk-vps"])].

Definition matchesType (template templateType : string) : bool :=
  match typeMap !! templateType with
  | Some types =>
      if existsb (fun t => String.eqb template t) types then true
      else contains template templateType
  | None => contains template templateType
  end.

(** [convertToCNY]. *)
Definition convertToCNY (amount : float) (currency : string) : float :=
  if String.eqb currency "CNY" then amount
  else if String.eqb currency "USD" then (amount * 7.2)%float
  else amount.

Definition cacheKey (provider template : string) : string :=
  provider +:+ "/" +:+ template.

(** [GetPrice], called at time [now]. *)
Definition GetPrice (now : Z) (r : priceRepository)
    (provider template : string) : result PriceInfo * priceRepository :=
  let key := cacheKey provider template in
  let hit :=
    match cache r !! key with
    | Some cached =>
        if (now <? expires cached)%Z then Some (price cached) else None
    | None => None
    end in
  match hit with
  | Some p => (Ok p, r)
  | None =>
      let fetched :=
        match priceFetcher r with
        | Some fetcher =>
            match FetchPrice fetcher now provider template "" with
            | Ok p => Some p
            | Err _ => None
            end
        | None => None
        end in
      match fetched with
      | Some p =>
          (Ok p,
           with_cache r
             (<[key := {| price := p;
                          expires := (now + cacheExpiry r)%Z |}]> (cache r)))
      | None =>
          match
            List.find (fun p => String.eqb (Provider p) provider &&
                                String.eqb (Template p) template)
                      (prices r)
          with
          | Some p => (Ok p, r)
          | None =>
              (Err ("未找到模板 " +:+ provider +:+ "/" +:+ template +:+
                    " 的价格信息"), r)
          end
      end
  end.

(** [ListPrices]. *)
Definition ListPrices (r : priceRepository) : result (list PriceInfo) :=
  Ok (prices r).

(** [GetPricesByType], called at time [now]; its error is always [nil]. *)
Definition GetPricesByType (now : Z) (r : priceRepository)
    (templateType : string) : result (list PriceInfo) * priceRepository :=
  let static :=
    List.filter (fun p => matchesType (Template p) templateType) (prices r) in
  match priceFetcher r with
  | Some fetcher =>
      match FetchPricesByType fetcher now templateType with
      | Ok (first :: others) =>
          let dynamicPrices := first :: others in
          (Ok dynamicPrices,
           with_cache r
             (fold_left
                (fun c p =>
                   <[cacheKey (Provider p) (Template p) :=
                       {| price := p;
                          expires := (now + cacheExpiry r)%Z |}]> c)
                dynamicPrices (cache r)))
      | Ok [] => (Ok static, r)
      | Err _ => (Ok static, r)
      end
  | None => (Ok static, r)
  end.

Section Compare.
Context {sorter : SliceSorter}.

(** The comparison [ComparePrices] sorts by. *)
Definition lessPerMonth (a b : PriceInfo) : bool :=
  PrimFloat.ltb (convertToCNY (PricePerMonth a) (Currency a))
                (convertToCNY (PricePerMonth b) (Currency b)).

(** One turn of the loop that computes the price range; [i] is the index. *)
Definition rangeTurn (acc : nat * PriceRange) (p : PriceInfo)
  : nat * PriceRange :=
  let i := fst acc in
  let rg := snd acc in
  let hourPrice := convertToCNY (PricePerHour p) (Currency p) in
  let monthPrice := convertToCNY (PricePerMonth p) (Currency p) in
  if (i =? 0)%nat then
    (S i, {| MinPerHour := hourPrice; MaxPerHour := hourPrice;
             MinPerMonth := monthPrice; MaxPerMonth := monthPrice |})
  else
    (S i,
     {| MinPerHour :=
          if PrimFloat.ltb hourPrice (MinPerHour rg) then hourPrice
          else MinPerHour rg;
        MaxPerHour :=
          if PrimFloat.ltb (MaxPerHour rg) hourPrice then hourPrice
          else MaxPerHour rg;
        MinPerMonth :=
          if PrimFloat.ltb monthPrice (MinPerMonth rg) then monthPrice
          else MinPerMonth rg;
        MaxPerMonth :=
          if PrimFloat.ltb (MaxPerMonth rg) monthPrice then monthPrice
          else MaxPerMonth rg |}).

(** [ComparePrices]. *)
Definition ComparePrices (now : Z) (r : priceRepository)
    (templateType : string) : result PriceComparison * priceRepository :=
  let '(found, r) := GetPricesByType now r templateType in
  match found with
  | Err msg => (Err msg, r)
  | Ok [] =>
      (Err ("未找到类型为 " +:+ templateType +:+ " 的模板价格信息"), r)
  | Ok (first :: others) =>
      let priceInfos := sort_Slice lessPerMonth (first :: others) in
      let zero :=
        {| MinPerHour := 0; MaxPerHour := 0; MinPerMonth := 0;
           MaxPerMonth := 0 |} in
      let rg := snd (fold_left rangeTurn priceInfos (O, zero)) in
      (Ok {| TemplateType := templateType;
             Options := priceInfos;
             BestOption := head priceInfos;
             Range := rg |}, r)
  end.

(** [priceService.GetBestOption]. *)
Definition GetBestOption (now : Z) (r : priceRepository)
    (templateType : string) : result PriceInfo * priceRepository :=
  let '(compared, r) := ComparePrices now r templateType in
  match compared with
  | Err msg => (Err msg, r)
  | Ok comparison =>
      match BestOption comparison with
      | None => (Err ("未找到类型为 " +:+ templateType +:+ " 的最优方案"), r)
      | Some best => (Ok best, r)
      end
  end.

End Compare.

End PriceRepo.

(** ** The rest of the price optimizer

    [aliyunPriceOptimizer.FindCheapestInstance] and the two other methods of
    [priceOptimizerService]. *)

Module Cheapest.
Import Pricing.

Section Optimizer.
Variable describePrice : string -> string -> ApiReply.
Context {sorter : SliceSorter} {scheduler : Scheduler}.

(** [FindCheapestInstance]: one goroutine per region, the results read from
    the channel in the order they arrive. *)
Definition FindCheapestInstance (o : aliyunPriceOptimizer)
    (instanceType : string) (regions : list string)
  : result OptimalInstanceConfig :=
  let regions :=
    match regions with
    | [] => ["cn-beijing"; "cn-shanghai"; "cn-hangzhou"; "cn-shenzhen";
             "cn-hongkong"; "ap-southeast-1"; "us-east-1"]
    | _ => regions
    end in
  let results :=
    arrival
      (map (fun r => GetPriceForInstance describePrice o instanceType r)
           regions) in
  let prices :=
    flat_map (fun res => match res with Ok p => [p] | Err _ => [] end)
             results in
  match prices with
  | [] => Err "无法获取任何区域的价格信息"
  | first :: _ =>
      (* [prices[0]] after the sort in place *)
      let cheapest := List.hd first (sort_Slice less_price prices) in
      Ok (to_config cheapest)
  end.

(** [ApplyOptimalConfig]; [optimal] may be [nil]. *)
Definition ApplyOptimalConfig (optimal : option OptimalInstanceConfig)
  : gmap string string :=
  let vars : gmap string string := ∅ in
  match optimal with
  | Some optimal =>
      let vars := <["region" := opt_Region optimal]> vars in
      <["instance_type" := opt_InstanceType optimal]> vars
  | None => vars
  end.

(** [ListRegionPrices]. *)
Definition ListRegionPrices (s : priceOptimizerService)
    (provider template : string) (instanceTypes regions : list string)
  : result (list InstancePrice) :=
  if negb (String.eqb provider "aliyun")
  then Err "当前仅支持阿里云价格优化"
  else
    match optimizer s with
    | None => Err "价格优化器未初始化"
    | Some o =>
        let instanceTypes :=
          match instanceTypes with
          | [] => ["ecs.t5-lc1m1.small"; "ecs.t5-lc1m2.small"]
          | _ => instanceTypes
          end in
        match ComparePrices describePrice o instanceTypes regions with
        | Err msg => Err ("查询价格失败: " +:+ msg)
        | Ok prices =>
            match prices with
            | [] => Err "未找到任何价格信息"
            | _ => Ok prices
            end
        end
    end.

End Optimizer.

End Cheapest.

(** ** The credential file

    What [credentialManager] does beyond lookups: [load], [save],
    [SetCredentials], [RemoveCredentials] and [ListProviders].  An ini file
    is a table of sections, each a table of keys: [ini.Load] and
    [File.SaveTo] are taken to read and write that table faithfully, and
    [Section] and [Key] to yield an empty section and an empty value for
    what is absent. *)

Module CredentialStore.
Import Credentials.

(** [cfg.Section(section).Key(key).String()]. *)
Definition iniValue (cfg : gmap string (gmap string string))
    (section key : string) : string :=
  default "" (default ∅ (cfg !! section) !! key).

(** [cfg.Section(section).Key(key).SetValue(value)]. *)
Definition iniSet (cfg : gmap string (gmap string string))
    (section key value : string) : gmap string (gmap string string) :=
  <[section := <[key := value]> (default ∅ (cfg !! section))]> cfg.

(** A file as [ini.Load] finds it. *)
Inductive FileContent : Type :=
| Unparsable
| Parsed (cfg : gmap string (gmap string string)).

(** The file system the manager works on: the files by path, and the
    errors [os.MkdirAll] and [File.SaveTo] end with, if they fail. *)
Record Disk : Type := {
  files : gmap string FileContent;
  mkdirError : option string;
  saveError : option string
}.

(** [credentialManager] with its [configPath]. *)
Record Store : Type := {
  configPath : string;
  manager : credentialManager
}.

#[global] Instance Provider_eq_dec : EqDecision Provider.
Proof. solve_decision. Defined.

Definition allProviders : list Provider :=
  [ProviderAliyun; ProviderTencent; ProviderHuaweicloud; ProviderAWS;
   ProviderVultr].

Definition with_creds (m : credentialManager)
    (table : Provider -> option Credentials) : credentialManager :=
  {| creds := table; environ := environ m |}.

(** [m.creds[provider] = c]. *)
Definition setEntry (m : credentialManager) (provider : Provider)
    (c : Credentials) : credentialManager :=
  with_creds m
    (fun p => if decide (p = provider) then Some c else creds m p).

(** [delete(m.creds, provider)]. *)
Definition deleteEntry (m : credentialManager) (provider : Provider)
  : credentialManager :=
  with_creds m (fun p => if decide (p = provider) then None else creds m p).

(** The table of [loadFromEnv]. *)
Definition envNames (p : Provider) : string * string * string :=
  match p with
  | ProviderAliyun =>
      ("ALICLOUD_ACCESS_KEY", "ALICLOUD_SECRET_KEY", "ALICLOUD_REGION")
  | ProviderTencent =>
      ("TENCENTCLOUD_SECRET_ID", "TENCENTCLOUD_SECRET_KEY",
       "TENCENTCLOUD_REGION")
  | ProviderHuaweicloud =>
      ("HUAWEICLOUD_ACCESS_KEY", "HUAWEICLOUD_SECRET_KEY",
       "HUAWEICLOUD_REGION")
  | ProviderAWS => ("AWS_ACCESS_KEY_ID", "AWS_SECRET_ACCESS_KEY", "AWS_REGION")
  | ProviderVultr => ("VULTR_API_KEY", "VULTR_API_KEY", "VULTR_REGION")
  end.

(** [loadFromEnv]. *)
Definition loadFromEnv (m : credentialManager) : credentialManager :=
  fold_left
    (fun m p =>
       let '(envAK, envSK, envRegion) := envNames p in
       let accessKey := Getenv (environ m) envAK in
       let secretKey := Getenv (environ m) envSK in
       let region := Getenv (environ m) envRegion in
       if nonempty accessKey && nonempty secretKey
       then setEntry m p {| AccessKey := accessKey; SecretKey := secretKey;
                            Region := region |}
       else m)
    allProviders m.

Definition is_Tencent (p : Provider) : bool :=
  match p with ProviderTencent => true | _ => false end.

(** The loop of [load] over the providers, for a file that parsed. *)
Definition loadFromFile (cfg : gmap string (gmap string string))
    (m : credentialManager) : credentialManager :=
  fold_left
    (fun m provider =>
       let sectionName := Provider_String provider in
       let accessKey :=
         if is_Tencent provider then
           let accessKey := iniValue cfg sectionName "secret_id" in
           if nonempty accessKey then accessKey
           else iniValue cfg sectionName "access_key"
         else iniValue cfg sectionName "access_key" in
       let secretKey := iniValue cfg sectionName "secret_key" in
       let region := iniValue cfg sectionName "region" in
       let accessKey :=
         if nonempty accessKey then accessKey
         else getEnvAccessKey m provider in
       let secretKey :=
         if nonempty secretKey then secretKey
         else getEnvSecretKey m provider in
       let region :=
         if nonempty region then region else getEnvRegion m provider in
       if nonempty accessKey && nonempty secretKey
       then setEntry m provider
              {| AccessKey := accessKey; SecretKey := secretKey;
                 Region := region |}
       else m)
    allProviders m.

(** [load]; its error is always [nil]. *)
Definition load (disk : Disk) (s : Store) : Store :=
  if negb (nonempty (configPath s))
  then {| configPath := configPath s; manager := loadFromEnv (manager s) |}
  else
    match files disk !! configPath s with
    | None =>
        {| configPath := configPath s; manager := loadFromEnv (manager s) |}
    | Some Unparsable =>
        {| configPath := configPath s; manager := loadFromEnv (manager s) |}
    | Some (Parsed cfg) =>
        {| configPath := configPath s;
           manager := loadFromFile cfg (manager s) |}
    end.

(** [NewCredentialManager], in a process whose environment is [env]. *)
Definition NewCredentialManager (env : gmap string string) (disk : Disk)
    (path : string) : Store :=
  load disk
    {| configPath := path;
       manager := {| creds := fun _ => None; environ := env |} |}.

Section Save.
(** [filepath.Dir]. *)
Variable Dir : string -> string.

(** The loop of [save] over [m.creds].  The turns for different providers
    write different sections, so the order of the [range] does not show;
    the order of the table is taken. *)
Definition writeSections (m : credentialManager)
    (cfg : gmap string (gmap string string))
  : gmap string (gmap string string) :=
  fold_left
    (fun cfg provider =>
       match creds m provider with
       | None => cfg
       | Some c =>
           let sectionName := Provider_String provider in
           let cfg :=
             if is_Tencent provider
             then iniSet cfg sectionName "secret_id" (AccessKey c)
             else iniSet cfg sectionName "access_key" (AccessKey c) in
           let cfg := iniSet cfg sectionName "secret_key" (SecretKey c) in
           if nonempty (Region c)
           then iniSet cfg sectionName "region" (Region c)
           else cfg
       end)
    allProviders cfg.

(** [save]. *)
Definition save (s : Store) (disk : Disk) : option string * Store * Disk :=
  let s :=
    if negb (nonempty (configPath s))
    then {| configPath := ".redc.ini"; manager := manager s |}
    else s in
  let dir := Dir (configPath s) in
  let made :=
    if negb (String.eqb dir ".") && nonempty dir then mkdirError disk
    else None in
  match made with
  | Some msg => (Some ("创建配置目录失败: " +:+ msg), s, disk)
  | None =>
      let cfg : gmap string (gmap string string) :=
        match files disk !! configPath s with
        | Some (Parsed loaded) => loaded
        | Some Unparsable => ∅
        | None => ∅
        end in
      let cfg := writeSections (manager s) cfg in
      match saveError disk with
      | Some msg => (Some msg, s, disk)
      | None =>
          (None, s,
           {| files := <[configPath s := Parsed cfg]> (files disk);
              mkdirError := mkdirError disk;
              saveError := saveError disk |})
      end
  end.

(** [SetCredentials]. *)
Definition SetCredentials (s : Store) (disk : Disk) (provider : Provider)
    (c : Credentials) : option string * Store * Disk :=
  let s :=
    {| configPath := configPath s;
       manager := setEntry (manager s) provider c |} in
  let s :=
    if negb (nonempty (configPath s))
    then {| configPath := ".redc.ini"; manager := manager s |}
    else s in
  save s disk.

(** [RemoveCredentials]. *)
Definition RemoveCredentials (s : Store) (disk : Disk) (provider : Provider)
  : option string * Store * Disk :=
  let s :=
    {| configPath := configPath s;
       manager := deleteEntry (manager s) provider |} in
  let s :=
    if negb (nonempty (configPath s))
    then {| configPath := ".redc.ini"; manager := manager s |}
    else s in
  save s disk.

End Save.

(** [hasProvider]. *)
Definition hasProvider (list : list Provider) (provider : Provider) : bool :=
  existsb (fun p => bool_decide (p = provider)) list.

(** [ListProviders]; [visited] is the order in which [range m.creds] visits
    the providers, of which the loop sees those that have an entry. *)
Definition ListProviders (visited : list Provider) (m : credentialManager)
  : list Provider :=
  let providers :=
    List.filter
      (fun p => match creds m p with Some _ => true | None => false end)
      visited in
  fold_left
    (fun providers provider =>
       if negb (hasProvider providers provider) then
         if HasCredentials m provider then (providers ++ [provider])%list
         else providers
       else providers)
    allProviders providers.

End CredentialStore.

(** ** The project service: projects and scenarios

    The other methods of [projectService], over the same world: create,
    list and delete.  Project names and scenario identifiers are single
    path components, as everywhere in the repository model. *)

Module ProjectOps.
Import Credentials Probe Terraform Domain Orchestrator.

(** How a call that may dereference a [nil] project ends. *)
Inductive Creation : Type :=
| Created (scenario : Scenario)
| Refused (msg : string)
| Crashed (msg : string).

(** Whether [k] is [path] or lies below it. *)
Definition under (path k : string) : bool :=
  String.eqb k path || String.prefix (path +:+ "/") k.

(** [os.RemoveAll(path)] on the scenario directories. *)
Definition removeAll (path : string) (dirs : gmap string Scenario)
  : gmap string Scenario :=
  filter (fun kv : string * Scenario => under path (fst kv) = false) dirs.

(** The name of the entry of [dir] that a scenario directory [k] is, if it
    is one. *)
Definition entryName (dir k : string) : option string :=
  if String.prefix (dir +:+ "/") k then
    let name :=
      substring (String.length dir + 1)
                (String.length k - String.length dir - 1) k in
    if Contains name "/" || String.eqb name "" then None else Some name
  else None.

(** [os.ReadDir(dir)], sorted by file name, as far as [ListScenarios] sees
    it: an entry that is a file or a directory without metadata is skipped
    there, because [GetScenario] fails on it. *)
Definition readDir (dir : string) (w : World) : list string :=
  Insertion.sort String.ltb
    (omap (fun kv : string * Scenario => entryName dir (fst kv))
          (map_to_list (scenarios w))).

Section Service.
Variable ProjectDir : string.
Variable terraformSvc : Engine.
Variable copyTemplate : string -> string -> string -> option string.
(** The error of [s.templateRepo.GetTemplate(provider, name)]. *)
Variable getTemplate : string -> string -> option string.
(** [s.dynamicTemplateSvc], [None] when it is [nil]: the error of
    [GenerateAndSaveTemplate(scenarioType, provider, region, instanceType,
    destPath)]. *)
Variable dynamicTemplateSvc :
  option (string -> string -> string -> string -> string -> option string).

(** [projectRepository.CreateProject]. *)
Definition repoCreateProject (name : string) : M (result Project) :=
  fun w =>
    if decide (name ∈ projects w)
    then (Err ("项目 " +:+ name +:+ " 已存在"), w)
    else
      (Ok {| proj_Name := name; proj_Path := joinPath ProjectDir name |},
       {| trace := trace w; projects := {[name]} ∪ projects w;
          scenarios := scenarios w |}).

(** [projectService.CreateProject]. *)
Definition CreateProject (name : string) : M (result Project) :=
  if String.eqb name "" then ret (Err "项目名称不能为空")
  else repoCreateProject name.

(** The loop of [ListScenarios] over the entries. *)
Fixpoint listEntries (projectName : string) (entries : list string)
    (listed : list Scenario) : M (list Scenario) :=
  match entries with
  | [] => ret listed
  | name :: rest =>
      if String.eqb name ".git" then listEntries projectName rest listed
      else
        do found <- GetScenario ProjectDir projectName name;
        match found with
        | Err _ => listEntries projectName rest listed
        | Ok scenario =>
            listEntries projectName rest (listed ++ [scenario])%list
        end
  end.

(** [ListScenarios]. *)
Definition ListScenarios (projectName : string) : M (result (list Scenario)) :=
  do p <- GetProject ProjectDir projectName;
  match p with
  | Err msg => ret (Err msg)
  | Ok project =>
      do listed <-
        (fun w => listEntries projectName (readDir (proj_Path project) w) []
                    w);
      ret (Ok listed)
  end.

(** [projectRepository.DeleteProject]. *)
Definition repoDeleteProject (name : string) : M (option string) :=
  fun w =>
    if decide (name ∈ projects w)
    then
      (None,
       {| trace := trace w; projects := projects w ∖ {[name]};
          scenarios := removeAll (joinPath ProjectDir name) (scenarios w) |})
    else (Some ("项目 " +:+ name +:+ " 不存在"), w).

(** [projectService.DeleteProject]. *)
Definition DeleteProject (name : string) : M (option string) :=
  do p <- GetProject ProjectDir name;
  match p with
  | Err msg => ret (Some msg)
  | Ok _ =>
      do listed <- ListScenarios name;
      let deployed :=
        match listed with
        | Ok scenarios =>
            List.find (fun sc => String.eqb (Status sc) "deployed") scenarios
        | Err _ => None
        end in
      match deployed with
      | Some scenario =>
          ret (Some ("项目 " +:+ name +:+ " 包含已部署的场景 " +:+
                     ID scenario +:+ "，请先销毁场景"))
      | None => repoDeleteProject name
      end
  end.

(** [projectRepository.DeleteScenario]. *)
Definition repoDeleteScenario (projectName scenarioID : string)
  : M (option string) :=
  do p <- GetProject ProjectDir projectName;
  match p with
  | Err msg => ret (Some msg)
  | Ok project =>
      fun w =>
        let scenarioPath := joinPath (proj_Path project) scenarioID in
        match scenarios w !! scenarioPath with
        | None => (Some ("场景 " +:+ scenarioID +:+ " 不存在"), w)
        | Some _ =>
            (None, with_scenarios w (removeAll scenarioPath (scenarios w)))
        end
  end.

(** [projectService.DeleteScenario]. *)
Definition DeleteScenario (projectName scenarioID : string)
  : M (option string) :=
  do found <- GetScenario ProjectDir projectName scenarioID;
  match found with
  | Err msg => ret (Some msg)
  | Ok scenario =>
      if String.eqb (Status scenario) "deployed"
      then ret (Some ("场景 " +:+ scenarioID +:+ " 已部署，请先销毁场景"))
      else repoDeleteScenario projectName scenarioID
  end.

(** The region table of [CreateScenarioWithOptions]. *)
Definition createRegionMap : gmap string string :=
  list_to_map
    [("bj", "aliyun-proxy/zone-node/ss-libev-node-bj");
     ("sh", "aliyun-proxy/zone-node/ss-libev-node-sh");
     ("hhht", "aliyun-proxy/zone-node/ss-libev-node-hhht");
     ("wlcb", "aliyun-proxy/zone-node/ss-libev-node-wlcb");
     ("zjk", "aliyun-proxy/zone-node/ss-libev-node-zjk")].

(** The tail of [CreateScenarioWithOptions]: [AddScenario] and the
    result. *)
Definition saveCreated (projectName : string) (scenario : Scenario)
  : M Creation :=
  do added <- AddScenario ProjectDir projectName scenario;
  match fst added with
  | Some msg => ret (Refused ("保存场景失败: " +:+ msg))
  | None => ret (Created (snd added))
  end.

(** [CreateScenarioWithOptions]; [fresh] is what [uuid.New().String()]
    yields. *)
Definition CreateScenarioWithOptions
    (projectName provider templateName region instanceType scenarioType
       fresh : string) : M Creation :=
  do p <- GetProject ProjectDir projectName;
  match p with
  | Err msg => ret (Refused ("项目不存在: " +:+ msg))
  | Ok _ =>
  let useDynamicTemplate :=
    nonempty scenarioType &&
    (String.eqb scenarioType "proxy" ||
     String.eqb scenarioType "task-executor") in
  if useDynamicTemplate then
    match dynamicTemplateSvc with
    | None => ret (Refused "动态模板服务未初始化，请配置云服务商凭据")
    | Some generate =>
        let scenarioID := fresh in
        let scenario :=
          {| ID := scenarioID;
             Name := provider +:+ "-" +:+ scenarioType +:+ "-" +:+ region;
             Template := provider +:+ "/" +:+ scenarioType +:+ "-dynamic";
             Path := "";
             Status := "pending" |} in
        do p <- GetProject ProjectDir projectName;
        match p with
        | Err _ =>
            ret (Crashed "invalid memory address or nil pointer dereference")
        | Ok project =>
            let scenarioPath := proj_Path project +:+ "/" +:+ scenarioID in
            match generate scenarioType provider region instanceType
                    scenarioPath with
            | Some msg => ret (Refused ("生成动态模板失败: " +:+ msg))
            | None => saveCreated projectName scenario
            end
        end
    end
  else
    let actualProvider := provider in
    let proxy :=
      String.eqb provider "aliyun" && String.eqb templateName "aliyun-proxy" in
    let chosen : result string :=
      if proxy then
        if String.eqb region ""
        then Err "aliyun-proxy 模板必须指定区域，支持的区域: bj, sh, hhht, wlcb, zjk"
        else
          match createRegionMap !! region with
          | None =>
              Err ("无效的区域: " +:+ region +:+
                   "，支持的区域: bj, sh, hhht, wlcb, zjk")
          | Some templatePath => Ok templatePath
          end
      else Ok templateName in
    match chosen with
    | Err msg => ret (Refused msg)
    | Ok actualTemplateName =>
        match getTemplate actualProvider actualTemplateName with
        | Some msg => ret (Refused ("模板不存在: " +:+ msg))
        | None =>
            let scenarioID := fresh in
            let scenario :=
              {| ID := scenarioID;
                 Name :=
                   if proxy && nonempty region
                   then provider +:+ "-" +:+ templateName +:+ "-" +:+ region
                   else provider +:+ "-" +:+ templateName;
                 Template := actualProvider +:+ "/" +:+ actualTemplateName;
                 Path := "";
                 Status := "pending" |} in
            do p <- GetProject ProjectDir projectName;
            match p with
            | Err _ =>
                ret (Crashed
                       "invalid memory address or nil pointer dereference")
            | Ok project =>
                let scenarioPath :=
                  proj_Path project +:+ "/" +:+ scenarioID in
                do err <- CopyTemplate copyTemplate actualProvider
                            actualTemplateName scenarioPath;
                match err with
                | Some msg => ret (Refused ("复制模板失败: " +:+ msg))
                | None => saveCreated projectName scenario
                end
            end
        end
    end
  end.

(** [CreateScenario]. *)
Definition CreateScenario
    (projectName provider templateName region fresh : string) : M Creation :=
  CreateScenarioWithOptions projectName provider templateName region "" ""
    fresh.

(** The loop of [InitProject] over the scenarios. *)
Fixpoint initScenarios (project : Project) (listed : list Scenario)
  : M (option string) :=
  match listed with
  | [] => ret None
  | sc :: rest =>
      if String.eqb (Path sc) "" then initScenarios project rest
      else
        do err <- engine terraformSvc (CallInit (Path sc));
        match err with
        | Some msg =>
            ret (Some ("初始化场景 " +:+ ID sc +:+ " (项目 " +:+
                       proj_Name project +:+ ") 失败: " +:+ msg))
        | None => initScenarios project rest
        end
  end.

(** [InitProject]. *)
Definition InitProject (name : string) : M (option string) :=
  do p <- GetProject ProjectDir name;
  match p with
  | Err msg => ret (wrap "项目不存在: " msg)
  | Ok project =>
      do listed <- ListScenarios name;
      match listed with
      | Err msg => ret (wrap "获取场景列表失败: " msg)
      | Ok scenarios =>
          match scenarios with
          | [] => ret None
          | _ => initScenarios project scenarios
          end
      end
  end.

End Service.

End ProjectOps.

(** * Properties *)

Local Open Scope list_scope.

(** ** Comparison of binary64 values

    [PrimFloat.ltb] is Go's [<] on [float64].  Away from NaN it is a strict
    weak ordering; the proofs go through the comparison's specification on
    [spec_float]. *)

Module FloatOrder.

Ltac cmp_cases :=
  repeat match goal with
  | H : context [Z.compare ?a ?b] |- _ =>
      destruct (Z.compare_spec a b); try subst
  | |- context [Z.compare ?a ?b] =>
      destruct (Z.compare_spec a b); try subst
  | H : context [Pos.compare_cont Eq ?a ?b] |- _ =>
      change (Pos.compare_cont Eq a b) with (Pos.compare a b) in H
  | |- context [Pos.compare_cont Eq ?a ?b] =>
      change (Pos.compare_cont Eq a b) with (Pos.compare a b)
  | H : context [Pos.compare ?a ?b] |- _ =>
      destruct (Pos.compare_spec a b); try subst
  | |- context [Pos.compare ?a ?b] =>
      destruct (Pos.compare_spec a b); try subst
  end.

Ltac by_float_cases x y z :=
  unfold SFltb;
  destruct x as [[]|[]| |[] ? ?], y as [[]|[]| |[] ? ?],
           z as [[]|[]| |[] ? ?];
  simpl; try congruence; cmp_cases; simpl in *; try congruence; try lia.

Lemma SFltb_irrefl x : SFltb x x = false.
Proof.
  unfold SFltb. destruct x as [s|s| |s m e]; simpl; try destruct s; auto;
    rewrite Z.compare_refl;
    change (Pos.compare_cont Eq m m) with (Pos.compare m m);
    rewrite Pos.compare_refl; reflexivity.
Qed.

Lemma SFltb_trans x y z :
  SFltb x y = true -> SFltb y z = true -> SFltb x z = true.
Proof. by_float_cases x y z. Qed.

Lemma SFltb_negtrans x y z :
  y <> S754_nan ->
  SFltb x y = false -> SFltb y z = false -> SFltb x z = false.
Proof. by_float_cases x y z. Qed.

(** Go's [p == p]: false exactly for NaN. *)
Definition not_nan (p : float) : Prop := PrimFloat.eqb p p = true.

Lemma not_nan_spec p : not_nan p -> Prim2SF p <> S754_nan.
Proof.
  unfold not_nan. rewrite FloatAxioms.eqb_spec. intros Hp E.
  rewrite E in Hp. discriminate.
Qed.

Lemma ltb_irrefl p : PrimFloat.ltb p p = false.
Proof. rewrite FloatAxioms.ltb_spec. apply SFltb_irrefl. Qed.

Lemma ltb_trans a b c :
  PrimFloat.ltb a b = true -> PrimFloat.ltb b c = true ->
  PrimFloat.ltb a c = true.
Proof. rewrite !FloatAxioms.ltb_spec. apply SFltb_trans. Qed.

Lemma ltb_negtrans a b c :
  not_nan b ->
  PrimFloat.ltb a b = false -> PrimFloat.ltb b c = false ->
  PrimFloat.ltb a c = false.
Proof.
  intros Hb. rewrite !FloatAxioms.ltb_spec. apply SFltb_negtrans.
  now apply not_nan_spec.
Qed.

End FloatOrder.

(** ** Sorting *)

Module SortFacts.

Section Facts.
Context {A : Type} (less : A -> A -> bool).

Lemma strict_weak_incl (x y : list A) :
  incl y x -> strict_weak less x -> strict_weak less y.
Proof.
  intros Hincl [Hi Ht Hn]. split.
  - intros a Ha. apply Hi. now apply Hincl.
  - intros a b c Ha Hb Hc. apply Ht; now apply Hincl.
  - intros a b c Ha Hb Hc. apply Hn; now apply Hincl.
Qed.

Lemma strict_weak_asym (x : list A) a b :
  strict_weak less x -> In a x -> In b x ->
  less a b = true -> less b a = false.
Proof.
  intros [Hi Ht _] Ha Hb Hab.
  destruct (less b a) eqn:Hba; [|reflexivity].
  rewrite <- (Hi a Ha). symmetry. now apply (Ht a b a).
Qed.

(** In an ascending list nothing is below the head. *)
Lemma ascending_head_least (x : list A) :
  strict_weak less x ->
  forall h t, ascending less (h :: t) -> incl (h :: t) x ->
  forall y, In y t -> less y h = false.
Proof.
  intros Hsw h t. revert h.
  induction t as [|c t IH]; intros h Hasc Hincl y Hy; [destruct Hy|].
  apply Sorted_inv in Hasc as [Hasc Hhd].
  apply HdRel_inv in Hhd.
  destruct Hy as [<-|Hy]; [exact Hhd|].
  assert (Hyc : less y c = false).
  { apply (IH c Hasc); [|exact Hy].
    intros z Hz. apply Hincl. now right. }
  destruct Hsw as [_ _ Hn].
  apply (Hn y c h); auto.
  - apply Hincl. right. now right.
  - apply Hincl. right. now left.
  - apply Hincl. now left.
Qed.

Lemma insert_Permutation a (x : list A) :
  Permutation (Insertion.insert less a x) (a :: x).
Proof.
  induction x as [|b x IH]; simpl; [reflexivity|].
  destruct (less a b); [reflexivity|].
  rewrite IH. apply perm_swap.
Qed.

Lemma fold_insert_Permutation (x sorted : list A) :
  Permutation (fold_left (fun sorted a => Insertion.insert less a sorted)
                 x sorted)
              (sorted ++ x).
Proof.
  revert sorted. induction x as [|a x IH]; intros sorted; simpl.
  - now rewrite app_nil_r.
  - rewrite IH, insert_Permutation. simpl.
    apply Permutation_middle.
Qed.

Lemma sort_Permutation (x : list A) : Permutation (Insertion.sort less x) x.
Proof. unfold Insertion.sort. now rewrite fold_insert_Permutation. Qed.

Lemma insert_HdRel a b (x : list A) :
  less a b = false ->
  HdRel (fun u v => less v u = false) b x ->
  HdRel (fun u v => less v u = false) b (Insertion.insert less a x).
Proof.
  intros Hab Hhd. destruct x as [|c x]; simpl.
  - now constructor.
  - destruct (less a c); constructor; auto.
    now apply HdRel_inv in Hhd.
Qed.

Lemma insert_ascending (u : list A) a (x : list A) :
  strict_weak less u -> incl (a :: x) u ->
  ascending less x -> ascending less (Insertion.insert less a x).
Proof.
  intros Hsw. induction x as [|b x IH]; intros Hincl Hasc; simpl.
  - repeat constructor.
  - destruct (less a b) eqn:Hab.
    + constructor; [exact Hasc|]. constructor.
      apply (strict_weak_asym u); auto.
      * apply Hincl. now left.
      * apply Hincl. right. now left.
    + apply Sorted_inv in Hasc as [Hasc Hhd].
      constructor.
      * apply IH; [|exact Hasc].
        intros z [<-|Hz]; apply Hincl; [now left|right; now right].
      * now apply insert_HdRel.
Qed.

Lemma fold_insert_ascending (u x sorted : list A) :
  strict_weak less u -> incl (sorted ++ x) u -> ascending less sorted ->
  ascending less
    (fold_left (fun sorted a => Insertion.insert less a sorted) x sorted).
Proof.
  intros Hsw. revert sorted.
  induction x as [|a x IH]; intros sorted Hincl Hasc; simpl; [exact Hasc|].
  apply IH.
  - intros z Hz. apply Hincl. apply in_app_iff in Hz as [Hz|Hz].
    + apply (Permutation_in _ (insert_Permutation a sorted)) in Hz.
      apply in_app_iff. destruct Hz as [<-|Hz]; [right; now left|now left].
    + apply in_app_iff. right. now right.
  - apply (insert_ascending u); auto.
    intros z [<-|Hz]; apply Hincl; apply in_app_iff;
      [right; now left|now left].
Qed.

Lemma sort_ascending (x : list A) :
  strict_weak less x -> ascending less (Insertion.sort less x).
Proof.
  intros Hsw. apply (fold_insert_ascending x); auto.
  - apply incl_refl.
  - constructor.
Qed.

End Facts.

(** Insertion sort meets the contract of [sort.Slice]. *)
Definition insertion_sorter : SliceSorter :=
  {| sort_Slice := @Insertion.sort;
     sort_Slice_Permutation := @sort_Permutation;
     sort_Slice_ascending := @sort_ascending |}.

End SortFacts.

(** ** The price optimizer *)

Module PricingFacts.
Import Pricing FloatOrder SortFacts.

(** The hourly price [GetPriceForInstance] reads off a decoded response. *)
Definition selectedPrice (resp : PriceFields) : float :=
  if is_zero (TradePrice resp) then
    if is_zero (OriginalPrice resp) then DiscountPrice resp
    else OriginalPrice resp
  else TradePrice resp.

Definition all_zero (resp : PriceFields) : bool :=
  is_zero (TradePrice resp) && is_zero (OriginalPrice resp) &&
  is_zero (DiscountPrice resp).

(** The candidate lists after the substitution of the defaults. *)
Definition effectiveTypes (instanceTypes : list string) : list string :=
  match instanceTypes with
  | [] => ["ecs.t5-lc1m1.small"; "ecs.t5-lc1m2.small"]
  | _ => instanceTypes
  end.

Definition effectiveRegions (regions : list string) : list string :=
  match regions with
  | [] => ["cn-beijing"; "cn-shanghai"; "cn-hangzhou"; "cn-shenzhen";
           "cn-hongkong"; "ap-southeast-1"]
  | _ => regions
  end.

(** Decoded prices are numbers: [encoding/json] yields no NaN. *)
Definition decodes_numbers (describePrice : string -> string -> ApiReply)
  : Prop :=
  forall instanceType region resp,
    describePrice instanceType region = ApiPrice resp ->
    not_nan (TradePrice resp) /\ not_nan (OriginalPrice resp) /\
    not_nan (DiscountPrice resp).

Section Facts.
Variable describePrice : string -> string -> ApiReply.
Context {sorter : SliceSorter}.

Lemma GetPriceForInstance_decoded o instanceType region resp :
  callAliyunAPI describePrice o instanceType region = ApiPrice resp ->
  GetPriceForInstance describePrice o instanceType region =
    if is_zero (selectedPrice resp) then Err "无法获取有效价格"
    else Ok {| InstanceType := instanceType;
               Region := region;
               PricePerHour := selectedPrice resp;
               PricePerMonth := (selectedPrice resp * 24 * 30)%float;
               Currency := "CNY" |}.
Proof.
  intros Hcall. unfold GetPriceForInstance, selectedPrice. rewrite Hcall.
  destruct (is_zero (TradePrice resp)) eqn:Ht; cbn zeta.
  - destruct (is_zero (OriginalPrice resp)) eqn:Ho; [reflexivity|].
    rewrite Ho. reflexivity.
  - rewrite Ht. rewrite Ht. reflexivity.
Qed.

Lemma selectedPrice_zero resp :
  is_zero (selectedPrice resp) = all_zero resp.
Proof.
  unfold selectedPrice, all_zero.
  destruct (is_zero (TradePrice resp)) eqn:Ht; simpl.
  - destruct (is_zero (OriginalPrice resp)) eqn:Ho; simpl; auto.
  - exact Ht.
Qed.

Lemma GetPriceForInstance_Ok o instanceType region q :
  GetPriceForInstance describePrice o instanceType region = Ok q ->
  exists resp,
    callAliyunAPI describePrice o instanceType region = ApiPrice resp /\
    is_zero (selectedPrice resp) = false /\
    q = {| InstanceType := instanceType;
           Region := region;
           PricePerHour := selectedPrice resp;
           PricePerMonth := (selectedPrice resp * 24 * 30)%float;
           Currency := "CNY" |}.
Proof.
  intros Hq.
  destruct (callAliyunAPI describePrice o instanceType region) as [m|m|resp]
    eqn:Hcall.
  - unfold GetPriceForInstance in Hq. rewrite Hcall in Hq. discriminate.
  - unfold GetPriceForInstance in Hq. rewrite Hcall in Hq. discriminate.
  - rewrite (GetPriceForInstance_decoded _ _ _ _ Hcall) in Hq.
    exists resp. split; [reflexivity|].
    destruct (is_zero (selectedPrice resp)); [discriminate|].
    split; [reflexivity|]. now inversion Hq.
Qed.

Lemma selectedPrice_not_nan resp :
  not_nan (TradePrice resp) -> not_nan (OriginalPrice resp) ->
  not_nan (DiscountPrice resp) -> not_nan (selectedPrice resp).
Proof.
  intros Ht Ho Hd. unfold selectedPrice.
  destruct (is_zero (TradePrice resp)); [|exact Ht].
  destruct (is_zero (OriginalPrice resp)); assumption.
Qed.

Lemma callAliyunAPI_decoded o instanceType region resp :
  callAliyunAPI describePrice o instanceType region = ApiPrice resp ->
  describePrice instanceType region = ApiPrice resp.
Proof.
  unfold callAliyunAPI.
  destruct (String.eqb (accessKey o) "" || String.eqb (secretKey o) "")%bool;
    [discriminate|auto].
Qed.

Lemma GetPriceForInstance_not_nan o instanceType region q :
  decodes_numbers describePrice ->
  GetPriceForInstance describePrice o instanceType region = Ok q ->
  not_nan (PricePerHour q).
Proof.
  intros Hnum Hq. apply GetPriceForInstance_Ok in Hq as (resp & Hc & _ & ->).
  apply callAliyunAPI_decoded in Hc. apply Hnum in Hc as (Ht & Ho & Hd).
  simpl. now apply selectedPrice_not_nan.
Qed.

Lemma In_collect_regions o instanceType regions acc q :
  In q (fold_left (collect_region describePrice o instanceType) regions acc)
  <->
  In q acc \/
  exists region, In region regions /\
    GetPriceForInstance describePrice o instanceType region = Ok q.
Proof.
  revert acc. induction regions as [|r regions IH]; intros acc; simpl.
  - split; [auto|]. intros [Hq|(r & [] & _)]. exact Hq.
  - rewrite IH. unfold collect_region.
    destruct (GetPriceForInstance describePrice o instanceType r) as [p|m]
      eqn:Hr.
    + rewrite in_app_iff. simpl. split.
      * intros [[Hq|[<-|[]]]|(r' & Hr' & Hq)]; eauto.
      * intros [Hq|(r' & [<-|Hr'] & Hq)]; eauto.
        rewrite Hr in Hq. inversion Hq. subst. auto.
    + split.
      * intros [Hq|(r' & Hr' & Hq)]; eauto.
      * intros [Hq|(r' & [<-|Hr'] & Hq)]; eauto.
        rewrite Hr in Hq. discriminate.
Qed.

Lemma In_collect_types o instanceTypes regions acc q :
  In q (fold_left
          (fun acc instanceType =>
             fold_left (collect_region describePrice o instanceType)
                       regions acc)
          instanceTypes acc)
  <->
  In q acc \/
  exists instanceType region,
    In instanceType instanceTypes /\ In region regions /\
    GetPriceForInstance describePrice o instanceType region = Ok q.
Proof.
  revert acc. induction instanceTypes as [|t instanceTypes IH]; intros acc;
    simpl.
  - split; [auto|]. intros [Hq|(t & r & [] & _)]. exact Hq.
  - rewrite IH, In_collect_regions. split.
    + intros [[Hq|(r & Hr & Hq)]|(t' & r & Ht' & Hr & Hq)]; eauto 8.
    + intros [Hq|(t' & r & [<-|Ht'] & Hr & Hq)]; eauto 8.
Qed.

(** The collected quotes are the successful queries over the candidates. *)
Lemma In_collect_prices o instanceTypes regions q :
  In q (collect_prices describePrice o instanceTypes regions) <->
  exists instanceType region,
    In instanceType instanceTypes /\ In region regions /\
    GetPriceForInstance describePrice o instanceType region = Ok q.
Proof.
  unfold collect_prices. rewrite In_collect_types. simpl. tauto.
Qed.

Lemma collected_eq o instanceTypes regions :
  collected describePrice o instanceTypes regions =
  collect_prices describePrice o (effectiveTypes instanceTypes)
    (effectiveRegions regions).
Proof. reflexivity. Qed.

(** What [FindOptimalConfig] does once the provider is "aliyun" and the
    optimizer is set: it ranks the collected quotes and takes the first. *)
Lemma FindOptimalConfig_aliyun o template instanceTypes regions :
  FindOptimalConfig describePrice {| optimizer := Some o |} "aliyun" template
    instanceTypes regions =
  match sort_Slice less_price
          (collected describePrice o instanceTypes regions) with
  | [] => Err "未找到任何价格信息"
  | cheapest :: _ => Ok (to_config cheapest)
  end.
Proof.
  unfold FindOptimalConfig, ComparePrices, collected. simpl.
  destruct instanceTypes; reflexivity.
Qed.

Lemma strict_weak_prices (x : list InstancePrice) :
  (forall q, In q x -> not_nan (PricePerHour q)) ->
  strict_weak less_price x.
Proof.
  intros Hnum. split; unfold less_price.
  - intros a _. apply ltb_irrefl.
  - intros a b c _ _ _. apply ltb_trans.
  - intros a b c _ Hb _. apply ltb_negtrans. now apply Hnum.
Qed.

Lemma collected_not_nan o instanceTypes regions q :
  decodes_numbers describePrice ->
  In q (collected describePrice o instanceTypes regions) ->
  not_nan (PricePerHour q).
Proof.
  intros Hnum Hq. rewrite collected_eq, In_collect_prices in Hq.
  destruct Hq as (t & r & _ & _ & Hq).
  now apply (GetPriceForInstance_not_nan o t r).
Qed.

End Facts.

End PricingFacts.

Module PriceClaims.
Import Pricing FloatOrder SortFacts PricingFacts.

(** *** Mocked providers *)

Definition keys : aliyunPriceOptimizer :=
  {| accessKey := "AK"; secretKey := "SK" |}.

Definition service : priceOptimizerService := {| optimizer := Some keys |}.

Definition priced (p : float) : ApiReply :=
  ApiPrice {| OriginalPrice := 0; TradePrice := p; DiscountPrice := 0 |}.

(** (cn-beijing, t5small) = 0.08/hr, (cn-shanghai, t5small) = 0.065/hr. *)
Definition mockedPrices (instanceType region : string) : ApiReply :=
  if String.eqb instanceType "t5small" && String.eqb region "cn-beijing"
  then priced 0.08
  else if String.eqb instanceType "t5small" && String.eqb region "cn-shanghai"
  then priced 0.065
  else ApiFailed "InvalidInstanceType.ValueNotSupported".

(** A provider that answers every query with the same price. *)
Definition flatPrices (instanceType region : string) : ApiReply := priced 0.08.

(** A provider none of whose queries succeeds. *)
Definition unreachable (instanceType region : string) : ApiReply :=
  ApiFailed "dial tcp: i/o timeout".

(** *** C10 *)

(** C10. On a decoded response [GetPriceForInstance] takes [TradePrice] if
    it is nonzero, otherwise [OriginalPrice] if nonzero, otherwise
    [DiscountPrice]; it returns an error exactly when all three fields are
    zero; the hourly price of a quote it returns is never zero. *)
Theorem GetPriceForInstance_selects
    (describePrice : string -> string -> ApiReply)
    (o : aliyunPriceOptimizer) (instanceType region : string)
    (resp : PriceFields) :
  callAliyunAPI describePrice o instanceType region = ApiPrice resp ->
  (all_zero resp = true <->
   exists msg,
     GetPriceForInstance describePrice o instanceType region = Err msg) /\
  (all_zero resp = false <->
   exists q,
     GetPriceForInstance describePrice o instanceType region = Ok q /\
     PricePerHour q = selectedPrice resp /\
     is_zero (PricePerHour q) = false) /\
  selectedPrice resp =
    (if is_zero (TradePrice resp) then
       if is_zero (OriginalPrice resp) then DiscountPrice resp
       else OriginalPrice resp
     else TradePrice resp).
Proof.
  intros Hcall.
  rewrite (GetPriceForInstance_decoded _ _ _ _ _ Hcall).
  rewrite <- selectedPrice_zero.
  destruct (is_zero (selectedPrice resp)) eqn:Hz.
  - split; [|split; [|reflexivity]].
    + split; [eauto|reflexivity].
    + split; [discriminate|]. intros [q [Hq _]]. discriminate.
  - split; [|split; [|reflexivity]].
    + split; [discriminate|]. intros [msg Hmsg]. discriminate.
    + split; [|reflexivity]. intros _.
      eexists. split; [reflexivity|]. simpl. auto.
Qed.

Lemma GetPriceForInstance_selects_witness :
  callAliyunAPI mockedPrices keys "t5small" "cn-shanghai" = priced 0.065 /\
  exists q,
    GetPriceForInstance mockedPrices keys "t5small" "cn-shanghai" = Ok q /\
    PricePerHour q = 0.065%float /\
    is_zero (PricePerHour q) = false.
Proof.
  split; [reflexivity|].
  apply (GetPriceForInstance_selects mockedPrices keys "t5small" "cn-shanghai"
           {| OriginalPrice := 0; TradePrice := 0.065; DiscountPrice := 0 |});
    reflexivity.
Defined.

(** *** C3 *)

(** C3. When the provider is "aliyun", the decoded prices are numbers and
    at least one query over the candidates succeeds, [FindOptimalConfig]
    returns one of the collected quotes, and no collected quote has a
    strictly lower hourly price. *)
Theorem FindOptimalConfig_minimal
    (describePrice : string -> string -> ApiReply) (sorter : SliceSorter)
    (o : aliyunPriceOptimizer) (template : string)
    (instanceTypes regions : list string) :
  decodes_numbers describePrice ->
  collected describePrice o instanceTypes regions <> [] ->
  exists cheapest,
    FindOptimalConfig describePrice {| optimizer := Some o |} "aliyun"
      template instanceTypes regions = Ok (to_config cheapest) /\
    In cheapest (collected describePrice o instanceTypes regions) /\
    forall q, In q (collected describePrice o instanceTypes regions) ->
      PrimFloat.ltb (PricePerHour q) (Price (to_config cheapest)) = false.
Proof.
  intros Hnum Hne. rewrite FindOptimalConfig_aliyun.
  set (all := collected describePrice o instanceTypes regions) in *.
  assert (Hsw : strict_weak less_price all).
  { apply strict_weak_prices. intros q Hq.
    now apply (collected_not_nan describePrice o instanceTypes regions). }
  pose proof (sort_Slice_Permutation less_price all) as Hperm.
  pose proof (sort_Slice_ascending less_price all Hsw) as Hasc.
  destruct (sort_Slice less_price all) as [|cheapest rest] eqn:Hsorted.
  - apply Permutation_nil in Hperm. congruence.
  - exists cheapest. split; [reflexivity|]. split.
    + apply (Permutation_in _ Hperm). now left.
    + intros q Hq. simpl.
      apply (Permutation_in _ (Permutation_sym Hperm)) in Hq.
      destruct Hq as [<-|Hq]; [apply ltb_irrefl|].
      apply (ascending_head_least less_price all Hsw cheapest rest);
        auto.
      intros z Hz. now apply (Permutation_in _ Hperm).
Qed.

Lemma mockedPrices_numbers : decodes_numbers mockedPrices.
Proof.
  intros t r resp. unfold mockedPrices, priced.
  destruct (String.eqb t "t5small" && String.eqb r "cn-beijing");
    [intros [= <-]; repeat split; reflexivity|].
  destruct (String.eqb t "t5small" && String.eqb r "cn-shanghai");
    [intros [= <-]; repeat split; reflexivity|discriminate].
Qed.

Lemma FindOptimalConfig_minimal_witness :
  decodes_numbers mockedPrices /\
  collected mockedPrices keys ["t5small"] ["cn-beijing"; "cn-shanghai"] <> []
  /\
  exists cheapest,
    FindOptimalConfig mockedPrices (sorter := insertion_sorter) service
      "aliyun" "aliyun/ecs"
      ["t5small"] ["cn-beijing"; "cn-shanghai"] = Ok (to_config cheapest) /\
    In cheapest
       (collected mockedPrices keys ["t5small"] ["cn-beijing"; "cn-shanghai"])
    /\
    forall q,
      In q (collected mockedPrices keys ["t5small"]
              ["cn-beijing"; "cn-shanghai"]) ->
      PrimFloat.ltb (PricePerHour q) (Price (to_config cheapest)) = false.
Proof.
  assert (Hne : collected mockedPrices keys ["t5small"]
                  ["cn-beijing"; "cn-shanghai"] <> [])
    by (vm_compute; discriminate).
  split; [exact mockedPrices_numbers|]. split; [exact Hne|].
  exact (FindOptimalConfig_minimal mockedPrices insertion_sorter keys
           "aliyun/ecs" ["t5small"] ["cn-beijing"; "cn-shanghai"]
           mockedPrices_numbers Hne).
Defined.

(** *** C5 *)

(** C5, as stated, fails: with both candidate lists empty the defaults are
    queried, and a provider that answers them yields a quote, not the
    no-quotes error. *)
Lemma FindOptimalConfig_empty_candidates_quote :
  FindOptimalConfig flatPrices (sorter := insertion_sorter) service
    "aliyun" "aliyun/ecs" [] [] =
    Ok {| opt_InstanceType := "ecs.t5-lc1m1.small";
          opt_Region := "cn-beijing";
          Price := 0.08;
          opt_PricePerMonth := (0.08 * 24 * 30)%float;
          opt_Currency := "CNY" |} /\
  FindOptimalConfig flatPrices (sorter := insertion_sorter) service
    "aliyun" "aliyun/ecs" [] [] <> Err "未找到任何价格信息".
Proof. split; [vm_compute; reflexivity|vm_compute; discriminate]. Qed.

Lemma sorted_nil_inv (sorter : SliceSorter) {A} (less : A -> A -> bool) x :
  x = [] -> sort_Slice less x = [].
Proof.
  intros ->. apply Permutation_nil. symmetry.
  apply sort_Slice_Permutation.
Qed.

(** C5, amended. For the provider "aliyun" with an optimizer set: when
    every query over the candidates (the defaults standing in for an empty
    list) fails, [FindOptimalConfig] returns the no-quotes error; and
    whatever the candidates, a configuration it returns comes from a
    collected quote and its hourly price is not zero. *)
Theorem FindOptimalConfig_no_quotes
    (describePrice : string -> string -> ApiReply) (sorter : SliceSorter)
    (o : aliyunPriceOptimizer) (template : string)
    (instanceTypes regions : list string) :
  (forall instanceType region,
     In instanceType (effectiveTypes instanceTypes) ->
     In region (effectiveRegions regions) ->
     is_Ok (GetPriceForInstance describePrice o instanceType region) = false)
  ->
  FindOptimalConfig describePrice {| optimizer := Some o |} "aliyun" template
    instanceTypes regions = Err "未找到任何价格信息" /\
  forall s provider template' instanceTypes' regions' cfg,
    FindOptimalConfig describePrice s provider template' instanceTypes'
      regions' = Ok cfg ->
    is_zero (Price cfg) = false /\
    exists o' q,
      optimizer s = Some o' /\
      In q (collected describePrice o' instanceTypes' regions') /\
      cfg = to_config q.
Proof.
  intros Hfail. split.
  - rewrite FindOptimalConfig_aliyun.
    rewrite (sorted_nil_inv sorter); [reflexivity|].
    destruct (collected describePrice o instanceTypes regions) as [|q rest]
      eqn:Hall; [reflexivity|].
    assert (Hq : In q (collected describePrice o instanceTypes regions))
      by (rewrite Hall; now left).
    rewrite collected_eq, In_collect_prices in Hq.
    destruct Hq as (t & r & Ht & Hr & Hq).
    specialize (Hfail t r Ht Hr). rewrite Hq in Hfail. discriminate.
  - intros s provider template' instanceTypes' regions' cfg Hcfg.
    unfold FindOptimalConfig in Hcfg.
    destruct (negb (String.eqb provider "aliyun")); [discriminate|].
    destruct s as [[o'|]]; simpl in Hcfg; [|discriminate].
    unfold ComparePrices in Hcfg.
    match type of Hcfg with
    | context [sort_Slice less_price ?l] =>
        assert (Hall : l = collected describePrice o' instanceTypes' regions')
          by (destruct instanceTypes'; reflexivity);
        rewrite Hall in Hcfg
    end.
    pose proof (sort_Slice_Permutation less_price
                  (collected describePrice o' instanceTypes' regions'))
      as Hperm.
    destruct (sort_Slice less_price
                (collected describePrice o' instanceTypes' regions'))
      as [|q rest]; [discriminate|].
    inversion Hcfg; subst cfg.
    assert (Hq : In q (collected describePrice o' instanceTypes' regions'))
      by (apply (Permutation_in _ Hperm); now left).
    split; [|exists o', q; auto].
    rewrite collected_eq, In_collect_prices in Hq.
    destruct Hq as (t & r & _ & _ & Hq).
    apply GetPriceForInstance_Ok in Hq as (resp & _ & Hz & ->).
    exact Hz.
Qed.

Lemma FindOptimalConfig_no_quotes_witness :
  (forall instanceType region,
     In instanceType (effectiveTypes ["t5small"]) ->
     In region (effectiveRegions []) ->
     is_Ok (GetPriceForInstance unreachable keys instanceType region) = false)
  /\
  FindOptimalConfig unreachable (sorter := insertion_sorter) service "aliyun"
    "aliyun/ecs" ["t5small"] [] = Err "未找到任何价格信息".
Proof.
  assert (Hfail : forall instanceType region,
     In instanceType (effectiveTypes ["t5small"]) ->
     In region (effectiveRegions []) ->
     is_Ok (GetPriceForInstance unreachable keys instanceType region) = false)
    by (intros; reflexivity).
  split; [exact Hfail|].
  exact (proj1 (FindOptimalConfig_no_quotes unreachable insertion_sorter keys
                  "aliyun/ecs" ["t5small"] [] Hfail)).
Defined.

(** *** C9 *)

(** The configuration the example of the specification asks for. *)
Definition expectedExample : OptimalInstanceConfig :=
  {| opt_InstanceType := "t5small";
     opt_Region := "cn-shanghai";
     Price := 0.065;
     opt_PricePerMonth := 46.8;
     opt_Currency := "CNY" |}.

(** The configuration the code returns: the monthly price is the binary64
    value next above 46.8. *)
Definition returnedExample : OptimalInstanceConfig :=
  {| opt_InstanceType := "t5small";
     opt_Region := "cn-shanghai";
     Price := 0.065;
     opt_PricePerMonth := 46.800000000000004;
     opt_Currency := "CNY" |}.

(** C9, as stated, fails on the example: the monthly price returned for
    0.065/hr is not 46.8. *)
Lemma FindOptimalConfig_example_not_46_8 :
  FindOptimalConfig mockedPrices (sorter := insertion_sorter) service
    "aliyun" "aliyun/ecs" ["t5small"] ["cn-beijing"; "cn-shanghai"] =
    Ok returnedExample /\
  PrimFloat.eqb (opt_PricePerMonth returnedExample)
                (opt_PricePerMonth expectedExample) = false /\
  FindOptimalConfig mockedPrices (sorter := insertion_sorter) service
    "aliyun" "aliyun/ecs" ["t5small"] ["cn-beijing"; "cn-shanghai"] <>
    Ok expectedExample.
Proof.
  split; [vm_compute; reflexivity|]. split; [vm_compute; reflexivity|].
  intros Heq.
  assert (Hret : FindOptimalConfig mockedPrices (sorter := insertion_sorter)
                   service "aliyun" "aliyun/ecs" ["t5small"]
                   ["cn-beijing"; "cn-shanghai"] = Ok returnedExample)
    by (vm_compute; reflexivity).
  rewrite Hret in Heq.
  apply (f_equal (fun r => match r with
                           | Ok c => PrimFloat.eqb (opt_PricePerMonth c) 46.8
                           | Err _ => false
                           end)) in Heq.
  vm_compute in Heq. discriminate.
Qed.

Definition beijingQuote : InstancePrice :=
  {| InstanceType := "t5small"; Region := "cn-beijing";
     PricePerHour := 0.08; PricePerMonth := (0.08 * 24 * 30)%float;
     Currency := "CNY" |}.

Definition shanghaiQuote : InstancePrice :=
  {| InstanceType := "t5small"; Region := "cn-shanghai";
     PricePerHour := 0.065; PricePerMonth := (0.065 * 24 * 30)%float;
     Currency := "CNY" |}.

Lemma example_collected :
  collected mockedPrices keys ["t5small"] ["cn-beijing"; "cn-shanghai"] =
  [beijingQuote; shanghaiQuote].
Proof. vm_compute. reflexivity. Qed.

(** Whatever the sorter, the two quotes of the example come out with
    Shanghai first. *)
Lemma example_sorted (sorter : SliceSorter) :
  sort_Slice less_price [beijingQuote; shanghaiQuote] =
  [shanghaiQuote; beijingQuote].
Proof.
  assert (Hsw : strict_weak less_price [beijingQuote; shanghaiQuote]).
  { apply strict_weak_prices. intros q [<-|[<-|[]]]; reflexivity. }
  pose proof (sort_Slice_Permutation less_price [beijingQuote; shanghaiQuote])
    as Hperm.
  pose proof (sort_Slice_ascending less_price _ Hsw) as Hasc.
  apply Permutation_sym, Permutation_length_2_inv in Hperm as [Heq|Heq];
    [|exact Heq].
  rewrite Heq in Hasc. apply Sorted_inv in Hasc as [_ Hhd].
  apply HdRel_inv in Hhd. vm_compute in Hhd. discriminate.
Qed.

(** C9, amended. The monthly price of every quote of [GetPriceForInstance]
    is the binary64 product [(pricePerHour * 24) * 30], rounded after each
    multiplication; for the mocked prices of the example and any sorter,
    [FindOptimalConfig] returns cn-shanghai at 0.065 per hour and
    46.800000000000004 per month. *)
Theorem PricePerMonth_is_float_product :
  (forall (describePrice : string -> string -> ApiReply)
          (o : aliyunPriceOptimizer) (instanceType region : string)
          (q : InstancePrice),
     GetPriceForInstance describePrice o instanceType region = Ok q ->
     PricePerMonth q = (PricePerHour q * 24 * 30)%float) /\
  (forall sorter : SliceSorter,
     FindOptimalConfig mockedPrices (sorter := sorter) service "aliyun"
       "aliyun/ecs" ["t5small"] ["cn-beijing"; "cn-shanghai"] =
     Ok returnedExample) /\
  (0.065 * 24 * 30)%float = 46.800000000000004%float.
Proof.
  split; [|split].
  - intros describePrice o instanceType region q Hq.
    apply GetPriceForInstance_Ok in Hq as (resp & _ & _ & ->). reflexivity.
  - intros sorter. unfold service.
    rewrite FindOptimalConfig_aliyun, example_collected.
    rewrite example_sorted. vm_compute. reflexivity.
  - vm_compute. reflexivity.
Qed.

Lemma PricePerMonth_is_float_product_witness :
  GetPriceForInstance mockedPrices keys "t5small" "cn-shanghai" =
    Ok shanghaiQuote /\
  PricePerMonth shanghaiQuote = (PricePerHour shanghaiQuote * 24 * 30)%float.
Proof.
  assert (Hq : GetPriceForInstance mockedPrices keys "t5small" "cn-shanghai" =
               Ok shanghaiQuote) by (vm_compute; reflexivity).
  split; [exact Hq|].
  exact (proj1 PricePerMonth_is_float_product mockedPrices keys "t5small"
           "cn-shanghai" shanghaiQuote Hq).
Defined.

End PriceClaims.

(** ** The capacity probe *)

Module ProbeClaims.
Import Credentials Probe.

(** The scheduler that delivers results in the order the goroutines were
    started. *)
Definition fifo : Scheduler :=
  {| arrival := fun A x => x;
     arrival_Permutation := fun A x => Permutation_refl x |}.

Definition noCredentials : credentialManager :=
  {| creds := fun _ => None; environ := ∅ |}.

Definition tencentConfigured : credentialManager :=
  {| creds := fun p =>
       match p with
       | ProviderTencent =>
           Some {| AccessKey := "AKID"; SecretKey := "SECRET"; Region := "" |}
       | _ => None
       end;
     environ := ∅ |}.

(** Probes none of which answers. *)
Definition historyDown (region instanceType secretId secretKey : string)
  : CmdOutput nat := CmdFailed.

Definition configsDown (region instanceType secretId secretKey : string)
  : CmdOutput (list InstanceTypeConfig) := CmdFailed.

Lemma HasCredentials_GetCredentials cm p :
  HasCredentials cm p = true -> exists c, GetCredentials cm p = Ok c.
Proof.
  unfold HasCredentials, GetCredentials.
  destruct (creds cm p); [eauto|]. intros ->. eauto.
Qed.

Section Facts.
Variable cm : credentialManager.
Variable DescribeSpotPriceHistory :
  string -> string -> string -> string -> CmdOutput nat.
Variable DescribeInstanceTypeConfigs :
  string -> string -> string -> string -> CmdOutput (list InstanceTypeConfig).
Variable DescribeInstanceFamilyConfigs :
  string -> string -> string -> string -> CmdOutput (list InstanceTypeConfig).
Context {scheduler : Scheduler}.

(** The verdict of the probe of one region. *)
Definition available (instanceType secretId secretKey region : string)
  : bool :=
  fst (testRegionAvailability DescribeSpotPriceHistory
         DescribeInstanceTypeConfigs region instanceType secretId secretKey).

(** A probe never reports an error. *)
Lemma testRegionAvailabilityByInstanceType_no_error r t i k :
  snd (testRegionAvailabilityByInstanceType DescribeInstanceTypeConfigs
         r t i k) = None.
Proof.
  unfold testRegionAvailabilityByInstanceType.
  destruct (DescribeInstanceTypeConfigs r t i k) as [| |set]; try reflexivity.
  destruct (0 <? length set)%nat; reflexivity.
Qed.

Lemma testRegionAvailability_no_error r t i k :
  snd (testRegionAvailability DescribeSpotPriceHistory
         DescribeInstanceTypeConfigs r t i k) = None.
Proof.
  unfold testRegionAvailability.
  destruct (DescribeSpotPriceHistory r t i k) as [| |n];
    try apply testRegionAvailabilityByInstanceType_no_error.
  destruct (0 <? n)%nat;
    [reflexivity|apply testRegionAvailabilityByInstanceType_no_error].
Qed.

(** A region both of whose commands fail is unavailable. *)
Lemma failed_probe_unavailable r t i k :
  DescribeSpotPriceHistory r t i k = CmdFailed ->
  DescribeInstanceTypeConfigs r t i k = CmdFailed ->
  testRegionAvailability DescribeSpotPriceHistory DescribeInstanceTypeConfigs
    r t i k = (false, None).
Proof.
  intros Hh Hc. unfold testRegionAvailability.
  rewrite Hh. unfold testRegionAvailabilityByInstanceType. now rewrite Hc.
Qed.

(** The regions [FindAvailableRegions] gathers before its fallback. *)
Lemma In_gathered instanceType secretId secretKey (regions : list string) r :
  In r
    (map rr_region
       (filter (fun res => rr_available res = true)
          (arrival
             (map (fun r =>
                     let '(available, err) :=
                       testRegionAvailability DescribeSpotPriceHistory
                         DescribeInstanceTypeConfigs r instanceType
                         secretId secretKey in
                     {| rr_region := r; rr_available := available;
                        rr_err := err |})
                  regions)))) <->
  In r regions /\ available instanceType secretId secretKey r = true.
Proof.
  unfold available. rewrite in_map_iff. split.
  - intros (res & <- & Hres).
    apply list_elem_of_In, list_elem_of_filter in Hres as [Hav Hres].
    apply list_elem_of_In in Hres.
    apply (Permutation_in _ (arrival_Permutation _)) in Hres.
    apply in_map_iff in Hres as (r' & <- & Hr').
    destruct (testRegionAvailability DescribeSpotPriceHistory
                DescribeInstanceTypeConfigs r' instanceType secretId
                secretKey) as [a e] eqn:Hprobe.
    cbn in *. rewrite Hprobe. auto.
  - intros [Hr Hav].
    destruct (testRegionAvailability DescribeSpotPriceHistory
                DescribeInstanceTypeConfigs r instanceType secretId
                secretKey) as [a e] eqn:Hprobe.
    cbn in Hav. subst a.
    exists {| rr_region := r; rr_available := true; rr_err := e |}.
    split; [reflexivity|].
    apply list_elem_of_In, list_elem_of_filter. split; [reflexivity|].
    apply list_elem_of_In.
    apply (Permutation_in _ (Permutation_sym (arrival_Permutation _))).
    apply in_map_iff. exists r. split; [|exact Hr].
    now rewrite Hprobe.
Qed.

Lemma QuerySpotInstanceAvailability_down regions family i k :
  (forall r, In r regions ->
     DescribeInstanceFamilyConfigs r family i k = CmdFailed) ->
  concat
    (arrival
       (map (querySpotRegion DescribeSpotPriceHistory
               DescribeInstanceFamilyConfigs family i k) regions)) = [].
Proof.
  intros Hdown.
  assert (Hall : forall x,
            In x (arrival
                    (map (querySpotRegion DescribeSpotPriceHistory
                            DescribeInstanceFamilyConfigs family i k)
                         regions)) -> x = []).
  { intros x Hx.
    apply (Permutation_in _ (arrival_Permutation _)) in Hx.
    apply in_map_iff in Hx as (r & <- & Hr). unfold querySpotRegion.
    now rewrite (Hdown r Hr). }
  induction (arrival _) as [|x xs IH]; [reflexivity|]. simpl.
  rewrite (Hall x); [|now left]. simpl. apply IH.
  intros y Hy. apply Hall. now right.
Qed.

End Facts.

(** *** C8 *)

(** C8, as stated, fails: without Tencent credentials both probes return an
    error, and with credentials but no answer from any region
    [FindAvailableRegions] returns the six regions, not an empty set. *)
Lemma FindAvailableRegions_can_fail :
  FindAvailableRegions noCredentials historyDown configsDown
    (scheduler := fifo) "S5.SMALL1" =
    Err "未配置腾讯云凭据，请先运行: credential set tencent" /\
  QuerySpotInstanceAvailability noCredentials historyDown configsDown
    (scheduler := fifo) tencentRegions "S5" = Err "未配置腾讯云凭据" /\
  FindAvailableRegions tencentConfigured historyDown configsDown
    (scheduler := fifo) "S5.SMALL1" = Ok tencentRegions.
Proof. repeat split; vm_compute; reflexivity. Qed.

(** C8, amended. With Tencent credentials configured neither probe fails:
    a region whose commands fail or time out is unavailable, never an
    error; [FindAvailableRegions] returns the available regions, or all
    six regions when none is available (the fallback to every candidate is
    built in); [QuerySpotInstanceAvailability] returns the available
    combinations, an empty list when no region answers.  Without
    credentials both return an error. *)
Theorem probes_fail_only_without_credentials
    (cm : credentialManager)
    (DescribeSpotPriceHistory :
       string -> string -> string -> string -> CmdOutput nat)
    (DescribeInstanceTypeConfigs DescribeInstanceFamilyConfigs :
       string -> string -> string -> string ->
       CmdOutput (list InstanceTypeConfig))
    (scheduler : Scheduler)
    (instanceType instanceFamily : string) (regions : list string) :
  (HasCredentials cm ProviderTencent = true ->
   exists c found combos,
     GetCredentials cm ProviderTencent = Ok c /\
     FindAvailableRegions cm DescribeSpotPriceHistory
       DescribeInstanceTypeConfigs instanceType = Ok found /\
     found <> [] /\
     ((exists r, In r tencentRegions /\
         available DescribeSpotPriceHistory DescribeInstanceTypeConfigs
           instanceType (AccessKey c) (SecretKey c) r = true) ->
      forall r, In r found <->
        In r tencentRegions /\
        available DescribeSpotPriceHistory DescribeInstanceTypeConfigs
          instanceType (AccessKey c) (SecretKey c) r = true) /\
     ((forall r, In r tencentRegions ->
         available DescribeSpotPriceHistory DescribeInstanceTypeConfigs
           instanceType (AccessKey c) (SecretKey c) r = false) ->
      found = tencentRegions) /\
     (forall r,
        DescribeSpotPriceHistory r instanceType (AccessKey c) (SecretKey c) =
          CmdFailed ->
        DescribeInstanceTypeConfigs r instanceType (AccessKey c)
          (SecretKey c) = CmdFailed ->
        testRegionAvailability DescribeSpotPriceHistory
          DescribeInstanceTypeConfigs r instanceType (AccessKey c)
          (SecretKey c) = (false, None)) /\
     QuerySpotInstanceAvailability cm DescribeSpotPriceHistory
       DescribeInstanceFamilyConfigs regions instanceFamily = Ok combos /\
     ((forall r, In r regions ->
         DescribeInstanceFamilyConfigs r instanceFamily (AccessKey c)
           (SecretKey c) = CmdFailed) ->
      combos = [])) /\
  (HasCredentials cm ProviderTencent = false ->
   (exists msg,
      FindAvailableRegions cm DescribeSpotPriceHistory
        DescribeInstanceTypeConfigs instanceType = Err msg) /\
   (exists msg,
      QuerySpotInstanceAvailability cm DescribeSpotPriceHistory
        DescribeInstanceFamilyConfigs regions instanceFamily = Err msg)).
Proof.
  split.
  - intros Hhas.
    destruct (HasCredentials_GetCredentials cm _ Hhas) as [c Hc].
    unfold FindAvailableRegions, QuerySpotInstanceAvailability.
    rewrite Hhas, Hc. cbn [negb].
    pose proof (In_gathered DescribeSpotPriceHistory
                  DescribeInstanceTypeConfigs instanceType (AccessKey c)
                  (SecretKey c) tencentRegions) as Hin.
    destruct (map rr_region _) as [|r0 rest] eqn:Hgathered.
    + exists c, tencentRegions. eexists.
      split; [reflexivity|]. split; [reflexivity|].
      split; [discriminate|]. split.
      { intros (r & Hr & Hav).
        destruct (proj2 (Hin r) (conj Hr Hav)). }
      split; [reflexivity|].
      split; [intros r; apply failed_probe_unavailable|].
      split; [reflexivity|]. apply QuerySpotInstanceAvailability_down.
    + exists c, (r0 :: rest). eexists.
      split; [reflexivity|]. split; [reflexivity|].
      split; [discriminate|]. split; [intros _; exact Hin|]. split.
      { intros Hnone. exfalso.
        destruct (proj1 (Hin r0) (or_introl eq_refl)) as [Hr0 Hav].
        rewrite (Hnone r0 Hr0) in Hav. discriminate. }
      split; [intros r; apply failed_probe_unavailable|].
      split; [reflexivity|]. apply QuerySpotInstanceAvailability_down.
  - intros Hno. unfold FindAvailableRegions, QuerySpotInstanceAvailability.
    rewrite Hno. cbn [negb]. eauto.
Qed.

Lemma probes_fail_only_without_credentials_witness :
  HasCredentials tencentConfigured ProviderTencent = true /\
  exists c found combos,
    GetCredentials tencentConfigured ProviderTencent = Ok c /\
    FindAvailableRegions tencentConfigured historyDown configsDown
      (scheduler := fifo) "S5.SMALL1" = Ok found /\
    found <> [] /\
    QuerySpotInstanceAvailability tencentConfigured historyDown configsDown
      (scheduler := fifo) tencentRegions "S5" = Ok combos.
Proof.
  split; [reflexivity|].
  destruct (proj1 (probes_fail_only_without_credentials tencentConfigured
                     historyDown configsDown configsDown fifo "S5.SMALL1"
                     "S5" tencentRegions) eq_refl)
    as (c & found & combos & Hc & Hfound & Hne & _ & _ & _ & Hcombos & _).
  exists c, found, combos. auto.
Defined.

End ProbeClaims.

(** ** The project service *)

Module ServiceFacts.
Import Credentials Probe Terraform Domain Orchestrator.

(** *** Concrete collaborators *)

Definition projectDir : string := "/var/cloudbot/projects".

(** A manager with Aliyun credentials only. *)
Definition aliyunConfigured : credentialManager :=
  {| creds := fun p =>
       match p with
       | ProviderAliyun =>
           Some {| AccessKey := "LTAI-ACCESS"; SecretKey := "OSS-SECRET";
                   Region := "" |}
       | _ => None
       end;
     environ := ∅ |}.

(** A manager with Tencent credentials and a default region. *)
Definition tencentInBeijing : credentialManager :=
  {| creds := fun p =>
       match p with
       | ProviderTencent =>
           Some {| AccessKey := "AKID"; SecretKey := "SECRET";
                   Region := "ap-beijing" |}
       | _ => None
       end;
     environ := ∅ |}.

(** An engine every call of which succeeds. *)
Definition engineOk : Engine := fun _ _ => None.

Definition copyOk (provider templateName destPath : string) : option string :=
  None.

Definition scenarioOf (id template status : string) : Scenario :=
  {| ID := id; Name := "demo-" +:+ id; Template := template;
     Path := projectDir +:+ "/demo/" +:+ id; Status := status |}.

(** A world with the project "demo" and one scenario "s1". *)
Definition worldWith (template status : string) : World :=
  {| trace := [];
     projects := {["demo"]};
     scenarios := {[ projectDir +:+ "/demo/s1" :=
                       scenarioOf "s1" template status ]} |}.

(** The status stored for a scenario. *)
Definition storedStatus (w : World) (projectName scenarioID : string)
  : option string :=
  Status <$> scenarios w !! joinPath (joinPath projectDir projectName)
                              scenarioID.

End ServiceFacts.

(** ** Secrets and the command line *)

Module SecretClaims.
Import Credentials Probe Terraform Domain Orchestrator ServiceFacts.
Import ProbeClaims.

(** C7. The code breaks the claim on the destroy of a task-executor-spot
    scenario: the object-storage key pair is put in [vars] under names
    [isCredentialVar] does not know, so [terraformService.Destroy] passes
    the access key and the secret key as [-var] arguments. *)
Theorem DestroyScenario_oss_keys_on_command_line :
  let w :=
    snd (DestroyScenario projectDir aliyunConfigured engineOk "demo" "s1" true
           (worldWith "aliyun/task-executor-spot" "deployed")) in
  exists vars,
    trace w !! 2%nat =
      Some (EvEngine (CallDestroy (projectDir +:+ "/demo/s1") true vars)
              None) /\
    vars !! "oss_access_key_id" = Some "LTAI-ACCESS" /\
    vars !! "oss_access_key_secret" = Some "OSS-SECRET" /\
    GetCredentials aliyunConfigured ProviderAliyun =
      Ok {| AccessKey := "LTAI-ACCESS"; SecretKey := "OSS-SECRET";
            Region := "" |} /\
    In "oss_access_key_id=LTAI-ACCESS"
       (Args (commandOf aliyunConfigured
                (CallDestroy (projectDir +:+ "/demo/s1") true vars))) /\
    In "oss_access_key_secret=OSS-SECRET"
       (Args (commandOf aliyunConfigured
                (CallDestroy (projectDir +:+ "/demo/s1") true vars))).
Proof.
  eexists. split; [vm_compute; reflexivity|].
  repeat split; vm_compute; auto 10.
Qed.

End SecretClaims.

(** ** Reasoning about state-passing code *)

Module Hoare.
Import Credentials Probe Terraform Domain Orchestrator.

(** [m], run in [w], ends in a result and a world that satisfy [Q]. *)
Definition wp {A} (m : M A) (w : World) (Q : A -> World -> Prop) : Prop :=
  Q (fst (m w)) (snd (m w)).

Lemma wp_ret {A} (a : A) w Q : Q a w -> wp (ret a) w Q.
Proof. auto. Qed.

Lemma wp_bind {A B} (m : M A) (k : A -> M B) w Q :
  wp m w (fun a w' => wp (k a) w' Q) -> wp (bind m k) w Q.
Proof. unfold wp, bind. destruct (m w) as [a w']. auto. Qed.

Lemma wp_mono {A} (m : M A) w (Q Q' : A -> World -> Prop) :
  wp m w Q -> (forall a w', Q a w' -> Q' a w') -> wp m w Q'.
Proof. unfold wp. auto. Qed.

Lemma wp_run {A} (m : M A) w Q a w' : m w = (a, w') -> wp m w Q -> Q a w'.
Proof. unfold wp. intros ->. auto. Qed.

(** The world after one more event. *)
Definition record (w : World) (ev : Event) : World :=
  with_trace w (trace w ++ [ev]).

Section Primitives.
Variable ProjectDir : string.
Variable terraformSvc : Engine.
Variable copyTemplate : string -> string -> string -> option string.

Lemma wp_log level format args w Q :
  Q tt (record w (EvLog level format args)) ->
  wp (log level format args) w Q.
Proof. auto. Qed.

Lemma wp_engine c w Q :
  Q (terraformSvc (engineCalls (trace w)) c)
    (record w (EvEngine c (terraformSvc (engineCalls (trace w)) c))) ->
  wp (engine terraformSvc c) w Q.
Proof. auto. Qed.

Lemma wp_CopyTemplate provider templateName destPath w Q :
  Q (copyTemplate provider templateName destPath)
    (record w (EvCopyTemplate provider templateName destPath
                 (copyTemplate provider templateName destPath))) ->
  wp (CopyTemplate copyTemplate provider templateName destPath) w Q.
Proof. auto. Qed.

Lemma wp_GetProject name w Q :
  (forall r, Q r w) -> wp (GetProject ProjectDir name) w Q.
Proof.
  intros HQ. unfold wp, GetProject. destruct (decide _); apply HQ.
Qed.

Lemma wp_GetScenario projectName scenarioID w Q :
  (forall msg, Q (Err msg) w) ->
  (forall scenario,
     scenarios w !! joinPath (joinPath ProjectDir projectName) scenarioID =
       Some scenario ->
     Q (Ok (with_Path scenario
              (joinPath (joinPath ProjectDir projectName) scenarioID))) w) ->
  wp (GetScenario ProjectDir projectName scenarioID) w Q.
Proof.
  intros Herr Hok. unfold wp, GetScenario, bind, GetProject.
  destruct (decide _); simpl; [|apply Herr].
  destruct (scenarios w !! _) eqn:Hs; simpl; [now apply Hok|apply Herr].
Qed.

Lemma wp_GetScenario_found projectName scenarioID w stored Q :
  projectName ∈ projects w ->
  scenarios w !! joinPath (joinPath ProjectDir projectName) scenarioID =
    Some stored ->
  Q (Ok (with_Path stored
           (joinPath (joinPath ProjectDir projectName) scenarioID))) w ->
  wp (GetScenario ProjectDir projectName scenarioID) w Q.
Proof.
  intros Hp Hs HQ. unfold wp, GetScenario, bind, GetProject.
  destruct (decide _); [|contradiction]. simpl. rewrite Hs. exact HQ.
Qed.

Lemma wp_saveScenarioMetadata scenario w Q :
  Q None (with_scenarios w (<[Path scenario := scenario]> (scenarios w))) ->
  wp (saveScenarioMetadata scenario) w Q.
Proof. auto. Qed.

Lemma wp_UpdateScenario projectName scenario w Q :
  (forall msg, Q (Some msg) w) ->
  Q None (with_scenarios w (<[Path scenario := scenario]> (scenarios w))) ->
  wp (UpdateScenario ProjectDir projectName scenario) w Q.
Proof.
  intros Herr Hok. unfold UpdateScenario. apply wp_bind, wp_GetScenario.
  - intros msg. now apply wp_ret.
  - intros _ _. now apply wp_saveScenarioMetadata.
Qed.

Lemma wp_AddScenario projectName scenario w Q :
  (forall msg, Q (Some msg, scenario) w) ->
  (forall path,
     Q (None, with_Path scenario path)
       (with_scenarios w
          (<[path := with_Path scenario path]> (scenarios w)))) ->
  wp (AddScenario ProjectDir projectName scenario) w Q.
Proof.
  intros Herr Hok. unfold AddScenario, wp, bind, GetProject.
  destruct (decide _); simpl; [apply Hok|apply Herr].
Qed.

End Primitives.

(** [w] continues [w0] by events that all satisfy [ok]. *)
Definition extends_with (ok : Event -> Prop) (w0 w : World) : Prop :=
  exists evs, trace w = trace w0 ++ evs /\ Forall ok evs.

Lemma extends_refl ok w : extends_with ok w w.
Proof. exists []. split; [now rewrite app_nil_r|constructor]. Qed.

Lemma extends_record ok w0 w ev :
  extends_with ok w0 w -> ok ev -> extends_with ok w0 (record w ev).
Proof.
  intros (evs & Htr & Hok) Hev. exists (evs ++ [ev]). split.
  - simpl. rewrite Htr. now rewrite app_assoc.
  - apply Forall_app. split; [exact Hok|]. now constructor.
Qed.

Lemma extends_with_scenarios ok w0 w s :
  extends_with ok w0 w -> extends_with ok w0 (with_scenarios w s).
Proof. intros (evs & Htr & Hok). now exists evs. Qed.

Lemma extends_mono (ok ok' : Event -> Prop) w0 w :
  (forall ev, ok ev -> ok' ev) ->
  extends_with ok w0 w -> extends_with ok' w0 w.
Proof.
  intros Himp (evs & Htr & Hok). exists evs. split; [exact Htr|].
  eapply Forall_impl; eauto.
Qed.

Lemma extends_trans ok w0 w1 w2 :
  extends_with ok w0 w1 -> extends_with ok w1 w2 -> extends_with ok w0 w2.
Proof.
  intros (evs1 & Htr1 & Hok1) (evs2 & Htr2 & Hok2). exists (evs1 ++ evs2).
  split; [now rewrite Htr2, Htr1, app_assoc|]. apply Forall_app. now split.
Qed.

(** One step of symbolic execution. *)
Ltac wp_step :=
  lazymatch goal with
  | |- wp (bind _ _) _ _ => apply wp_bind
  | |- wp (ret _) _ _ => apply wp_ret
  | |- wp (log _ _ _) _ _ => apply wp_log
  | |- wp (engine _ _) _ _ => apply wp_engine
  | |- wp (CopyTemplate _ _ _ _) _ _ => apply wp_CopyTemplate
  | |- wp (saveScenarioMetadata _) _ _ => apply wp_saveScenarioMetadata
  | |- wp (UpdateScenario _ _ _) _ _ => apply wp_UpdateScenario
  | |- wp (AddScenario _ _ _) _ _ => apply wp_AddScenario
  | |- wp (GetScenario _ _ _) _ _ => apply wp_GetScenario
  | |- wp (GetProject _ _) _ _ => apply wp_GetProject
  | |- wp (markDeployed _ _ _ _ _ _) _ _ => unfold markDeployed
  | |- wp (match ?x with _ => _ end) _ _ => destruct x eqn:?
  | |- wp (if ?x then _ else _) _ _ => destruct x eqn:?
  end.

Ltac wp_exec := repeat (intros; wp_step); intros.

(** Continuation of the trace by events that satisfy the predicate. *)
Ltac solve_extends :=
  lazymatch goal with
  | |- extends_with _ _ (record _ _) =>
      apply extends_record; [solve_extends|simpl; try easy; auto]
  | |- extends_with _ _ (with_scenarios _ _) =>
      apply extends_with_scenarios; solve_extends
  | |- extends_with _ _ _ => first [assumption|apply extends_refl]
  end.

End Hoare.

(** ** Region of a region-scoped template *)

Module RegionClaims.
Import Credentials Probe Terraform Domain Orchestrator ServiceFacts Hoare.
Import ProbeClaims.

(** The warning [deployAliyunProxyWithRegion] logs for a conflict. *)
Definition conflictFormat : string :=
  "场景模板区域 (%s) 与部署指定区域 (%s) 不一致，使用部署指定的区域".

Definition conflictLogged (t : list Event) : Prop :=
  exists args, In (EvLog LWarn conflictFormat args) t.

Definition bjTemplate : string :=
  "aliyun/aliyun-proxy/zone-node/ss-libev-node-bj".

(** The variables of the Beijing template under [aliyunConfigured]. *)
Definition bjVars : gmap string string :=
  <["region" := "cn-beijing"]>
    (<["secret_key" := "OSS-SECRET"]>
       (<["access_key" := "LTAI-ACCESS"]> ∅)).

(** C6, as stated, fails: a deploy of a Beijing-scoped scenario that asks
    for "sh" logs no conflict; the requested region is dropped silently
    (the template's region, cn-beijing, is used). *)
Lemma DeployScenario_conflict_not_logged :
  let w :=
    snd (DeployScenario projectDir aliyunConfigured historyDown configsDown
           configsDown (scheduler := fifo) engineOk copyOk
           "demo" "s1" true 0 "" "" "sh" (worldWith bjTemplate "pending")) in
  trace w =
    [EvLog LInfo
       "开始部署场景: project=%s, scenario=%s, nodeCount=%d, toolName=%s, region=%s"
       ["demo"; "s1"; "0"; ""; "sh"];
     EvLog LInfo "场景已指定区域（模板路径: %s），使用模板中的区域进行部署"
       [bjTemplate];
     EvEngine (CallInit (projectDir +:+ "/demo/s1")) None;
     EvEngine (CallValidate (projectDir +:+ "/demo/s1")) None;
     EvEngine (CallPlan (projectDir +:+ "/demo/s1") bjVars) None;
     EvEngine (CallApply (projectDir +:+ "/demo/s1") true bjVars) None;
     EvLog LInfo "场景部署成功: project=%s, scenario=%s" ["demo"; "s1"]] /\
  ~ conflictLogged (trace w).
Proof.
  assert (Htrace :
    trace (snd (DeployScenario projectDir aliyunConfigured historyDown
                  configsDown configsDown (scheduler := fifo) engineOk copyOk
                  "demo" "s1" true 0 "" "" "sh"
                  (worldWith bjTemplate "pending"))) =
    [EvLog LInfo
       "开始部署场景: project=%s, scenario=%s, nodeCount=%d, toolName=%s, region=%s"
       ["demo"; "s1"; "0"; ""; "sh"];
     EvLog LInfo "场景已指定区域（模板路径: %s），使用模板中的区域进行部署"
       [bjTemplate];
     EvEngine (CallInit (projectDir +:+ "/demo/s1")) None;
     EvEngine (CallValidate (projectDir +:+ "/demo/s1")) None;
     EvEngine (CallPlan (projectDir +:+ "/demo/s1") bjVars) None;
     EvEngine (CallApply (projectDir +:+ "/demo/s1") true bjVars) None;
     EvLog LInfo "场景部署成功: project=%s, scenario=%s" ["demo"; "s1"]])
    by (vm_compute; reflexivity).
  cbv zeta. split; [exact Htrace|].
  rewrite Htrace. intros [args Hin]. simpl in Hin.
  repeat (destruct Hin as [Hin|Hin]; [discriminate|]). exact Hin.
Qed.

(** Called on its own with a region-scoped template and a different
    region, [deployAliyunProxyWithRegion] does log the conflict, and then
    deploys with the requested region. *)
Example deployAliyunProxyWithRegion_overrides :
  let w :=
    snd (deployAliyunProxyWithRegion projectDir aliyunConfigured engineOk
           copyOk "demo" "s1" true 0 "" ""
           (scenarioOf "s1" bjTemplate "pending") "sh"
           (worldWith bjTemplate "pending")) in
  trace w !! 0%nat = Some (EvLog LWarn conflictFormat ["bj"; "sh"]) /\
  Template <$> scenarios w !! (projectDir +:+ "/demo/s1") =
    Some "aliyun/aliyun-proxy/zone-node/ss-libev-node-sh".
Proof. split; vm_compute; reflexivity. Qed.

(** The events a deploy of a region-scoped proxy scenario may leave: no
    warning, and engine calls on the scenario's directory whose variables
    are those read off the template. *)
Definition proxyEvent (cm : credentialManager) (nodeCount : Z)
    (scenario : Scenario) (ev : Event) : Prop :=
  match ev with
  | EvLog level _ _ => level <> LWarn
  | EvEngine (CallInit dir) _ => dir = Path scenario
  | EvEngine (CallValidate dir) _ => dir = Path scenario
  | EvEngine (CallPlan dir vars) _ =>
      dir = Path scenario /\ vars = aliyunProxyVars cm nodeCount scenario
  | EvEngine (CallApply dir _ vars) _ =>
      dir = Path scenario /\ vars = aliyunProxyVars cm nodeCount scenario
  | EvEngine (CallDestroy _ _ _) _ => False
  | EvCopyTemplate _ _ _ _ => False
  end.

(** The store is untouched, or [sc] was written under its path. *)
Definition writesAt (w w' : World) (sc : Scenario) : Prop :=
  scenarios w' = scenarios w \/
  scenarios w' = <[Path sc := sc]> (scenarios w).

Lemma deployAliyunProxyScenario_events ProjectDir cm terraformSvc
    projectName scenarioID autoApprove nodeCount toolName toolArgs scenario
    w0 w :
  extends_with (proxyEvent cm nodeCount scenario) w0 w ->
  wp (deployAliyunProxyScenario ProjectDir cm terraformSvc projectName
        scenarioID autoApprove nodeCount toolName toolArgs scenario) w
     (fun _ w' =>
        extends_with (proxyEvent cm nodeCount scenario) w0 w' /\
        writesAt w w' (with_Status scenario "deployed")).
Proof.
  intros Hext. unfold deployAliyunProxyScenario.
  wp_exec; (split; [solve_extends|]);
    first [left; reflexivity|right; reflexivity].
Qed.

Lemma proxyEvent_no_conflict cm nodeCount scenario evs :
  Forall (proxyEvent cm nodeCount scenario) evs -> ~ conflictLogged evs.
Proof.
  intros Hok [args Hin]. rewrite List.Forall_forall in Hok.
  apply Hok in Hin. simpl in Hin. now apply Hin.
Qed.

Lemma aliyunProxyVars_region cm nodeCount scenario :
  HasCredentials cm ProviderAliyun = true ->
  aliyunProxyVars cm nodeCount scenario !! "region" =
    templateRegionVar (Template scenario).
Proof.
  intros Hhas. destruct (HasCredentials_GetCredentials _ _ Hhas) as [c Hc].
  unfold aliyunProxyVars. rewrite Hhas, Hc.
  destruct (0 <? nodeCount)%Z, (templateRegionVar (Template scenario));
    now simplify_map_eq.
Qed.

(** C6, amended. On a deploy of a scenario whose template encodes a region,
    the requested region only appears in the opening log line: no conflict
    (indeed no warning) is logged, every engine call runs in the scenario's
    directory with the variables read off the template, whose region is
    the template's own whenever Aliyun credentials are configured, and the
    scenario is stored, if at all, with its template unchanged. *)
Theorem DeployScenario_template_region_wins
    (ProjectDir : string) (cm : credentialManager)
    (DescribeSpotPriceHistory :
       string -> string -> string -> string -> CmdOutput nat)
    (DescribeInstanceTypeConfigs DescribeInstanceFamilyConfigs :
       string -> string -> string -> string ->
       CmdOutput (list InstanceTypeConfig))
    (scheduler : Scheduler) (terraformSvc : Engine)
    (copyTemplate : string -> string -> string -> option string)
    (projectName scenarioID : string) (autoApprove : bool) (nodeCount : Z)
    (toolName toolArgs region : string) (w : World) (stored : Scenario) :
  projectName ∈ projects w ->
  scenarios w !! joinPath (joinPath ProjectDir projectName) scenarioID =
    Some stored ->
  Contains (Template stored) "aliyun/aliyun-proxy/zone-node/ss-libev-node-"
    = true ->
  let scenario :=
    with_Path stored (joinPath (joinPath ProjectDir projectName) scenarioID) in
  let w' :=
    snd (DeployScenario ProjectDir cm DescribeSpotPriceHistory
           DescribeInstanceTypeConfigs DescribeInstanceFamilyConfigs
           terraformSvc copyTemplate projectName scenarioID autoApprove
           nodeCount toolName toolArgs region w) in
  (exists evs,
     trace w' = trace w ++ evs /\
     Forall (proxyEvent cm nodeCount scenario) evs /\
     ~ conflictLogged evs) /\
  writesAt w w' (with_Status scenario "deployed") /\
  (HasCredentials cm ProviderAliyun = true ->
   aliyunProxyVars cm nodeCount scenario !! "region" =
     templateRegionVar (Template stored)).
Proof.
  intros Hproject Hstored Hscoped scenario w'.
  assert (Hwp :
    wp (DeployScenario ProjectDir cm DescribeSpotPriceHistory
          DescribeInstanceTypeConfigs DescribeInstanceFamilyConfigs
          terraformSvc copyTemplate projectName scenarioID autoApprove
          nodeCount toolName toolArgs region) w
       (fun _ w' =>
          extends_with (proxyEvent cm nodeCount scenario) w w' /\
          writesAt w w' (with_Status scenario "deployed"))).
  { unfold DeployScenario. wp_step. wp_step. wp_step.
    apply (wp_GetScenario_found _ _ _ _ stored); [exact Hproject|exact Hstored|].
    fold scenario. change (Template scenario) with (Template stored).
    rewrite Hscoped. wp_step. wp_step. wp_step.
    eapply wp_mono.
    - apply (deployAliyunProxyScenario_events _ _ _ _ _ _ _ _ _ scenario w).
      solve_extends.
    - intros err w'' [Hext Hwrites]. wp_step. split; [exact Hext|].
      exact Hwrites. }
  destruct Hwp as [(evs & Htrace & Hok) Hwrites].
  split; [|split].
  - exists evs. split; [exact Htrace|]. split; [exact Hok|].
    now apply (proxyEvent_no_conflict cm nodeCount scenario).
  - exact Hwrites.
  - intros Hhas. change (Template stored) with (Template scenario).
    now apply aliyunProxyVars_region.
Qed.

Lemma DeployScenario_template_region_wins_witness :
  let w := worldWith bjTemplate "pending" in
  let w' :=
    snd (DeployScenario projectDir aliyunConfigured historyDown configsDown
           configsDown (scheduler := fifo) engineOk copyOk
           "demo" "s1" true 0 "" "" "sh" w) in
  "demo" ∈ projects w /\
  Contains bjTemplate "aliyun/aliyun-proxy/zone-node/ss-libev-node-" = true /\
  (exists evs,
     trace w' = trace w ++ evs /\
     Forall (proxyEvent aliyunConfigured 0
               (scenarioOf "s1" bjTemplate "pending")) evs /\
     ~ conflictLogged evs) /\
  aliyunProxyVars aliyunConfigured 0 (scenarioOf "s1" bjTemplate "pending")
    !! "region" = Some "cn-beijing".
Proof.
  assert (Hproject : "demo" ∈ projects (worldWith bjTemplate "pending"))
    by (vm_compute; reflexivity).
  assert (Hscoped :
    Contains bjTemplate "aliyun/aliyun-proxy/zone-node/ss-libev-node-" = true)
    by reflexivity.
  split; [exact Hproject|]. split; [exact Hscoped|].
  destruct (DeployScenario_template_region_wins projectDir aliyunConfigured
              historyDown configsDown configsDown fifo engineOk copyOk
              "demo" "s1" true 0 "" "" "sh" (worldWith bjTemplate "pending")
              (scenarioOf "s1" bjTemplate "pending") Hproject eq_refl Hscoped)
    as (Hevs & _ & Hregion).
  split; [exact Hevs|]. exact (Hregion eq_refl).
Defined.

End RegionClaims.

(** ** Traces of the failover loops *)

Module Traces.
Import Credentials Probe Terraform Domain Orchestrator Hoare.

(** [w'] is [w] after the events [evs], with the store untouched. *)
Definition evolves (w w' : World) (evs : list Event) : Prop :=
  trace w' = trace w ++ evs /\
  scenarios w' = scenarios w /\
  projects w' = projects w.

Lemma evolves_refl w : evolves w w [].
Proof. repeat split. now rewrite app_nil_r. Qed.

Lemma evolves_record w w1 evs ev :
  evolves w w1 evs -> evolves w (record w1 ev) (evs ++ [ev]).
Proof.
  intros (Htr & Hs & Hp). repeat split; simpl; auto.
  now rewrite Htr, app_assoc.
Qed.

Lemma evolves_trans w w1 w2 evs1 evs2 :
  evolves w w1 evs1 -> evolves w1 w2 evs2 -> evolves w w2 (evs1 ++ evs2).
Proof.
  intros (Htr1 & Hs1 & Hp1) (Htr2 & Hs2 & Hp2). repeat split; try congruence.
  now rewrite Htr2, Htr1, app_assoc.
Qed.

Ltac solve_evolves :=
  lazymatch goal with
  | |- evolves _ (record _ _) _ => eapply evolves_record; solve_evolves
  | |- evolves _ _ _ => first [apply evolves_refl|eassumption]
  end.

(** The regions of the successful applies, oldest first. *)
Definition applied (ev : Event) : list string :=
  match ev with
  | EvEngine (CallApply _ _ vars) None => [varOf vars "region"]
  | _ => []
  end.

Definition placedRegions (evs : list Event) : list string :=
  flat_map applied evs.

(** Whether some apply among the events succeeded. *)
Definition someApplied (evs : list Event) : Prop :=
  exists dir autoApprove vars,
    In (EvEngine (CallApply dir autoApprove vars) None) evs.

Lemma placedRegions_app evs1 evs2 :
  placedRegions (evs1 ++ evs2) = placedRegions evs1 ++ placedRegions evs2.
Proof. apply flat_map_app. Qed.

Lemma Itoa_1 : Itoa 1 = "1".
Proof. reflexivity. Qed.

(** Goals about the region an engine call carries. *)
Ltac solve_placed :=
  cbn; unfold varOf; now simplify_map_eq.

End Traces.

(** ** Multi-region fragmentation *)

Module FragmentClaims.
Import Credentials Probe Terraform Domain Orchestrator ServiceFacts Hoare.
Import Traces.

Definition attemptFormat : string :=
  "尝试在区域 %s 部署 %d 个节点 (剩余 %d 个节点)".

(** The regions the loop announces an attempt in. *)
Definition announced (ev : Event) : list string :=
  match ev with
  | EvLog LInfo format (region :: _) =>
      if String.eqb format attemptFormat then [region] else []
  | _ => []
  end.

Definition attempted (evs : list Event) : list string :=
  flat_map announced evs.

(** What the loop may leave: every plan and apply runs in the scenario's
    directory for one of the candidate regions with [node_count = 1], and
    every announcement is for one node. *)
Definition oneNodeVars (scenario : Scenario) (regions : list string)
    (dir : string) (vars : gmap string string) : Prop :=
  dir = Path scenario /\
  vars !! "node_count" = Some "1" /\
  exists region, In region regions /\ vars !! "region" = Some region.

Definition fragmentEvent (scenario : Scenario) (regions : list string)
    (ev : Event) : Prop :=
  match ev with
  | EvEngine (CallPlan dir vars) _ => oneNodeVars scenario regions dir vars
  | EvEngine (CallApply dir _ vars) _ => oneNodeVars scenario regions dir vars
  | EvEngine (CallDestroy _ _ _) _ => False
  | EvLog LInfo format args =>
      format = attemptFormat ->
      exists region remaining, args = [region; "1"; remaining]
  | _ => True
  end.

(** The entry of [deployedRegions] for a region. *)
Definition placedEntry (region : string) : string := region +:+ "(1)".

(** What the loop establishes, from [w] to [w']. *)
Definition placePost (scenario : Scenario) (regions : list string)
    (remainingNodes : Z) (deployedRegions : list string) (w : World)
    (res : Z * list string) (w' : World) : Prop :=
  exists evs,
    evolves w w' evs /\
    Forall (fragmentEvent scenario regions) evs /\
    snd res = deployedRegions ++ map placedEntry (placedRegions evs) /\
    fst res = (remainingNodes - Z.of_nat (length (placedRegions evs)))%Z /\
    ((0 <= remainingNodes)%Z -> (0 <= fst res)%Z) /\
    placedRegions evs `sublist_of` regions /\
    attempted evs `prefix_of` regions /\
    ((0 < fst res)%Z -> attempted evs = regions).

Lemma fragmentEvent_mono scenario region regions ev :
  fragmentEvent scenario regions ev ->
  fragmentEvent scenario (region :: regions) ev.
Proof.
  assert (Hvars : forall dir vars,
            oneNodeVars scenario regions dir vars ->
            oneNodeVars scenario (region :: regions) dir vars).
  { intros dir vars (Hd & Hn & r & Hr & Hv). repeat split; auto.
    exists r. split; [now right|exact Hv]. }
  destruct ev as [[]| |]; simpl; auto.
Qed.

(** A turn of the loop that places nothing. *)
Lemma placePost_skip scenario region rest remainingNodes deployedRegions
    w w1 seg res w' :
  placePost scenario rest remainingNodes deployedRegions w1 res w' ->
  evolves w w1 seg ->
  Forall (fragmentEvent scenario (region :: rest)) seg ->
  placedRegions seg = [] ->
  attempted seg = [region] ->
  placePost scenario (region :: rest) remainingNodes deployedRegions w res w'.
Proof.
  intros (evs & Hev & Hoks & Hdep & Hrem & Hpos & Hsub & Hpre & Hall)
    Hseg Hok Hplaced Htried.
  exists (seg ++ evs). split; [now apply (evolves_trans _ w1)|].
  rewrite placedRegions_app, Hplaced. unfold attempted in *.
  rewrite flat_map_app, Htried. simpl.
  split.
  { apply Forall_app. split; [exact Hok|].
    eapply Forall_impl; [exact Hoks|]. apply fragmentEvent_mono. }
  repeat split; auto.
  - now apply sublist_cons.
  - now apply prefix_cons.
  - intros Hlt. now rewrite (Hall Hlt).
Qed.

(** The loop stops without a further turn. *)
Lemma placePost_stop scenario regions remainingNodes deployedRegions w :
  regions = [] \/ (remainingNodes <= 0)%Z ->
  placePost scenario regions remainingNodes deployedRegions w
    (remainingNodes, deployedRegions) w.
Proof.
  intros Hstop. exists []. split; [apply evolves_refl|].
  split; [constructor|]. simpl. rewrite app_nil_r.
  repeat split; auto; try lia.
  - apply sublist_nil_l.
  - apply prefix_nil.
  - intros Hlt. destruct Hstop as [->|Hle]; [reflexivity|lia].
Qed.

(** A turn of the loop that places one node. *)
Lemma placePost_placed scenario region rest remainingNodes deployedRegions
    w w1 seg res w' :
  placePost scenario rest (remainingNodes - 1)
    (deployedRegions ++ [placedEntry region]) w1 res w' ->
  (0 < remainingNodes)%Z ->
  evolves w w1 seg ->
  Forall (fragmentEvent scenario (region :: rest)) seg ->
  placedRegions seg = [region] ->
  attempted seg = [region] ->
  placePost scenario (region :: rest) remainingNodes deployedRegions w res w'.
Proof.
  intros (evs & Hev & Hoks & Hdep & Hrem & Hpos & Hsub & Hpre & Hall)
    Hlt Hseg Hok Hplaced Htried.
  exists (seg ++ evs). split; [now apply (evolves_trans _ w1)|].
  rewrite placedRegions_app, Hplaced. unfold attempted in *.
  rewrite flat_map_app, Htried. simpl.
  split.
  { apply Forall_app. split; [exact Hok|].
    eapply Forall_impl; [exact Hoks|]. apply fragmentEvent_mono. }
  repeat split.
  - rewrite Hdep, <- app_assoc. reflexivity.
  - rewrite Hrem. lia.
  - intros _. apply Hpos. lia.
  - now apply sublist_skip.
  - now apply prefix_cons.
  - intros Hlt'. now rewrite (Hall Hlt').
Qed.

Ltac solve_segment :=
  simpl;
  repeat (apply Forall_cons; split; [|]);
  try apply Forall_nil;
  simpl; auto;
  try (intros [=]);
  try (do 2 eexists; reflexivity);
  try (repeat split; try reflexivity; simplify_map_eq; auto;
       eexists; split; [left; reflexivity|]; now simplify_map_eq).

Section Loop.
Variable terraformSvc : Engine.

Lemma placeNodes_post autoApprove scenario baseVars regions :
  forall remainingNodes deployedRegions w,
    wp (placeNodes terraformSvc autoApprove scenario baseVars regions
          remainingNodes deployedRegions) w
       (placePost scenario regions remainingNodes deployedRegions w).
Proof.
  induction regions as [|region rest IH]; intros remainingNodes deployedRegions w.
  - simpl. destruct (negb (0 <? remainingNodes)%Z);
      apply wp_ret, placePost_stop; auto.
  - cbn [placeNodes]. destruct (0 <? remainingNodes)%Z eqn:Hlt; cbn [negb].
    2: { apply wp_ret, placePost_stop. right. lia. }
    apply Z.ltb_lt in Hlt. cbv zeta.
    wp_exec;
      lazymatch goal with
      | |- wp (placeNodes _ _ _ _ _ (_ - 1)%Z _) _ _ =>
          eapply wp_mono; [apply IH|]; intros res w' Hpost;
          eapply placePost_placed;
            [exact Hpost|lia|solve_evolves|solve_segment|solve_placed
            |reflexivity]
      | |- wp (placeNodes _ _ _ _ _ _ _) _ _ =>
          eapply wp_mono; [apply IH|]; intros res w' Hpost;
          eapply placePost_skip;
            [exact Hpost|solve_evolves|solve_segment|reflexivity|reflexivity]
      | |- placePost _ _ _ _ _ _ _ =>
          eapply placePost_placed;
            [apply placePost_stop; right; lia|lia|solve_evolves
            |solve_segment|solve_placed|reflexivity]
      end.
Qed.

End Loop.



(** An engine whose apply runs out of quota in the regions [full]. *)
Definition quotaEngine (full : list string) : Engine :=
  fun _ c =>
    match c with
    | CallApply _ _ vars =>
        if existsb (String.eqb (varOf vars "region")) full
        then Some "Terraform apply 失败: LimitExceeded.SpotQuota"
        else None
    | _ => None
    end.

Definition fiveRegions : list string :=
  ["ap-shanghai"; "ap-nanjing"; "ap-guangzhou"; "ap-beijing"; "ap-chengdu"].

Definition tencentScenario : Scenario :=
  with_Path (scenarioOf "s1" "tencent/tencent-proxy" "pending")
            (joinPath (joinPath projectDir "demo") "s1").

(** Four nodes over five regions with room for one node each. *)
Definition fourOfFive : Outcome * World :=
  deployAcrossMultipleRegions projectDir (quotaEngine []) "demo" "s1" true 4
    "" "" tencentScenario ∅ fiveRegions
    (worldWith "tencent/tencent-proxy" "pending").

(** Four nodes over five regions of which two are out of quota. *)
Definition threeOfFour : Outcome * World :=
  deployAcrossMultipleRegions projectDir
    (quotaEngine ["ap-nanjing"; "ap-beijing"]) "demo" "s1" true 4
    "" "" tencentScenario ∅ fiveRegions
    (worldWith "tencent/tencent-proxy" "pending").

Example fourOfFive_deployed :
  fst fourOfFive = Returned None /\
  placedRegions (trace (snd fourOfFive)) =
    ["ap-shanghai"; "ap-nanjing"; "ap-guangzhou"; "ap-beijing"] /\
  storedStatus (snd fourOfFive) "demo" "s1" = Some "deployed".
Proof. repeat split; vm_compute; reflexivity. Qed.

Example threeOfFour_reported :
  fst threeOfFour =
    Returned
      (Some ("跨区域部署未完成: 剩余 1 个节点未部署。已部署区域: " +:+
             "[ap-shanghai(1) ap-guangzhou(1) ap-chengdu(1)]")) /\
  storedStatus (snd threeOfFour) "demo" "s1" = Some "pending".
Proof. repeat split; vm_compute; reflexivity. Qed.


End FragmentClaims.

(** ** Single-region failover *)

Module FailoverClaims.
Import Credentials Probe Terraform Domain Orchestrator ServiceFacts Hoare.
Import Traces.

Definition tryFormat : string := "尝试使用区域: %s".

(** The regions the loop announces, oldest first. *)
Definition announcedTry (ev : Event) : list string :=
  match ev with
  | EvLog LInfo format [region] =>
      if String.eqb format tryFormat then [region] else []
  | _ => []
  end.

Definition triedRegions (evs : list Event) : list string :=
  flat_map announcedTry evs.

(** The applies among the events: region and error. *)
Definition applyResult (ev : Event) : list (string * option string) :=
  match ev with
  | EvEngine (CallApply _ _ vars) err => [(varOf vars "region", err)]
  | _ => []
  end.

Definition applyResults (evs : list Event) : list (string * option string) :=
  flat_map applyResult evs.

(** Every apply among the events failed for lack of quota. *)
Definition onlyQuotaFailures (evs : list Event) : Prop :=
  forall region err, In (region, err) (applyResults evs) ->
    exists msg, err = Some msg /\ isQuotaError msg = true.

(** The three errors the loop returns. *)
Definition exhausted (originalErr : string) : string :=
  "所有国内区域都配额不足，部署失败。原始错误: " +:+ originalErr.

Definition aborted (region msg : string) : string :=
  "Terraform apply 失败 (区域: " +:+ region +:+ "): " +:+ msg.

Definition updateFailed (msg : string) : string :=
  "更新场景状态失败: " +:+ msg.

(** What the failover loop establishes, from [w] to [w']. *)
Record tryPost (scenario : Scenario) (originalErr : string)
    (regions : list string) (w : World) (err : option string) (w' : World)
    (evs : list Event) : Prop := {
  tp_trace : trace w' = trace w ++ evs;
  tp_order : triedRegions evs `prefix_of` regions;
  tp_applies : map fst (applyResults evs) `sublist_of` triedRegions evs;
  tp_abort : forall region msg,
    In (region, Some msg) (applyResults evs) -> isQuotaError msg = false ->
    err = Some (aborted region msg) /\
    last (triedRegions evs) = Some region /\
    last (applyResults evs) = Some (region, Some msg) /\
    scenarios w' = scenarios w;
  tp_success : forall region,
    In (region, None) (applyResults evs) ->
    last (triedRegions evs) = Some region /\
    last (applyResults evs) = Some (region, None) /\
    ((err = None /\
      scenarios w' =
        <[Path scenario := with_Status scenario "deployed"]> (scenarios w)) \/
     (exists msg, err = Some (updateFailed msg) /\
                  scenarios w' = scenarios w));
  tp_advance : onlyQuotaFailures evs ->
    triedRegions evs = regions /\
    err = Some (exhausted originalErr) /\
    scenarios w' = scenarios w
}.

Lemma last_cons_Some {A} (x y : A) l : last l = Some y -> last (x :: l) = Some y.
Proof. destruct l; [discriminate|]. now rewrite last_cons_cons. Qed.

Lemma triedRegions_app evs1 evs2 :
  triedRegions (evs1 ++ evs2) = triedRegions evs1 ++ triedRegions evs2.
Proof. apply flat_map_app. Qed.

Lemma applyResults_app evs1 evs2 :
  applyResults (evs1 ++ evs2) = applyResults evs1 ++ applyResults evs2.
Proof. apply flat_map_app. Qed.

(** A turn that ends in a skip: the region is announced and its apply, if
    it ran at all, failed for lack of quota. *)
Lemma tryPost_skip scenario originalErr region rest w w1 seg err w' evs :
  tryPost scenario originalErr rest w1 err w' evs ->
  evolves w w1 seg ->
  triedRegions seg = [region] ->
  (applyResults seg = [] \/
   exists msg, applyResults seg = [(region, Some msg)] /\
               isQuotaError msg = true) ->
  tryPost scenario originalErr (region :: rest) w err w' (seg ++ evs).
Proof.
  intros [Htr Hord Happ Habort Hsucc Hadv] (Hseg & Hsc & Hpr) Htried Hres.
  assert (Hin : forall r e,
            In (r, e) (applyResults (seg ++ evs)) ->
            In (r, e) (applyResults evs) \/
            exists msg, e = Some msg /\ isQuotaError msg = true).
  { intros r e. rewrite applyResults_app, in_app_iff.
    intros [Hr|Hr]; [|now left].
    destruct Hres as [Hres|(msg & Hres & Hq)]; rewrite Hres in Hr;
      [destruct Hr|].
    destruct Hr as [[= <- <-]|[]]. right. eauto. }
  assert (Hlast : forall x,
            last (applyResults evs) = Some x ->
            last (applyResults (seg ++ evs)) = Some x).
  { intros x Hx. rewrite applyResults_app.
    destruct Hres as [Hres|(msg & Hres & _)]; rewrite Hres; simpl;
      [exact Hx|now apply last_cons_Some]. }
  split.
  - rewrite Htr, Hseg. now rewrite app_assoc.
  - rewrite triedRegions_app, Htried. now apply prefix_cons.
  - rewrite triedRegions_app, applyResults_app, map_app, Htried.
    destruct Hres as [Hres|(msg & Hres & _)]; rewrite Hres; simpl.
    + now apply sublist_cons.
    + now apply sublist_skip.
  - intros r msg Hr Hq. destruct (Hin r _ Hr) as [Hr'|(m & [= <-] & Hq')];
      [|congruence].
    destruct (Habort r msg Hr' Hq) as (He & Hl & Hla & Hs).
    rewrite triedRegions_app, Htried. simpl.
    repeat split; auto using last_cons_Some. congruence.
  - intros r Hr. destruct (Hin r _ Hr) as [Hr'|(m & [=] & _)].
    destruct (Hsucc r Hr') as (Hl & Hla & Hs).
    rewrite triedRegions_app, Htried. simpl.
    split; [now apply last_cons_Some|]. split; [now apply Hlast|].
    rewrite <- Hsc. exact Hs.
  - intros Hquota.
    destruct Hadv as (Ht & He & Hs).
    { intros r e Hr. apply (Hquota r e).
      rewrite applyResults_app, in_app_iff. now right. }
    rewrite triedRegions_app, Htried, Ht. repeat split; auto. congruence.
Qed.

(** How a turn that reaches a decisive apply ends. *)
Definition decided (scenario : Scenario) (region : string)
    (applyErr : option string) (w : World) (err : option string) (w' : World)
  : Prop :=
  match applyErr with
  | Some msg =>
      isQuotaError msg = false /\
      err = Some (aborted region msg) /\
      scenarios w' = scenarios w
  | None =>
      (err = None /\
       scenarios w' =
         <[Path scenario := with_Status scenario "deployed"]> (scenarios w))
      \/
      (exists msg, err = Some (updateFailed msg) /\
                   scenarios w' = scenarios w)
  end.

(** The last turn: the apply succeeded, or failed for another reason than
    quota. *)
Lemma tryPost_final scenario originalErr region rest w applyErr err w' evs :
  trace w' = trace w ++ evs ->
  triedRegions evs = [region] ->
  applyResults evs = [(region, applyErr)] ->
  decided scenario region applyErr w err w' ->
  tryPost scenario originalErr (region :: rest) w err w' evs.
Proof.
  intros Htr Htried Hres Hdec. split.
  - exact Htr.
  - rewrite Htried. apply prefix_cons, prefix_nil.
  - rewrite Htried, Hres. reflexivity.
  - rewrite Htried, Hres. simpl. intros r msg [[= -> ->]|[]] Hq.
    simpl in Hdec. destruct Hdec as (_ & He & Hs). auto.
  - rewrite Htried, Hres. simpl. intros r [[= -> ->]|[]].
    simpl in Hdec. auto.
  - intros Hquota. exfalso.
    destruct (Hquota region applyErr) as (msg & -> & Hq);
      [rewrite Hres; now left|].
    simpl in Hdec. destruct Hdec as (Hq' & _). congruence.
Qed.

Lemma tryPost_exhausted scenario originalErr w :
  tryPost scenario originalErr [] w (Some (exhausted originalErr)) w [].
Proof.
  split; simpl; auto.
  - now rewrite app_nil_r.
  - intros _ _ [].
  - intros _ [].
Qed.

Ltac solve_trace :=
  simpl; rewrite <- ?app_assoc; reflexivity.

Section Loop.
Variable ProjectDir : string.
Variable terraformSvc : Engine.

Lemma tryRegions_post projectName scenarioID autoApprove scenario originalVars
    originalErr regions :
  forall w,
    wp (tryRegions ProjectDir terraformSvc projectName scenarioID autoApprove
          scenario originalVars originalErr regions) w
       (fun err w' =>
          exists evs, tryPost scenario originalErr regions w err w' evs).
Proof.
  induction regions as [|region rest IH]; intros w.
  - apply wp_ret. eexists. apply tryPost_exhausted.
  - cbn [tryRegions]. cbv zeta.
    wp_exec;
      lazymatch goal with
      | |- wp (tryRegions _ _ _ _ _ _ _ _ _) _ _ =>
          eapply wp_mono; [apply IH|]; intros err w' [evs Hpost];
          eexists; eapply tryPost_skip;
            [exact Hpost|solve_evolves|reflexivity
            |first [left; reflexivity
                   |right; eexists; split; [solve_placed|assumption]]]
      | |- exists _, tryPost _ _ _ _ _ _ _ =>
          eexists; eapply tryPost_final;
            [solve_trace|reflexivity|solve_placed
            |simpl;
             first [repeat split; [assumption|reflexivity..]
                   |right; eexists; split; reflexivity
                   |left; split; reflexivity]]
      end.
Qed.

End Loop.

(** An event in front that is neither an announcement nor an apply. *)
Lemma tryPost_prepend scenario originalErr regions w ev err w' evs :
  tryPost scenario originalErr regions (record w ev) err w' evs ->
  announcedTry ev = [] -> applyResult ev = [] ->
  tryPost scenario originalErr regions w err w' (ev :: evs).
Proof.
  intros [Htr Hord Happ Habort Hsucc Hadv] Hann Hres.
  assert (Ht : triedRegions (ev :: evs) = triedRegions evs)
    by (unfold triedRegions; simpl; now rewrite Hann).
  assert (Ha : applyResults (ev :: evs) = applyResults evs)
    by (unfold applyResults; simpl; now rewrite Hres).
  split; rewrite ?Ht, ?Ha; auto.
  - rewrite Htr. simpl. now rewrite <- app_assoc.
  - unfold onlyQuotaFailures. rewrite Ha. exact Hadv.
Qed.

(** The candidates of the failover: the domestic regions other than the
    one the failed attempt used. *)
Definition failoverCandidates (originalVars : gmap string string)
  : list string :=
  let currentRegion := varOf originalVars "region" in
  let currentRegion :=
    if nonempty currentRegion then currentRegion else "ap-beijing" in
  List.filter (fun region => negb (String.eqb region currentRegion))
              GetDomesticRegions.

(** An engine whose plan is broken in ap-shanghai for a reason other than
    quota. *)
Definition planBroken : Engine :=
  fun _ c =>
    match c with
    | CallPlan _ vars =>
        if String.eqb (varOf vars "region") "ap-shanghai"
        then Some "Terraform plan 失败: Error: Unsupported argument"
        else None
    | _ => None
    end.

Definition tencentScenario : Scenario :=
  with_Path (scenarioOf "s1" "tencent/tencent-proxy-postpaid" "pending")
            (joinPath (joinPath projectDir "demo") "s1").

Definition beijingVars : gmap string string := {[ "region" := "ap-beijing" ]}.

Definition afterPlanFailure : Outcome * World :=
  retryDeployWithDifferentRegions projectDir planBroken "demo" "s1" true 1
    "" "" tencentScenario beijingVars
    "Terraform apply 失败: LimitExceeded.SpotQuota"
    (worldWith "tencent/tencent-proxy-postpaid" "pending").

(** C1, as stated, fails: a plan failure that is not a quota error does not
    abort the deploy; the loop skips ap-shanghai and succeeds in
    ap-nanjing. *)
Lemma failover_skips_plan_failure :
  In (EvEngine
        (CallPlan (Path tencentScenario)
           (<["region" := "ap-shanghai"]> beijingVars))
        (Some "Terraform plan 失败: Error: Unsupported argument"))
     (trace (snd afterPlanFailure)) /\
  isQuotaError "Terraform plan 失败: Error: Unsupported argument" = false /\
  fst afterPlanFailure = Returned None /\
  triedRegions (trace (snd afterPlanFailure)) =
    ["ap-shanghai"; "ap-nanjing"] /\
  storedStatus (snd afterPlanFailure) "demo" "s1" = Some "deployed".
Proof.
  split; [vm_compute; auto 10|]. repeat split; vm_compute; reflexivity.
Qed.

(** C1, amended. In the single-region failover (one node requested) the
    candidates are announced one after the other in the list's order, and
    every apply is for an announced region.  The loop ends at the first
    apply that succeeds (the scenario is then stored as deployed, and no
    later region is announced) or that fails with an error that is not a
    quota error (the deploy then aborts with that error and the region).
    Everything else, a failure of init, validate or plan whatever its
    text, or a quota failure of apply, moves on to the next candidate:
    when no apply succeeded or failed for another reason, every candidate
    was tried and the call returns the all-regions-exhausted error. *)
Theorem failover_tries_candidates_in_order
    (ProjectDir : string) (terraformSvc : Engine)
    (projectName scenarioID : string) (autoApprove : bool) (nodeCount : Z)
    (toolName toolArgs : string) (scenario : Scenario)
    (originalVars : gmap string string) (originalErr : string) (w : World) :
  actualNodeCountOf nodeCount originalVars = 1%Z ->
  exists err evs,
    fst (retryDeployWithDifferentRegions ProjectDir terraformSvc projectName
           scenarioID autoApprove nodeCount toolName toolArgs scenario
           originalVars originalErr w) = Returned err /\
    tryPost scenario originalErr (failoverCandidates originalVars) w err
      (snd (retryDeployWithDifferentRegions ProjectDir terraformSvc
              projectName scenarioID autoApprove nodeCount toolName toolArgs
              scenario originalVars originalErr w))
      evs.
Proof.
  intros Hone.
  assert (Hwp :
    wp (retryDeployWithDifferentRegions ProjectDir terraformSvc projectName
          scenarioID autoApprove nodeCount toolName toolArgs scenario
          originalVars originalErr) w
       (fun out w' =>
          exists err evs,
            out = Returned err /\
            tryPost scenario originalErr (failoverCandidates originalVars) w
              err w' evs)).
  { unfold retryDeployWithDifferentRegions. rewrite Hone.
    wp_step. wp_step. cbn [Z.ltb Z.compare Pos.compare Pos.compare_cont andb].
    wp_step. eapply wp_mono; [apply tryRegions_post|].
    intros err w' [evs Hpost]. wp_step.
    exists err. eexists. split; [reflexivity|].
    apply tryPost_prepend; [exact Hpost|reflexivity|reflexivity]. }
  exact Hwp.
Qed.

Lemma failover_tries_candidates_in_order_witness :
  actualNodeCountOf 1 beijingVars = 1%Z /\
  exists err evs,
    fst afterPlanFailure = Returned err /\
    tryPost tencentScenario "Terraform apply 失败: LimitExceeded.SpotQuota"
      (failoverCandidates beijingVars)
      (worldWith "tencent/tencent-proxy-postpaid" "pending") err
      (snd afterPlanFailure) evs.
Proof.
  split; [reflexivity|].
  exact (failover_tries_candidates_in_order projectDir planBroken "demo" "s1"
           true 1 "" "" tencentScenario beijingVars
           "Terraform apply 失败: LimitExceeded.SpotQuota"
           (worldWith "tencent/tencent-proxy-postpaid" "pending") eq_refl).
Defined.

End FailoverClaims.

(** ** Status transitions *)

Module StatusClaims.
Import Credentials Probe Terraform Domain Orchestrator ServiceFacts Hoare.
Import Traces ProbeClaims.

(** Some apply succeeded between [w0] and [w]. *)
Definition appliedSince (w0 w : World) : Prop :=
  exists evs, trace w = trace w0 ++ evs /\ someApplied evs.

(** What a deploy may do to the store between [w0] and [w]: a record is as
    it was, or it is pending (a region scenario just added), or it is
    deployed and some apply of this call succeeded. *)
Definition deployWrites (w0 w : World) : Prop :=
  (exists evs, trace w = trace w0 ++ evs) /\
  forall path,
    scenarios w !! path = scenarios w0 !! path \/
    exists sc,
      scenarios w !! path = Some sc /\
      (Status sc = "pending" \/
       (Status sc = "deployed" /\ appliedSince w0 w)).

Lemma deployWrites_refl w : deployWrites w w.
Proof. split; [exists []; now rewrite app_nil_r|]. intros path. now left. Qed.

Lemma appliedSince_record w0 w ev :
  appliedSince w0 w -> appliedSince w0 (record w ev).
Proof.
  intros (evs & Htr & dir & a & v & Hin). exists (evs ++ [ev]). split.
  - simpl. now rewrite Htr, app_assoc.
  - exists dir, a, v. apply in_app_iff. now left.
Qed.

Lemma appliedSince_with_scenarios w0 w s :
  appliedSince w0 w -> appliedSince w0 (with_scenarios w s).
Proof. auto. Qed.

Lemma appliedSince_apply w0 w dir autoApprove vars :
  deployWrites w0 w ->
  appliedSince w0 (record w (EvEngine (CallApply dir autoApprove vars) None)).
Proof.
  intros [(evs & Htr) _].
  exists (evs ++ [EvEngine (CallApply dir autoApprove vars) None]). split.
  - simpl. now rewrite Htr, app_assoc.
  - exists dir, autoApprove, vars. apply in_app_iff. right. now left.
Qed.

Lemma deployWrites_record w0 w ev :
  deployWrites w0 w -> deployWrites w0 (record w ev).
Proof.
  intros [(evs & Htr) Hst]. split.
  - exists (evs ++ [ev]). simpl. now rewrite Htr, app_assoc.
  - intros path. destruct (Hst path) as [Heq|(sc & Hsc & Hstatus)];
      [now left|right].
    exists sc. split; [exact Hsc|].
    destruct Hstatus as [Hp|[Hd Happ]]; [now left|right].
    split; [exact Hd|]. now apply appliedSince_record.
Qed.

Lemma deployWrites_store w0 w path sc :
  deployWrites w0 w ->
  Status sc = "pending" \/ (Status sc = "deployed" /\ appliedSince w0 w) ->
  deployWrites w0 (with_scenarios w (<[path := sc]> (scenarios w))).
Proof.
  intros [Hext Hst] Hsc. split; [exact Hext|].
  intros path'. simpl. destruct (decide (path = path')) as [<-|Hne].
  - right. exists sc. rewrite lookup_insert_eq. split; [reflexivity|].
    exact Hsc.
  - rewrite lookup_insert_ne by exact Hne. exact (Hst path').
Qed.

Lemma deployWrites_evolves w0 w w' evs :
  deployWrites w0 w -> evolves w w' evs -> deployWrites w0 w'.
Proof.
  intros [(evs0 & Htr0) Hst] (Htr & Hsc & _). split.
  - exists (evs0 ++ evs). now rewrite Htr, Htr0, app_assoc.
  - intros path. rewrite Hsc.
    destruct (Hst path) as [Heq|(sc & Hlook & Hstatus)]; [now left|right].
    exists sc. split; [exact Hlook|].
    destruct Hstatus as [Hp|[Hd (evs1 & Htr1 & dir & a & v & Hin)]];
      [now left|right].
    split; [exact Hd|]. exists (evs1 ++ evs). split.
    + now rewrite Htr, Htr1, app_assoc.
    + exists dir, a, v. apply in_app_iff. now left.
Qed.

Ltac solve_applied :=
  lazymatch goal with
  | |- appliedSince _ (record _ (EvEngine (CallApply _ _ _) None)) =>
      apply appliedSince_apply
  | |- appliedSince _ (record _ _) =>
      apply appliedSince_record; solve_applied
  | |- appliedSince _ (with_scenarios _ _) =>
      apply appliedSince_with_scenarios; solve_applied
  | |- appliedSince _ _ => assumption
  end.

Ltac solve_writes :=
  lazymatch goal with
  | |- deployWrites _ (record _ _) =>
      apply deployWrites_record; solve_writes
  | |- deployWrites _ (with_scenarios _ (<[_ := _]> _)) =>
      apply deployWrites_store;
        [solve_writes
        |first [left; reflexivity
               |right; split; [reflexivity|solve_applied; solve_writes]]]
  | |- deployWrites ?w ?w => apply deployWrites_refl
  | |- deployWrites _ _ => assumption
  end.

(** Some engine destroy succeeded between [w0] and [w]. *)
Definition destroyedSince (w0 w : World) : Prop :=
  exists evs,
    trace w = trace w0 ++ evs /\
    exists dir autoApprove vars,
      In (EvEngine (CallDestroy dir autoApprove vars) None) evs.

(** What deploys and destroys may do to the store between [w0] and [w]. *)
Definition statusWrites (w0 w : World) : Prop :=
  (exists evs, trace w = trace w0 ++ evs) /\
  forall path,
    scenarios w !! path = scenarios w0 !! path \/
    exists sc,
      scenarios w !! path = Some sc /\
      (Status sc = "pending" \/
       (Status sc = "deployed" /\ appliedSince w0 w) \/
       (Status sc = "destroyed" /\ destroyedSince w0 w)).

Lemma statusWrites_refl w : statusWrites w w.
Proof. split; [exists []; now rewrite app_nil_r|]. intros path. now left. Qed.

Lemma deployWrites_statusWrites w0 w : deployWrites w0 w -> statusWrites w0 w.
Proof.
  intros [Hext Hst]. split; [exact Hext|]. intros path.
  destruct (Hst path) as [Heq|(sc & Hsc & [Hp|Hd])]; [now left|right..];
    exists sc; auto.
Qed.

Lemma destroyedSince_record w0 w ev :
  destroyedSince w0 w -> destroyedSince w0 (record w ev).
Proof.
  intros (evs & Htr & dir & a & v & Hin). exists (evs ++ [ev]). split.
  - simpl. now rewrite Htr, app_assoc.
  - exists dir, a, v. apply in_app_iff. now left.
Qed.

Lemma destroyedSince_destroy w0 w dir autoApprove vars :
  statusWrites w0 w ->
  destroyedSince w0
    (record w (EvEngine (CallDestroy dir autoApprove vars) None)).
Proof.
  intros [(evs & Htr) _].
  exists (evs ++ [EvEngine (CallDestroy dir autoApprove vars) None]). split.
  - simpl. now rewrite Htr, app_assoc.
  - exists dir, autoApprove, vars. apply in_app_iff. right. now left.
Qed.

Lemma appliedSince_trans_l w0 w1 w2 :
  appliedSince w0 w1 -> (exists evs, trace w2 = trace w1 ++ evs) ->
  appliedSince w0 w2.
Proof.
  intros (evs1 & Htr1 & dir & a & v & Hin) (evs2 & Htr2).
  exists (evs1 ++ evs2). split; [now rewrite Htr2, Htr1, app_assoc|].
  exists dir, a, v. apply in_app_iff. now left.
Qed.

Lemma appliedSince_trans_r w0 w1 w2 :
  (exists evs, trace w1 = trace w0 ++ evs) -> appliedSince w1 w2 ->
  appliedSince w0 w2.
Proof.
  intros (evs1 & Htr1) (evs2 & Htr2 & dir & a & v & Hin).
  exists (evs1 ++ evs2). split; [now rewrite Htr2, Htr1, app_assoc|].
  exists dir, a, v. apply in_app_iff. now right.
Qed.

Lemma destroyedSince_trans_l w0 w1 w2 :
  destroyedSince w0 w1 -> (exists evs, trace w2 = trace w1 ++ evs) ->
  destroyedSince w0 w2.
Proof.
  intros (evs1 & Htr1 & dir & a & v & Hin) (evs2 & Htr2).
  exists (evs1 ++ evs2). split; [now rewrite Htr2, Htr1, app_assoc|].
  exists dir, a, v. apply in_app_iff. now left.
Qed.

Lemma destroyedSince_trans_r w0 w1 w2 :
  (exists evs, trace w1 = trace w0 ++ evs) -> destroyedSince w1 w2 ->
  destroyedSince w0 w2.
Proof.
  intros (evs1 & Htr1) (evs2 & Htr2 & dir & a & v & Hin).
  exists (evs1 ++ evs2). split; [now rewrite Htr2, Htr1, app_assoc|].
  exists dir, a, v. apply in_app_iff. now right.
Qed.

Lemma statusWrites_record w0 w ev :
  statusWrites w0 w -> statusWrites w0 (record w ev).
Proof.
  intros [(evs & Htr) Hst]. split.
  - exists (evs ++ [ev]). simpl. now rewrite Htr, app_assoc.
  - intros path. destruct (Hst path) as [Heq|(sc & Hsc & Hstatus)];
      [now left|right].
    exists sc. split; [exact Hsc|].
    destruct Hstatus as [Hp|[[Hd Happ]|[Hd Hdes]]]; [now left|right..].
    + left. split; [exact Hd|]. now apply appliedSince_record.
    + right. split; [exact Hd|]. now apply destroyedSince_record.
Qed.

Lemma statusWrites_store_destroyed w0 w path sc :
  statusWrites w0 w -> Status sc = "destroyed" -> destroyedSince w0 w ->
  statusWrites w0 (with_scenarios w (<[path := sc]> (scenarios w))).
Proof.
  intros [Hext Hst] Hsc Hdes. split; [exact Hext|].
  intros path'. simpl. destruct (decide (path = path')) as [<-|Hne].
  - right. exists sc. rewrite lookup_insert_eq. split; [reflexivity|].
    right. right. now split.
  - rewrite lookup_insert_ne by exact Hne. exact (Hst path').
Qed.

Lemma statusWrites_evolves w0 w w' evs :
  statusWrites w0 w -> evolves w w' evs -> statusWrites w0 w'.
Proof.
  intros [(evs0 & Htr0) Hst] (Htr & Hsc & _).
  assert (Hext : exists evs', trace w' = trace w ++ evs') by now exists evs.
  split.
  - exists (evs0 ++ evs). now rewrite Htr, Htr0, app_assoc.
  - intros path. rewrite Hsc.
    destruct (Hst path) as [Heq|(sc & Hlook & Hstatus)]; [now left|right].
    exists sc. split; [exact Hlook|].
    destruct Hstatus as [Hp|[[Hd Happ]|[Hd Hdes]]]; [now left|right..].
    + left. split; [exact Hd|]. eapply appliedSince_trans_l; eassumption.
    + right. split; [exact Hd|]. eapply destroyedSince_trans_l; eassumption.
Qed.

Lemma statusWrites_trans w0 w1 w2 :
  statusWrites w0 w1 -> statusWrites w1 w2 -> statusWrites w0 w2.
Proof.
  intros [Hext1 Hst1] [Hext2 Hst2]. split.
  - destruct Hext1 as (evs1 & Htr1), Hext2 as (evs2 & Htr2).
    exists (evs1 ++ evs2). now rewrite Htr2, Htr1, app_assoc.
  - intros path. destruct (Hst2 path) as [Heq|(sc & Hlook & Hstatus)].
    + rewrite Heq.
      destruct (Hst1 path) as [Heq1|(sc & Hlook & Hstatus)]; [now left|right].
      exists sc. split; [exact Hlook|].
      destruct Hstatus as [Hp|[[Hd Happ]|[Hd Hdes]]]; [now left|right..].
      * left. split; [exact Hd|]. eapply appliedSince_trans_l; eassumption.
      * right. split; [exact Hd|].
        eapply destroyedSince_trans_l; eassumption.
    + right. exists sc. split; [exact Hlook|].
      destruct Hstatus as [Hp|[[Hd Happ]|[Hd Hdes]]]; [now left|right..].
      * left. split; [exact Hd|]. eapply appliedSince_trans_r; eassumption.
      * right. split; [exact Hd|].
        eapply destroyedSince_trans_r; eassumption.
Qed.

Ltac solve_status :=
  lazymatch goal with
  | |- statusWrites _ (record _ _) =>
      apply statusWrites_record; solve_status
  | |- statusWrites _ (with_scenarios _ (<[_ := _]> _)) =>
      apply statusWrites_store_destroyed;
        [solve_status|reflexivity|solve_destroyed]
  | |- statusWrites ?w ?w => apply statusWrites_refl
  | |- statusWrites _ _ => assumption
  end
with solve_destroyed :=
  lazymatch goal with
  | |- destroyedSince _ (record _ (EvEngine (CallDestroy _ _ _) None)) =>
      apply destroyedSince_destroy; solve_status
  | |- destroyedSince _ (record _ _) =>
      apply destroyedSince_record; solve_destroyed
  | |- destroyedSince _ _ => assumption
  end.

Section Deploy.
Variable ProjectDir : string.
Variable cm : credentialManager.
Variable DescribeSpotPriceHistory :
  string -> string -> string -> string -> CmdOutput nat.
Variable DescribeInstanceTypeConfigs :
  string -> string -> string -> string -> CmdOutput (list InstanceTypeConfig).
Variable DescribeInstanceFamilyConfigs :
  string -> string -> string -> string -> CmdOutput (list InstanceTypeConfig).
Context {scheduler : Scheduler}.
Variable terraformSvc : Engine.
Variable copyTemplate : string -> string -> string -> option string.

Lemma markDeployed_writes projectName scenarioID scenario format args w0 w :
  deployWrites w0 w -> appliedSince w0 w ->
  wp (markDeployed ProjectDir projectName scenarioID scenario format args) w
     (fun _ w' => deployWrites w0 w').
Proof. intros Hw Happ. unfold markDeployed. wp_exec; solve_writes. Qed.

Lemma deployAliyunProxyScenario_writes projectName scenarioID autoApprove
    nodeCount toolName toolArgs scenario w0 w :
  deployWrites w0 w ->
  wp (deployAliyunProxyScenario ProjectDir cm terraformSvc projectName
        scenarioID autoApprove nodeCount toolName toolArgs scenario) w
     (fun _ w' => deployWrites w0 w').
Proof. intros Hw. unfold deployAliyunProxyScenario. wp_exec; solve_writes. Qed.

Lemma deployRegionTurn_writes projectName autoApprove nodeCount toolName
    toolArgs scenario project lastErr reg w0 w :
  deployWrites w0 w ->
  wp (deployRegionTurn ProjectDir cm terraformSvc copyTemplate projectName
        autoApprove nodeCount toolName toolArgs scenario project lastErr reg)
     w (fun _ w' => deployWrites w0 w').
Proof.
  intros Hw. unfold deployRegionTurn.
  repeat first
    [wp_step; intros
    |eapply wp_mono;
       [apply deployAliyunProxyScenario_writes with (w0 := w0); solve_writes
       |intros]];
    solve_writes.
Qed.

Lemma deployRegions_writes projectName autoApprove nodeCount toolName
    toolArgs scenario project regions w0 :
  forall lastErr successCount w,
    deployWrites w0 w ->
    wp (deployRegions ProjectDir cm terraformSvc copyTemplate projectName
          autoApprove nodeCount toolName toolArgs scenario project regions
          lastErr successCount) w
       (fun _ w' => deployWrites w0 w').
Proof.
  induction regions as [|reg rest IH]; intros lastErr successCount w Hw.
  - now apply wp_ret.
  - cbn [deployRegions]. wp_step.
    eapply wp_mono; [now apply deployRegionTurn_writes with (w0 := w0)|].
    intros turn w1 Hw1. now apply IH.
Qed.

Lemma deployAliyunProxyWithRegion_writes projectName scenarioID autoApprove
    nodeCount toolName toolArgs scenario region w0 w :
  deployWrites w0 w ->
  wp (deployAliyunProxyWithRegion ProjectDir cm terraformSvc copyTemplate
        projectName scenarioID autoApprove nodeCount toolName toolArgs
        scenario region) w
     (fun _ w' => deployWrites w0 w').
Proof.
  intros Hw. unfold deployAliyunProxyWithRegion. cbv zeta.
  repeat first
    [wp_step; intros
    |eapply wp_mono;
       [first
          [apply deployAliyunProxyScenario_writes with (w0 := w0)
          |apply deployRegions_writes with (w0 := w0)];
        solve_writes
       |intros]];
    solve_writes.
Qed.

Lemma placed_applied evs :
  placedRegions evs <> [] -> someApplied evs.
Proof.
  induction evs as [|ev evs IH]; [now intros []|].
  unfold placedRegions. simpl. intros Hne.
  destruct (applied ev) as [|r rs] eqn:Hev.
  - destruct (IH Hne) as (d & a & v & Hin). exists d, a, v. now right.
  - destruct ev as [[| | |d a v|] [msg|]| |]; try discriminate.
    exists d, a, v. now left.
Qed.

Lemma deployAcrossMultipleRegions_writes projectName scenarioID autoApprove
    totalNodeCount toolName toolArgs scenario baseVars regions w0 w :
  (0 < totalNodeCount)%Z ->
  deployWrites w0 w ->
  wp (deployAcrossMultipleRegions ProjectDir terraformSvc projectName
        scenarioID autoApprove totalNodeCount toolName toolArgs scenario
        baseVars regions) w
     (fun _ w' => deployWrites w0 w').
Proof.
  intros Hpos Hw. unfold deployAcrossMultipleRegions.
  wp_step. wp_step.
  destruct (Z.of_nat (length regions) =? 0)%Z; [wp_step; solve_writes|].
  wp_step. eapply wp_mono; [apply FragmentClaims.placeNodes_post|].
  intros [remainingNodes deployedRegions] w1
    (evs & Hev & _ & _ & Hrem & _).
  cbn [fst snd] in *.
  assert (Hw1 : deployWrites w0 w1).
  { eapply deployWrites_evolves; [|exact Hev]. solve_writes. }
  destruct (0 <? remainingNodes)%Z eqn:Hleft; [wp_step; exact Hw1|].
  wp_step. eapply wp_mono.
  - apply markDeployed_writes with (w0 := w0); [exact Hw1|].
    apply Z.ltb_ge in Hleft.
    destruct Hw as [(evs0 & Htr0) _]. destruct Hev as (Htr & _ & _).
    eexists. split.
    + rewrite Htr. simpl. rewrite Htr0, <- !app_assoc. reflexivity.
    + assert (Happ : someApplied evs).
      { apply placed_applied. intros Hnil. rewrite Hnil in Hrem.
        simpl in Hrem. lia. }
      destruct Happ as (d & a & v & Hin). exists d, a, v.
      apply in_app_iff. right. apply in_app_iff. now right.
  - intros err w2 Hw2. now wp_step.
Qed.

Lemma tryRegions_writes projectName scenarioID autoApprove scenario
    originalVars originalErr regions w0 :
  forall w,
    deployWrites w0 w ->
    wp (tryRegions ProjectDir terraformSvc projectName scenarioID autoApprove
          scenario originalVars originalErr regions) w
       (fun _ w' => deployWrites w0 w').
Proof.
  induction regions as [|region rest IH]; intros w Hw.
  - now apply wp_ret.
  - cbn [tryRegions]. cbv zeta.
    wp_exec;
      lazymatch goal with
      | |- wp (tryRegions _ _ _ _ _ _ _ _ _) _ _ => apply IH; solve_writes
      | |- _ => solve_writes
      end.
Qed.

Lemma actualNodeCountOf_positive nodeCount vars :
  (0 < actualNodeCountOf nodeCount vars)%Z.
Proof.
  unfold actualNodeCountOf.
  destruct (nodeCount <=? 0)%Z eqn:Hn; [|lia].
  match goal with
  | |- context [if (?n <=? 0)%Z then _ else _] =>
      destruct (n <=? 0)%Z eqn:Hn'; lia
  end.
Qed.

Lemma retryDeployWithDifferentRegions_writes projectName scenarioID
    autoApprove nodeCount toolName toolArgs scenario originalVars originalErr
    w0 w :
  deployWrites w0 w ->
  wp (retryDeployWithDifferentRegions ProjectDir terraformSvc projectName
        scenarioID autoApprove nodeCount toolName toolArgs scenario
        originalVars originalErr) w
     (fun _ w' => deployWrites w0 w').
Proof.
  intros Hw. unfold retryDeployWithDifferentRegions. cbv zeta.
  wp_step. wp_step. wp_step.
  - apply deployAcrossMultipleRegions_writes;
      [apply actualNodeCountOf_positive|solve_writes].
  - wp_step. eapply wp_mono;
      [apply tryRegions_writes with (w0 := w0); solve_writes|].
    intros err w1 Hw1. now wp_step.
Qed.

Lemma chooseTencentRegion_writes vars w0 w :
  deployWrites w0 w ->
  wp (chooseTencentRegion cm DescribeSpotPriceHistory
        DescribeInstanceTypeConfigs DescribeInstanceFamilyConfigs vars) w
     (fun _ w' => deployWrites w0 w').
Proof. intros Hw. unfold chooseTencentRegion. wp_exec; solve_writes. Qed.

Lemma tencentVars_writes templatePath vars w0 w :
  deployWrites w0 w ->
  wp (tencentVars cm DescribeSpotPriceHistory DescribeInstanceTypeConfigs
        DescribeInstanceFamilyConfigs templatePath vars) w
     (fun _ w' => deployWrites w0 w').
Proof.
  intros Hw. unfold tencentVars.
  repeat first
    [wp_step; intros
    |apply chooseTencentRegion_writes];
    solve_writes.
Qed.

Lemma toolVars_writes template projectName scenarioID toolName toolArgs vars
    w0 w :
  deployWrites w0 w ->
  wp (toolVars cm template projectName scenarioID toolName toolArgs vars) w
     (fun _ w' => deployWrites w0 w').
Proof. intros Hw. unfold toolVars. wp_exec; solve_writes. Qed.

Lemma spreadNodeCount_positive template nodeCount vars n :
  spreadNodeCount template nodeCount vars = Some n -> (0 < n)%Z.
Proof.
  unfold spreadNodeCount.
  destruct (Contains template "tencent/"); [|discriminate].
  destruct (1 <? actualNodeCountOf nodeCount vars)%Z eqn:Hn;
    [|discriminate].
  apply Z.ltb_lt in Hn. cbn [andb].
  destruct (negb _); [|discriminate].
  destruct (match vars !! "enable_spot" with
            | Some _ => _ | None => _ end); [|discriminate].
  intros [= <-]. lia.
Qed.

Lemma DeployScenario_writes projectName scenarioID autoApprove nodeCount
    toolName toolArgs region w :
  wp (DeployScenario ProjectDir cm DescribeSpotPriceHistory
        DescribeInstanceTypeConfigs DescribeInstanceFamilyConfigs terraformSvc
        copyTemplate projectName scenarioID autoApprove nodeCount toolName
        toolArgs region) w
     (fun _ w' => deployWrites w w').
Proof.
  unfold DeployScenario.
  repeat first
    [wp_step; intros
    |eapply wp_mono;
       [first
          [apply deployAliyunProxyScenario_writes with (w0 := w)
          |apply deployAliyunProxyWithRegion_writes with (w0 := w)
          |apply tencentVars_writes with (w0 := w)
          |apply toolVars_writes with (w0 := w)
          |apply markDeployed_writes with (w0 := w)];
        first [solve_writes|solve_applied; solve_writes]
       |intros]
    |apply retryDeployWithDifferentRegions_writes
    |apply deployAcrossMultipleRegions_writes;
       [eapply spreadNodeCount_positive; eassumption|]];
    solve_writes.
Qed.

(** *** Destroy *)

Lemma destroyVars_evolves templatePath w :
  wp (destroyVars cm templatePath) w (fun _ w' => exists evs, evolves w w' evs).
Proof. unfold destroyVars. wp_exec; eexists; solve_evolves. Qed.

Lemma DestroyScenario_writes projectName scenarioID autoApprove w :
  wp (DestroyScenario ProjectDir cm terraformSvc projectName scenarioID
        autoApprove) w
     (fun _ w' => statusWrites w w').
Proof.
  unfold DestroyScenario.
  wp_step. wp_step. wp_step. wp_step.
  - intros msg. wp_exec. solve_status.
  - intros stored Hstored. wp_step.
    eapply wp_mono; [apply destroyVars_evolves|].
    intros vars w1 (evs & Hev). cbv beta.
    assert (Hw1 : statusWrites w w1).
    { eapply statusWrites_evolves; [|exact Hev]. solve_status. }
    wp_exec; solve_status.
Qed.

(** *** Sequences of operations *)

(** One invocation of the service on a scenario. *)
Inductive Operation : Type :=
| Deploy (projectName scenarioID : string) (autoApprove : bool)
    (nodeCount : Z) (toolName toolArgs region : string)
| Destroy (projectName scenarioID : string) (autoApprove : bool).

Definition perform (op : Operation) : M unit :=
  match op with
  | Deploy projectName scenarioID autoApprove nodeCount toolName toolArgs
      region =>
      do _ <- DeployScenario ProjectDir cm DescribeSpotPriceHistory
                DescribeInstanceTypeConfigs DescribeInstanceFamilyConfigs
                terraformSvc copyTemplate projectName scenarioID autoApprove
                nodeCount toolName toolArgs region;
      ret tt
  | Destroy projectName scenarioID autoApprove =>
      do _ <- DestroyScenario ProjectDir cm terraformSvc projectName
                scenarioID autoApprove;
      ret tt
  end.

Fixpoint performAll (ops : list Operation) : M unit :=
  match ops with
  | [] => ret tt
  | op :: rest => exec perform op; performAll rest
  end.

Lemma perform_writes op w :
  wp (perform op) w (fun _ w' => statusWrites w w').
Proof.
  destruct op; cbn [perform]; wp_step.
  - eapply wp_mono; [apply DeployScenario_writes|].
    intros out w1 Hw1. wp_step. now apply deployWrites_statusWrites.
  - eapply wp_mono; [apply DestroyScenario_writes|].
    intros err w1 Hw1. now wp_step.
Qed.

Lemma performAll_writes ops :
  forall w, wp (performAll ops) w (fun _ w' => statusWrites w w').
Proof.
  induction ops as [|op rest IH]; intros w; cbn [performAll].
  - wp_step. apply statusWrites_refl.
  - wp_step. eapply wp_mono; [apply perform_writes|].
    intros [] w1 Hw1. eapply wp_mono; [apply IH|].
    intros [] w2 Hw2. eapply statusWrites_trans; eassumption.
Qed.

(** C4, amended: over every sequence of deploy and destroy operations, a
    stored scenario record is either what it was before the sequence, or it
    is pending, or it is deployed and some engine apply of the sequence
    succeeded, or it is destroyed and some engine destroy of the sequence
    succeeded.  The status a record had before is not part of the
    condition: neither operation reads it. *)
Theorem status_written_only_after_successful_engine_call ops w path :
  let w' := snd (performAll ops w) in
  scenarios w' !! path = scenarios w !! path \/
  exists sc,
    scenarios w' !! path = Some sc /\
    (Status sc = "pending" \/
     (Status sc = "deployed" /\ appliedSince w w') \/
     (Status sc = "destroyed" /\ destroyedSince w w')).
Proof.
  cbv zeta. destruct (performAll_writes ops w) as [_ Hst]. exact (Hst path).
Qed.

End Deploy.

(** C4, as stated, fails: a pending scenario that is destroyed becomes
    destroyed without having been deployed, and deploying it afterwards makes
    it deployed from destroyed. *)
Lemma destroy_of_pending_then_deploy_of_destroyed :
  let run ops :=
    snd (performAll projectDir aliyunConfigured historyDown configsDown
           configsDown (scheduler := fifo) engineOk copyOk ops
           (worldWith "aliyun/ecs" "pending")) in
  storedStatus (run []) "demo" "s1" = Some "pending" /\
  storedStatus (run [Destroy "demo" "s1" true]) "demo" "s1" =
    Some "destroyed" /\
  storedStatus
    (run [Destroy "demo" "s1" true; Deploy "demo" "s1" true 1 "" "" ""])
    "demo" "s1" = Some "deployed".
Proof. vm_compute. repeat split. Qed.

End StatusClaims.

(** * Further properties of the code *)

(** ** Strings *)

Module StringFacts.

Lemma prefix_cons a sub b s :
  String.prefix (String a sub) (String b s) =
  if ascii_dec a b then String.prefix sub s else false.
Proof. reflexivity. Qed.

Lemma prefix_occurs sub s :
  String.prefix sub s = true <-> exists post, s = sub +:+ post.
Proof.
  revert s. induction sub as [|a sub IH]; intros s.
  - split; [intros _; now exists s|intros _; now destruct s].
  - destruct s as [|b s].
    + split; [discriminate|intros (post & Hs); discriminate].
    + rewrite prefix_cons. destruct (ascii_dec a b) as [<-|Hne].
      * rewrite IH. split; intros (post & Hs); exists post.
        -- simpl. now rewrite Hs.
        -- simpl in Hs. now injection Hs.
      * split; [discriminate|].
        intros (post & Hs). simpl in Hs. injection Hs as Hb _. congruence.
Qed.

Lemma length_append (s1 s2 : string) :
  String.length (s1 +:+ s2) = (String.length s1 + String.length s2)%nat.
Proof. induction s1 as [|a s1 IH]; simpl; [reflexivity|now rewrite IH]. Qed.

Lemma prefix_length sub s :
  String.prefix sub s = true -> (String.length sub <= String.length s)%nat.
Proof.
  rewrite prefix_occurs. intros (post & ->).
  rewrite length_append. lia.
Qed.

Lemma append_assoc (s1 s2 s3 : string) :
  (s1 +:+ s2) +:+ s3 = s1 +:+ (s2 +:+ s3).
Proof.
  induction s1 as [|a s1 IH]; [reflexivity|].
  change (String a ((s1 +:+ s2) +:+ s3) = String a (s1 +:+ (s2 +:+ s3))).
  now rewrite IH.
Qed.

Lemma append_inv_head (s t1 t2 : string) : s +:+ t1 = s +:+ t2 -> t1 = t2.
Proof.
  induction s as [|a s IH]; [auto|].
  change (String a (s +:+ t1) = String a (s +:+ t2) -> t1 = t2).
  intros H. injection H. auto.
Qed.

Lemma substring_whole (s : string) : substring 0 (String.length s) s = s.
Proof. induction s as [|a s IH]; simpl; [reflexivity|now rewrite IH]. Qed.

Lemma substring_after (s t : string) :
  substring (String.length s) (String.length t) (s +:+ t) = t.
Proof.
  induction s as [|a s IH]; [apply substring_whole|exact IH].
Qed.

End StringFacts.

(** ** The price repository *)

Module PriceRepoFacts.
Import PriceRepo FloatOrder SortFacts StringFacts.

(** *** Substrings *)

Lemma Contains_occurs s sub :
  Contains s sub = true <-> exists pre post, s = pre +:+ sub +:+ post.
Proof.
  induction s as [|c s IH]; cbn [Contains]; rewrite orb_true_iff.
  - rewrite prefix_occurs. split.
    + intros [(post & Hs)|Hf]; [|discriminate]. now exists "", post.
    + intros (pre & post & Hs). left. destruct pre; [|discriminate].
      now exists post.
  - rewrite prefix_occurs, IH. split.
    + intros [(post & Hs)|(pre & post & Hs)].
      * now exists "", post.
      * exists (String c pre), post. simpl. now rewrite Hs.
    + intros (pre & post & Hs). destruct pre as [|c' pre].
      * left. now exists post.
      * right. exists pre, post. simpl in Hs. now injection Hs.
Qed.

Lemma containsFrom_tail c s sub i steps :
  containsFrom (String c s) sub (S i) steps = containsFrom s sub i steps.
Proof.
  revert i. induction steps as [|steps IH]; intros i; [reflexivity|].
  cbn [containsFrom]. rewrite IH. reflexivity.
Qed.

Lemma eqb_substring_prefix sub s :
  String.eqb (substring 0 (String.length sub) s) sub = String.prefix sub s.
Proof.
  destruct (String.prefix sub s) eqn:Hp.
  - apply String.eqb_eq. now apply prefix_correct.
  - apply String.eqb_neq. intros Heq. apply prefix_correct in Heq. congruence.
Qed.

Lemma contains_Contains s sub : contains s sub = Contains s sub.
Proof.
  induction s as [|c s IH].
  - unfold contains. destruct sub as [|a sub]; reflexivity.
  - cbn [Contains]. rewrite <- IH. unfold contains.
    cbn [String.length].
    destruct (Nat.ltb_spec (S (String.length s)) (String.length sub))
      as [Hlt|Hge].
    + destruct (Nat.ltb_spec (String.length s) (String.length sub)); [|lia].
      destruct (String.prefix sub (String c s)) eqn:Hp; [|reflexivity].
      apply prefix_length in Hp. cbn [String.length] in Hp. lia.
    + replace (S (String.length s) - String.length sub + 1)%nat
        with (S (S (String.length s) - String.length sub)) by lia.
      cbn [containsFrom]. rewrite eqb_substring_prefix, containsFrom_tail.
      destruct (String.prefix sub (String c s)); [reflexivity|]. simpl.
      destruct (Nat.ltb_spec (String.length s) (String.length sub))
        as [Hlt'|Hge'].
      * now replace (S (String.length s) - String.length sub)%nat
          with O by lia.
      * now replace (S (String.length s) - String.length sub)%nat
          with (String.length s - String.length sub + 1)%nat by lia.
Qed.

(** X1. [contains s substr] holds exactly when [substr] occurs in [s]:
    [s] is some text, then [substr], then some text.  In particular the
    empty string is contained in every string. *)
Theorem contains_iff_occurs s substr :
  contains s substr = true <-> exists pre post, s = pre +:+ substr +:+ post.
Proof. rewrite contains_Contains. apply Contains_occurs. Qed.

(** X2. The table of [matchesType] adds nothing: a template matches a type
    exactly when its name contains the type as a substring, because every
    name the table lists for a type contains that type. *)
Theorem matchesType_is_contains template templateType :
  matchesType template templateType = contains template templateType.
Proof.
  unfold matchesType.
  destruct (typeMap !! templateType) as [types|] eqn:Hty; [|reflexivity].
  destruct (existsb _ types) eqn:Hin; [|reflexivity].
  symmetry. apply existsb_exists in Hin as (t & Ht & Heq).
  apply String.eqb_eq in Heq as <-.
  unfold typeMap in Hty. cbn [list_to_map foldr uncurry fst snd] in Hty.
  repeat (apply lookup_insert_Some in Hty as [[<- <-]|[_ Hty]];
          [repeat (destruct Ht as [<-|Ht]; [vm_compute; reflexivity|]);
           destruct Ht|]).
  now rewrite lookup_empty in Hty.
Qed.

(** *** Ranking *)

(** The prices [ComparePrices] works with. *)
Definition cnyPerHour (p : PriceInfo) : float :=
  convertToCNY (PricePerHour p) (Currency p).

Definition cnyPerMonth (p : PriceInfo) : float :=
  convertToCNY (PricePerMonth p) (Currency p).

(** What the range loop has established of the options seen so far: none is
    below a minimum or above a maximum, and each bound is the price of one
    of them. *)
Record within (seen : list PriceInfo) (rg : PriceRange) : Prop := {
  hour_not_below : forall p, In p seen ->
    PrimFloat.ltb (cnyPerHour p) (MinPerHour rg) = false;
  hour_not_above : forall p, In p seen ->
    PrimFloat.ltb (MaxPerHour rg) (cnyPerHour p) = false;
  month_not_below : forall p, In p seen ->
    PrimFloat.ltb (cnyPerMonth p) (MinPerMonth rg) = false;
  month_not_above : forall p, In p seen ->
    PrimFloat.ltb (MaxPerMonth rg) (cnyPerMonth p) = false;
  min_hour_attained : exists p, In p seen /\ MinPerHour rg = cnyPerHour p;
  max_hour_attained : exists p, In p seen /\ MaxPerHour rg = cnyPerHour p;
  min_month_attained : exists p, In p seen /\ MinPerMonth rg = cnyPerMonth p;
  max_month_attained : exists p, In p seen /\ MaxPerMonth rg = cnyPerMonth p
}.

Lemma not_below_min a m q :
  PrimFloat.ltb q m = false ->
  PrimFloat.ltb q (if PrimFloat.ltb a m then a else m) = false.
Proof.
  intros Hq. destruct (PrimFloat.ltb a m) eqn:Ham; [|exact Hq].
  destruct (PrimFloat.ltb q a) eqn:Hqa; [|reflexivity].
  rewrite <- Hq. symmetry. now apply (ltb_trans q a m).
Qed.

Lemma not_above_max a m q :
  PrimFloat.ltb m q = false ->
  PrimFloat.ltb (if PrimFloat.ltb m a then a else m) q = false.
Proof.
  intros Hq. destruct (PrimFloat.ltb m a) eqn:Hma; [|exact Hq].
  destruct (PrimFloat.ltb a q) eqn:Haq; [|reflexivity].
  rewrite <- Hq. symmetry. now apply (ltb_trans m a q).
Qed.

Lemma self_not_below_min a m :
  PrimFloat.ltb a (if PrimFloat.ltb a m then a else m) = false.
Proof.
  destruct (PrimFloat.ltb a m) eqn:Ham; [apply ltb_irrefl|exact Ham].
Qed.

Lemma self_not_above_max a m :
  PrimFloat.ltb (if PrimFloat.ltb m a then a else m) a = false.
Proof.
  destruct (PrimFloat.ltb m a) eqn:Hma; [apply ltb_irrefl|exact Hma].
Qed.

Lemma rangeTurn_index acc p : fst (rangeTurn acc p) = S (fst acc).
Proof. unfold rangeTurn. now destruct (fst acc =? 0)%nat. Qed.

Lemma rangeTurn_first rg p : within [p] (snd (rangeTurn (O, rg) p)).
Proof.
  split; cbn; try (intros q [<-|[]]; apply ltb_irrefl);
    exists p; split; auto; now left.
Qed.

Lemma rangeTurn_next i seen rg p :
  within seen rg -> within (seen ++ [p]) (snd (rangeTurn (S i, rg) p)).
Proof.
  intros [Hh Hh' Hm Hm' (a & Ha & Ea) (b & Hb & Eb) (c & Hc & Ec)
          (d & Hd & Ed)].
  split; cbn.
  - intros q Hq. apply in_app_iff in Hq as [Hq|[<-|[]]].
    + apply not_below_min. now apply Hh.
    + apply self_not_below_min.
  - intros q Hq. apply in_app_iff in Hq as [Hq|[<-|[]]].
    + apply not_above_max. now apply Hh'.
    + apply self_not_above_max.
  - intros q Hq. apply in_app_iff in Hq as [Hq|[<-|[]]].
    + apply not_below_min. now apply Hm.
    + apply self_not_below_min.
  - intros q Hq. apply in_app_iff in Hq as [Hq|[<-|[]]].
    + apply not_above_max. now apply Hm'.
    + apply self_not_above_max.
  - destruct (PrimFloat.ltb _ (MinPerHour rg)).
    + exists p. split; [apply in_app_iff; right; now left|reflexivity].
    + exists a. split; [apply in_app_iff; now left|exact Ea].
  - destruct (PrimFloat.ltb (MaxPerHour rg) _).
    + exists p. split; [apply in_app_iff; right; now left|reflexivity].
    + exists b. split; [apply in_app_iff; now left|exact Eb].
  - destruct (PrimFloat.ltb _ (MinPerMonth rg)).
    + exists p. split; [apply in_app_iff; right; now left|reflexivity].
    + exists c. split; [apply in_app_iff; now left|exact Ec].
  - destruct (PrimFloat.ltb (MaxPerMonth rg) _).
    + exists p. split; [apply in_app_iff; right; now left|reflexivity].
    + exists d. split; [apply in_app_iff; now left|exact Ed].
Qed.

Lemma fold_rangeTurn_within l :
  forall seen i rg,
    within seen rg ->
    within (seen ++ l) (snd (fold_left rangeTurn l (S i, rg))).
Proof.
  induction l as [|p l IH]; intros seen i rg Hin; cbn [fold_left].
  - now rewrite app_nil_r.
  - replace (seen ++ p :: l) with ((seen ++ [p]) ++ l)
      by now rewrite <- app_assoc.
    pose proof (rangeTurn_next i seen rg p Hin) as Hnext.
    destruct (rangeTurn (S i, rg) p) as [j rg'] eqn:Hturn.
    assert (Hj : j = S (S i)).
    { change j with (fst (j, rg')). rewrite <- Hturn.
      apply rangeTurn_index. }
    subst j. now apply IH.
Qed.

Lemma range_within first others rg :
  within (first :: others)
         (snd (fold_left rangeTurn (first :: others) (O, rg))).
Proof.
  cbn [fold_left].
  pose proof (rangeTurn_first rg first) as Hfirst.
  destruct (rangeTurn (O, rg) first) as [j rg'] eqn:Hturn.
  assert (Hj : j = 1%nat).
  { change j with (fst (j, rg')). rewrite <- Hturn. apply rangeTurn_index. }
  subst j. now apply (fold_rangeTurn_within others [first]).
Qed.

(** Nothing below the running minimum leaves it as it is. *)
Lemma fold_rangeTurn_min l :
  forall i rg,
    (forall p, In p l ->
       PrimFloat.ltb (cnyPerMonth p) (MinPerMonth rg) = false) ->
    MinPerMonth (snd (fold_left rangeTurn l (S i, rg))) = MinPerMonth rg.
Proof.
  induction l as [|p l IH]; intros i rg Hl; cbn [fold_left]; [reflexivity|].
  destruct (rangeTurn (S i, rg) p) as [j rg'] eqn:Hturn.
  assert (Hj : j = S (S i)).
  { change j with (fst (j, rg')). rewrite <- Hturn. apply rangeTurn_index. }
  assert (Hmin : MinPerMonth rg' = MinPerMonth rg).
  { change rg' with (snd (j, rg')). rewrite <- Hturn. cbn.
    fold (cnyPerMonth p). rewrite (Hl p); [reflexivity|now left]. }
  subst j. rewrite IH; [exact Hmin|].
  intros q Hq. rewrite Hmin. apply Hl. now right.
Qed.

Lemma strict_weak_month (x : list PriceInfo) :
  (forall p, In p x -> not_nan (cnyPerMonth p)) ->
  strict_weak lessPerMonth x.
Proof.
  intros Hnum. split; unfold lessPerMonth.
  - intros a _. apply ltb_irrefl.
  - intros a b c _ _ _. apply ltb_trans.
  - intros a b c _ Hb _. apply ltb_negtrans. now apply Hnum.
Qed.

Lemma GetPricesByType_no_error now r templateType :
  exists found, fst (GetPricesByType now r templateType) = Ok found.
Proof.
  unfold GetPricesByType. destruct (priceFetcher r) as [f|]; [|eauto].
  destruct (FetchPricesByType f now templateType) as [[|p l]|msg]; eauto.
Qed.

Section Compare.
Context {sorter : SliceSorter}.

Lemma ComparePrices_found now r templateType first others :
  fst (GetPricesByType now r templateType) = Ok (first :: others) ->
  fst (ComparePrices now r templateType) =
  Ok {| TemplateType := templateType;
        Options := sort_Slice lessPerMonth (first :: others);
        BestOption := head (sort_Slice lessPerMonth (first :: others));
        Range :=
          snd (fold_left rangeTurn
                 (sort_Slice lessPerMonth (first :: others))
                 (O, {| MinPerHour := 0; MaxPerHour := 0; MinPerMonth := 0;
                        MaxPerMonth := 0 |})) |}.
Proof.
  unfold ComparePrices.
  destruct (GetPricesByType now r templateType) as [found r'].
  simpl. now intros ->.
Qed.

(** X3. When some price has the type asked for and the monthly prices in
    CNY are numbers, [ComparePrices] returns every found price exactly once,
    in ascending order of the monthly price in CNY; [BestOption] is the
    first of them, no found price is below it, and [MinPerMonth] is its
    monthly price in CNY. *)
Theorem ComparePrices_best_is_cheapest now r templateType found :
  fst (GetPricesByType now r templateType) = Ok found ->
  found <> [] ->
  (forall p, In p found -> not_nan (cnyPerMonth p)) ->
  exists comparison best,
    fst (ComparePrices now r templateType) = Ok comparison /\
    Permutation (Options comparison) found /\
    ascending lessPerMonth (Options comparison) /\
    BestOption comparison = Some best /\
    head (Options comparison) = Some best /\
    In best found /\
    (forall p, In p found ->
       PrimFloat.ltb (cnyPerMonth p) (cnyPerMonth best) = false) /\
    MinPerMonth (Range comparison) = cnyPerMonth best.
Proof.
  intros Hfound Hne Hnum.
  destruct found as [|first others]; [congruence|].
  rewrite (ComparePrices_found now r templateType first others Hfound).
  set (found := first :: others) in *.
  assert (Hsw : strict_weak lessPerMonth found)
    by now apply strict_weak_month.
  pose proof (sort_Slice_Permutation lessPerMonth found) as Hperm.
  pose proof (sort_Slice_ascending lessPerMonth found Hsw) as Hasc.
  destruct (sort_Slice lessPerMonth found) as [|best rest] eqn:Hsorted.
  { apply Permutation_nil in Hperm. discriminate. }
  assert (Hleast : forall p, In p found ->
            PrimFloat.ltb (cnyPerMonth p) (cnyPerMonth best) = false).
  { intros p Hp. apply (Permutation_in _ (Permutation_sym Hperm)) in Hp.
    destruct Hp as [<-|Hp]; [apply ltb_irrefl|].
    apply (ascending_head_least lessPerMonth found Hsw best rest); auto.
    intros z Hz. now apply (Permutation_in _ Hperm). }
  eexists. exists best. split; [reflexivity|]. cbn [Options BestOption Range].
  repeat split; auto.
  - apply (Permutation_in _ Hperm). now left.
  - cbn [fold_left].
    destruct (rangeTurn _ best) as [j rg'] eqn:Hturn.
    assert (Hj : j = 1%nat).
    { change j with (fst (j, rg')). rewrite <- Hturn.
      apply rangeTurn_index. }
    assert (Hmin : MinPerMonth rg' = cnyPerMonth best).
    { change rg' with (snd (j, rg')). now rewrite <- Hturn. }
    subst j. rewrite fold_rangeTurn_min; [exact Hmin|].
    intros p Hp. rewrite Hmin. apply Hleast.
    apply (Permutation_in _ Hperm). now right.
Qed.

(** X4. Whatever the prices are, the range [ComparePrices] reports bounds
    every option it lists: no option's hourly (monthly) price in CNY is
    below [MinPerHour] ([MinPerMonth]) or above [MaxPerHour]
    ([MaxPerMonth]), and each of the four bounds is the price of a listed
    option. *)
Theorem ComparePrices_range_bounds_options now r templateType comparison :
  fst (ComparePrices now r templateType) = Ok comparison ->
  within (Options comparison) (Range comparison).
Proof.
  destruct (GetPricesByType_no_error now r templateType) as (found & Hfound).
  destruct found as [|first others].
  - unfold ComparePrices.
    destruct (GetPricesByType now r templateType) as [found r'].
    simpl in Hfound. subst found. discriminate.
  - rewrite (ComparePrices_found now r templateType first others Hfound).
    pose proof (sort_Slice_Permutation lessPerMonth (first :: others))
      as Hperm.
    destruct (sort_Slice lessPerMonth (first :: others)) as [|b rest]
      eqn:Hsorted.
    { apply Permutation_nil in Hperm. discriminate. }
    intros [= <-]. cbn [Options Range]. apply range_within.
Qed.

(** X5. [GetBestOption] fails only when no price has the type asked for,
    and then with the error of [ComparePrices]: its own error, for a
    comparison without a best option, does not occur. *)
Theorem GetBestOption_fails_only_without_prices now r templateType msg :
  fst (GetBestOption now r templateType) = Err msg <->
  fst (GetPricesByType now r templateType) = Ok [] /\
  msg = "未找到类型为 " +:+ templateType +:+ " 的模板价格信息".
Proof.
  destruct (GetPricesByType_no_error now r templateType) as (found & Hfound).
  unfold GetBestOption.
  destruct found as [|first others].
  - unfold ComparePrices.
    destruct (GetPricesByType now r templateType) as [found r'].
    simpl in Hfound. subst found. simpl.
    split; [intros [= <-]; now split|intros [_ ->]; reflexivity].
  - pose proof (ComparePrices_found now r templateType first others Hfound)
      as Hcmp.
    destruct (ComparePrices now r templateType) as [compared r'].
    simpl in Hcmp. subst compared. cbn [BestOption].
    pose proof (sort_Slice_Permutation lessPerMonth (first :: others))
      as Hperm.
    destruct (sort_Slice lessPerMonth (first :: others)) as [|b rest].
    { apply Permutation_nil in Hperm. discriminate. }
    rewrite Hfound. simpl. split; [discriminate|intros [[=] _]].
Qed.

End Compare.

(** The static prices of type [ecs]. *)
Definition staticEcs : list PriceInfo :=
  List.filter (fun p => matchesType (Template p) "ecs") getDefaultPrices.

Lemma ComparePrices_best_is_cheapest_witness :
  fst (GetPricesByType 0 NewPriceRepository "ecs") = Ok staticEcs /\
  staticEcs <> [] /\
  exists comparison best,
    fst (ComparePrices (sorter := insertion_sorter) 0 NewPriceRepository
           "ecs") = Ok comparison /\
    BestOption comparison = Some best /\
    MinPerMonth (Range comparison) = cnyPerMonth best.
Proof.
  split; [reflexivity|]. split; [discriminate|].
  destruct (ComparePrices_best_is_cheapest (sorter := insertion_sorter)
              0 NewPriceRepository "ecs" staticEcs)
    as (comparison & best & Hcmp & _ & _ & Hbest & _ & _ & _ & Hmin).
  - reflexivity.
  - discriminate.
  - intros p [<-|[<-|[<-|[]]]]; reflexivity.
  - exists comparison, best. auto.
Defined.

Lemma ComparePrices_range_bounds_options_witness :
  exists comparison,
    fst (ComparePrices (sorter := insertion_sorter) 0 NewPriceRepository
           "ec2") = Ok comparison /\
    within (Options comparison) (Range comparison).
Proof.
  eexists. split; [reflexivity|].
  apply (ComparePrices_range_bounds_options (sorter := insertion_sorter)
           0 NewPriceRepository "ec2").
  reflexivity.
Defined.

(** *** The cache *)

(** X6. A price the fetcher returned is served from the cache until it
    expires: for [cacheExpiry] after the fetch, [GetPrice] returns that
    price and leaves the repository as it is, whatever fetcher is installed
    and whatever it would answer; from the expiry on, the fetcher is asked
    again. *)
Theorem GetPrice_serves_fetched_price_until_expiry
    now r provider template fetcher fresh :
  priceFetcher r = Some fetcher ->
  (forall cached,
     cache r !! cacheKey provider template = Some cached ->
     (expires cached <= now)%Z) ->
  FetchPrice fetcher now provider template "" = Ok fresh ->
  let r' := snd (GetPrice now r provider template) in
  fst (GetPrice now r provider template) = Ok fresh /\
  (forall later fetcher',
     (later < now + cacheExpiry r)%Z ->
     GetPrice later (SetPriceFetcher r' fetcher') provider template =
       (Ok fresh, SetPriceFetcher r' fetcher')) /\
  (forall later newer,
     (now + cacheExpiry r <= later)%Z ->
     FetchPrice fetcher later provider template "" = Ok newer ->
     fst (GetPrice later r' provider template) = Ok newer).
Proof.
  intros Hfetcher Hstale Hfresh.
  assert (Hcall : GetPrice now r provider template =
            (Ok fresh,
             with_cache r
               (<[cacheKey provider template :=
                    {| price := fresh;
                       expires := (now + cacheExpiry r)%Z |}]> (cache r)))).
  { unfold GetPrice. rewrite Hfetcher, Hfresh.
    destruct (cache r !! cacheKey provider template) as [cached|] eqn:Hc;
      [|reflexivity].
    pose proof (Hstale cached eq_refl) as Hexp.
    destruct (Z.ltb_spec now (expires cached)); [lia|reflexivity]. }
  rewrite Hcall. cbn [fst snd]. split; [reflexivity|]. split.
  - intros later fetcher' Hlater. unfold GetPrice.
    cbn [cache SetPriceFetcher with_cache]. rewrite lookup_insert_eq.
    cbn [expires price].
    destruct (Z.ltb_spec later (now + cacheExpiry r)); [reflexivity|lia].
  - intros later newer Hlater Hnewer. unfold GetPrice.
    cbn [cache priceFetcher with_cache]. rewrite lookup_insert_eq.
    cbn [expires price]. rewrite Hfetcher, Hnewer.
    destruct (Z.ltb_spec later (now + cacheExpiry r)); [lia|reflexivity].
Qed.

(** A fetcher that quotes a fixed hourly price for everything. *)
Definition flatFetcher (hourly : float) : PriceFetcher :=
  {| FetchPrice := fun now provider template region =>
       Ok {| Provider := provider; Template := template; Region := region;
             PricePerHour := hourly;
             PricePerMonth := (hourly * 24 * 30)%float;
             Currency := "CNY"; Spec := ""; UpdatedAt := "" |};
     FetchPricesByType := fun now templateType => Ok [] |}.

Lemma GetPrice_serves_fetched_price_until_expiry_witness :
  let r := SetPriceFetcher NewPriceRepository (flatFetcher 0.05) in
  exists fresh,
    fst (GetPrice 0 r "aliyun" "ecs") = Ok fresh /\
    PricePerHour fresh = 0.05%float /\
    fst (GetPrice 1000
           (SetPriceFetcher (snd (GetPrice 0 r "aliyun" "ecs"))
              (flatFetcher 0.09))
           "aliyun" "ecs") = Ok fresh.
Proof.
  intros r.
  destruct (GetPrice_serves_fetched_price_until_expiry 0 r "aliyun" "ecs"
              (flatFetcher 0.05)
              {| Provider := "aliyun"; Template := "ecs"; Region := "";
                 PricePerHour := 0.05;
                 PricePerMonth := (0.05 * 24 * 30)%float;
                 Currency := "CNY"; Spec := ""; UpdatedAt := "" |})
    as (Hfirst & Hcached & _).
  - reflexivity.
  - intros cached Hc. vm_compute in Hc. discriminate.
  - reflexivity.
  - eexists. split; [exact Hfirst|]. split; [reflexivity|].
    rewrite (Hcached 1000%Z (flatFetcher 0.09)); [reflexivity|].
    vm_compute. reflexivity.
Defined.

End PriceRepoFacts.

(** ** The rest of the price optimizer *)

Module CheapestFacts.
Import Pricing FloatOrder SortFacts PricingFacts Cheapest.

(** The regions [FindCheapestInstance] asks. *)
Definition askedRegions (regions : list string) : list string :=
  match regions with
  | [] => ["cn-beijing"; "cn-shanghai"; "cn-hangzhou"; "cn-shenzhen";
           "cn-hongkong"; "ap-southeast-1"; "us-east-1"]
  | _ => regions
  end.

Definition quotes (res : result InstancePrice) : list InstancePrice :=
  match res with Ok p => [p] | Err _ => [] end.

Section Facts.
Variable describePrice : string -> string -> ApiReply.
Context {sorter : SliceSorter} {scheduler : Scheduler}.

Lemma In_quotes o instanceType regions q :
  In q (flat_map quotes
          (arrival
             (map (fun r => GetPriceForInstance describePrice o instanceType r)
                  regions))) <->
  exists region, In region regions /\
    GetPriceForInstance describePrice o instanceType region = Ok q.
Proof.
  rewrite in_flat_map. split.
  - intros (res & Hres & Hq).
    apply (Permutation_in _ (arrival_Permutation _)) in Hres.
    apply in_map_iff in Hres as (region & <- & Hregion).
    exists region. split; [exact Hregion|].
    destruct (GetPriceForInstance _ _ _ region) as [p|msg]; [|destruct Hq].
    destruct Hq as [<-|[]]. reflexivity.
  - intros (region & Hregion & Hq). exists (Ok q). split; [|now left].
    apply (Permutation_in _ (Permutation_sym (arrival_Permutation _))).
    apply in_map_iff. now exists region.
Qed.

(** X7. [FindCheapestInstance] fails exactly when no asked region yields a
    quote; otherwise, when the provider's prices are numbers, it returns a
    quote of an asked region than which no asked region's quote is cheaper
    per hour, in whatever order the goroutines deliver. *)
Theorem FindCheapestInstance_minimal o instanceType regions :
  decodes_numbers describePrice ->
  ((forall region, In region (askedRegions regions) ->
      is_Ok (GetPriceForInstance describePrice o instanceType region) = false)
   ->
   FindCheapestInstance describePrice o instanceType regions =
     Err "无法获取任何区域的价格信息") /\
  ((exists region, In region (askedRegions regions) /\
      is_Ok (GetPriceForInstance describePrice o instanceType region) = true)
   ->
   exists cheapest region,
     FindCheapestInstance describePrice o instanceType regions =
       Ok (to_config cheapest) /\
     In region (askedRegions regions) /\
     GetPriceForInstance describePrice o instanceType region = Ok cheapest /\
     forall region' q,
       In region' (askedRegions regions) ->
       GetPriceForInstance describePrice o instanceType region' = Ok q ->
       PrimFloat.ltb (PricePerHour q) (PricePerHour cheapest) = false).
Proof.
  intros Hnum. unfold FindCheapestInstance. fold (askedRegions regions).
  fold quotes.
  set (prices := flat_map quotes _).
  assert (Hin : forall q, In q prices <->
            exists region, In region (askedRegions regions) /\
              GetPriceForInstance describePrice o instanceType region = Ok q)
    by (intros q; apply In_quotes).
  split.
  - intros Hnone. destruct prices as [|first rest]; [reflexivity|].
    destruct (proj1 (Hin first) (or_introl eq_refl)) as (region & Hr & Hq).
    specialize (Hnone region Hr). rewrite Hq in Hnone. discriminate.
  - intros (region & Hr & Hok).
    destruct (GetPriceForInstance describePrice o instanceType region)
      as [q|msg] eqn:Hq; [|discriminate].
    assert (Hq' : In q prices) by (apply Hin; eauto).
    destruct prices as [|first rest] eqn:Hprices; [destruct Hq'|].
    rewrite <- Hprices in *. clear Hq'.
    assert (Hsw : strict_weak less_price prices).
    { apply strict_weak_prices. intros p Hp.
      apply Hin in Hp as (r & _ & Hp).
      now apply (GetPriceForInstance_not_nan describePrice o instanceType r). }
    pose proof (sort_Slice_Permutation less_price prices) as Hperm.
    pose proof (sort_Slice_ascending less_price prices Hsw) as Hasc.
    destruct (sort_Slice less_price prices) as [|cheapest others]
      eqn:Hsorted.
    { apply Permutation_nil in Hperm. rewrite Hprices in Hperm.
      discriminate. }
    assert (Hc : In cheapest prices)
      by (apply (Permutation_in _ Hperm); now left).
    destruct (proj1 (Hin cheapest) Hc) as (rc & Hrc & Hcq).
    exists cheapest, rc. repeat split; auto.
    intros region' p Hr' Hp.
    assert (Hp' : In p prices) by (apply Hin; eauto).
    apply (Permutation_in _ (Permutation_sym Hperm)) in Hp'.
    destruct Hp' as [<-|Hp']; [apply ltb_irrefl|].
    apply (ascending_head_least less_price prices Hsw cheapest others); auto.
    intros z Hz. now apply (Permutation_in _ Hperm).
Qed.

(** X8. [ListRegionPrices] lists every quote obtained for the candidates
    exactly once, in ascending order of the hourly price, and
    [FindOptimalConfig] returns its first entry; the two fail together, with
    the same error. *)
Theorem ListRegionPrices_ranks_the_quotes s provider template instanceTypes
    regions :
  decodes_numbers describePrice ->
  match ListRegionPrices describePrice s provider template instanceTypes
          regions with
  | Err msg =>
      FindOptimalConfig describePrice s provider template instanceTypes
        regions = Err msg
  | Ok listed =>
      exists o cheapest rest,
        optimizer s = Some o /\
        listed = cheapest :: rest /\
        Permutation listed
          (collected describePrice o instanceTypes regions) /\
        ascending less_price listed /\
        FindOptimalConfig describePrice s provider template instanceTypes
          regions = Ok (to_config cheapest)
  end.
Proof.
  intros Hnum. unfold ListRegionPrices, FindOptimalConfig.
  destruct (negb (String.eqb provider "aliyun")); [reflexivity|].
  destruct (optimizer s) as [o|]; [|reflexivity].
  unfold ComparePrices.
  match goal with
  | |- context [sort_Slice less_price ?x] => set (all := x)
  end.
  assert (Hall : all = collected describePrice o instanceTypes regions)
    by (unfold all, collected; destruct instanceTypes; reflexivity).
  assert (Hsw : strict_weak less_price all).
  { apply strict_weak_prices. intros q Hq. rewrite Hall in Hq.
    now apply (collected_not_nan describePrice o instanceTypes regions). }
  pose proof (sort_Slice_Permutation less_price all) as Hperm.
  pose proof (sort_Slice_ascending less_price all Hsw) as Hasc.
  destruct (sort_Slice less_price all) as [|cheapest rest]; [reflexivity|].
  exists o, cheapest, rest. rewrite <- Hall. auto.
Qed.

(** X9. Without an access key or a secret key no request leaves: every
    quote fails, [ComparePrices] lists nothing, and [FindOptimalConfig] and
    [FindCheapestInstance] report that no price was found, whatever the
    provider would have answered. *)
Theorem no_quotes_without_keys o template instanceType instanceTypes regions :
  accessKey o = "" \/ secretKey o = "" ->
  (forall t r, exists msg,
     GetPriceForInstance describePrice o t r = Err msg) /\
  ComparePrices describePrice o instanceTypes regions = Ok [] /\
  FindOptimalConfig describePrice {| optimizer := Some o |} "aliyun" template
    instanceTypes regions = Err "未找到任何价格信息" /\
  FindCheapestInstance describePrice o instanceType regions =
    Err "无法获取任何区域的价格信息".
Proof.
  intros Hkeys.
  assert (Hfail : forall t r,
            GetPriceForInstance describePrice o t r =
            Err ("调用 DescribePrice API 失败: " +:+
                 "未配置阿里云 AccessKey 和 SecretKey")).
  { intros t r. unfold GetPriceForInstance, callAliyunAPI.
    destruct Hkeys as [-> | ->]; simpl; [reflexivity|].
    now rewrite orb_true_r. }
  assert (Hnone : forall its rs, collect_prices describePrice o its rs = []).
  { intros its rs. destruct (collect_prices describePrice o its rs)
      as [|q l] eqn:Hc; [reflexivity|].
    assert (Hq : In q (collect_prices describePrice o its rs))
      by (rewrite Hc; now left).
    apply In_collect_prices in Hq as (t & r & _ & _ & Hq).
    rewrite Hfail in Hq. discriminate. }
  assert (Hsort : forall A (less : A -> A -> bool),
            sort_Slice less (@nil A) = []).
  { intros A less. apply Permutation_nil.
    apply Permutation_sym, sort_Slice_Permutation. }
  split; [intros t r; rewrite Hfail; eauto|]. split; [|split].
  - unfold ComparePrices. now rewrite Hnone, Hsort.
  - unfold FindOptimalConfig. simpl. unfold ComparePrices.
    now rewrite Hnone, Hsort.
  - unfold FindCheapestInstance. fold quotes.
    match goal with
    | |- context [flat_map quotes ?x] =>
        destruct (flat_map quotes x) as [|q l] eqn:Hc
    end; [reflexivity|].
    match type of Hc with
    | ?x = _ => assert (Hq : In q x) by (rewrite Hc; now left)
    end.
    apply In_quotes in Hq as (r & _ & Hq). rewrite Hfail in Hq.
    discriminate.
Qed.


(** X10. The Terraform variables made from the optimum name a candidate:
    [region] is one of the regions asked and [instance_type] one of the
    instance types asked (the defaults when none were given); from no
    optimum no variable is made. *)
Theorem ApplyOptimalConfig_names_a_candidate s provider template
    instanceTypes regions cfg :
  FindOptimalConfig describePrice s provider template instanceTypes regions =
    Ok cfg ->
  ApplyOptimalConfig (Some cfg) !! "region" = Some (opt_Region cfg) /\
  ApplyOptimalConfig (Some cfg) !! "instance_type" =
    Some (opt_InstanceType cfg) /\
  In (opt_Region cfg) (effectiveRegions regions) /\
  In (opt_InstanceType cfg) (effectiveTypes instanceTypes) /\
  ApplyOptimalConfig None = ∅.
Proof.
  intros Hcfg. split; [reflexivity|]. split; [reflexivity|].
  split; [|split; [|reflexivity]].
  - unfold FindOptimalConfig in Hcfg.
    destruct (negb (String.eqb provider "aliyun")); [discriminate|].
    destruct (optimizer s) as [o|]; [|discriminate].
    fold (effectiveTypes instanceTypes) in Hcfg.
    unfold ComparePrices in Hcfg.
    match type of Hcfg with
    | context [sort_Slice less_price ?x] => set (all := x) in Hcfg
    end.
    pose proof (sort_Slice_Permutation less_price all) as Hperm.
    destruct (sort_Slice less_price all) as [|cheapest rest];
      [discriminate|].
    injection Hcfg as <-.
    assert (Hin : In cheapest all)
      by (apply (Permutation_in _ Hperm); now left).
    apply In_collect_prices in Hin as (t & r & Ht & Hr & Hq).
    apply GetPriceForInstance_Ok in Hq as (resp & _ & _ & ->). simpl.
    unfold effectiveRegions. exact Hr.
  - unfold FindOptimalConfig in Hcfg.
    destruct (negb (String.eqb provider "aliyun")); [discriminate|].
    destruct (optimizer s) as [o|]; [|discriminate].
    fold (effectiveTypes instanceTypes) in Hcfg.
    unfold ComparePrices in Hcfg.
    match type of Hcfg with
    | context [sort_Slice less_price ?x] => set (all := x) in Hcfg
    end.
    pose proof (sort_Slice_Permutation less_price all) as Hperm.
    destruct (sort_Slice less_price all) as [|cheapest rest];
      [discriminate|].
    injection Hcfg as <-.
    assert (Hin : In cheapest all)
      by (apply (Permutation_in _ Hperm); now left).
    apply In_collect_prices in Hin as (t & r & Ht & Hr & Hq).
    apply GetPriceForInstance_Ok in Hq as (resp & _ & _ & ->). simpl.
    destruct (effectiveTypes instanceTypes) eqn:He; [|exact Ht].
    destruct instanceTypes; discriminate.
Qed.

End Facts.

Lemma FindCheapestInstance_minimal_witness :
  decodes_numbers PriceClaims.mockedPrices /\
  exists cheapest region,
    FindCheapestInstance PriceClaims.mockedPrices
      (sorter := insertion_sorter) (scheduler := ProbeClaims.fifo)
      PriceClaims.keys "t5small" ["cn-beijing"; "cn-shanghai"] =
      Ok (to_config cheapest) /\
    In region ["cn-beijing"; "cn-shanghai"] /\
    GetPriceForInstance PriceClaims.mockedPrices PriceClaims.keys "t5small"
      region = Ok cheapest.
Proof.
  split; [exact PriceClaims.mockedPrices_numbers|].
  destruct (FindCheapestInstance_minimal PriceClaims.mockedPrices
              (sorter := insertion_sorter) (scheduler := ProbeClaims.fifo)
              PriceClaims.keys "t5small" ["cn-beijing"; "cn-shanghai"]
              PriceClaims.mockedPrices_numbers) as [_ Hsome].
  destruct Hsome as (cheapest & region & Hcall & Hregion & Hquote & _).
  - exists "cn-beijing". split; [now left|reflexivity].
  - exists cheapest, region. auto.
Defined.

Lemma ListRegionPrices_ranks_the_quotes_witness :
  decodes_numbers PriceClaims.mockedPrices /\
  exists cheapest rest,
    ListRegionPrices PriceClaims.mockedPrices (sorter := insertion_sorter)
      PriceClaims.service "aliyun" "aliyun/ecs" ["t5small"]
      ["cn-beijing"; "cn-shanghai"] = Ok (cheapest :: rest) /\
    FindOptimalConfig PriceClaims.mockedPrices (sorter := insertion_sorter)
      PriceClaims.service "aliyun" "aliyun/ecs" ["t5small"]
      ["cn-beijing"; "cn-shanghai"] = Ok (to_config cheapest).
Proof.
  split; [exact PriceClaims.mockedPrices_numbers|].
  pose proof (ListRegionPrices_ranks_the_quotes PriceClaims.mockedPrices
                (sorter := insertion_sorter) PriceClaims.service "aliyun"
                "aliyun/ecs" ["t5small"] ["cn-beijing"; "cn-shanghai"]
                PriceClaims.mockedPrices_numbers) as Hlist.
  destruct (ListRegionPrices _ _ _ _ _ _) as [listed|msg] eqn:Hcall.
  - destruct Hlist as (o & cheapest & rest & _ & -> & _ & _ & Hopt).
    exists cheapest, rest. auto.
  - vm_compute in Hcall. discriminate.
Defined.

(** An optimizer whose secret key is missing. *)
Definition halfConfigured : aliyunPriceOptimizer :=
  {| accessKey := "AK"; secretKey := "" |}.

Lemma no_quotes_without_keys_witness :
  secretKey halfConfigured = "" /\
  FindOptimalConfig PriceClaims.flatPrices (sorter := insertion_sorter)
    {| optimizer := Some halfConfigured |} "aliyun" "aliyun/ecs" [] [] =
    Err "未找到任何价格信息".
Proof.
  split; [reflexivity|].
  apply (no_quotes_without_keys PriceClaims.flatPrices
           (sorter := insertion_sorter) (scheduler := ProbeClaims.fifo)
           halfConfigured "aliyun/ecs" "t5small" [] []).
  now right.
Defined.

Lemma ApplyOptimalConfig_names_a_candidate_witness :
  exists cfg,
    FindOptimalConfig PriceClaims.mockedPrices (sorter := insertion_sorter)
      PriceClaims.service "aliyun" "aliyun/ecs" ["t5small"]
      ["cn-beijing"; "cn-shanghai"] = Ok cfg /\
    ApplyOptimalConfig (Some cfg) !! "region" = Some (opt_Region cfg) /\
    In (opt_Region cfg) ["cn-beijing"; "cn-shanghai"].
Proof.
  eexists. split; [reflexivity|].
  destruct (ApplyOptimalConfig_names_a_candidate PriceClaims.mockedPrices
              (sorter := insertion_sorter) PriceClaims.service "aliyun"
              "aliyun/ecs" ["t5small"] ["cn-beijing"; "cn-shanghai"] _
              eq_refl) as (Hvars & _ & Hregion & _).
  split; [exact Hvars|exact Hregion].
Defined.

End CheapestFacts.

(** ** More on the capacity probe *)

Module ProbeFacts.
Import Credentials Probe ProbeClaims.

(** The order in which [FindBestTencentRegion] prefers the regions. *)
Definition preference : list string :=
  ["ap-beijing"; "ap-shanghai"; "ap-guangzhou"; "ap-chengdu";
   "ap-chongqing"; "ap-nanjing"].

Lemma find_ext {A} (f g : A -> bool) (l : list A) :
  (forall a, In a l -> f a = g a) -> List.find f l = List.find g l.
Proof.
  induction l as [|a l IH]; intros Hfg; simpl; [reflexivity|].
  rewrite (Hfg a) by now left. destruct (g a); [reflexivity|].
  apply IH. intros b Hb. apply Hfg. now right.
Qed.

Lemma existsb_eqb_In (r : string) (l : list string) :
  existsb (String.eqb r) l = true <-> In r l.
Proof.
  rewrite existsb_exists. split.
  - intros (x & Hx & Heq). apply String.eqb_eq in Heq. now subst.
  - intros Hin. exists r. split; [exact Hin|apply String.eqb_refl].
Qed.

Lemma GetCredentials_HasCredentials cm p c :
  GetCredentials cm p = Ok c -> HasCredentials cm p = true.
Proof.
  unfold GetCredentials, HasCredentials.
  destruct (creds cm p); [reflexivity|].
  destruct (nonempty _ && nonempty _); [reflexivity|discriminate].
Qed.

Section Best.
Variable cm : credentialManager.
Variable DescribeSpotPriceHistory :
  string -> string -> string -> string -> CmdOutput nat.
Variable DescribeInstanceTypeConfigs :
  string -> string -> string -> string -> CmdOutput (list InstanceTypeConfig).
Context {scheduler : Scheduler}.

(** X11. The region [FindBestTencentRegion] picks does not depend on the
    order in which the probes of the regions finish: it is the first
    region, in the order Beijing, Shanghai, Guangzhou, Chengdu, Chongqing,
    Nanjing, whose probe succeeded, and Beijing when no probe succeeded. *)
Theorem FindBestTencentRegion_first_preferred instanceType c :
  GetCredentials cm ProviderTencent = Ok c ->
  FindBestTencentRegion cm DescribeSpotPriceHistory
    DescribeInstanceTypeConfigs instanceType =
  Ok (default "ap-beijing"
        (List.find
           (available DescribeSpotPriceHistory DescribeInstanceTypeConfigs
              instanceType (AccessKey c) (SecretKey c))
           preference)).
Proof.
  intros Hc. unfold FindBestTencentRegion, FindAvailableRegions.
  rewrite (GetCredentials_HasCredentials _ _ _ Hc), Hc. cbn [negb].
  set (av := available DescribeSpotPriceHistory DescribeInstanceTypeConfigs
               instanceType (AccessKey c) (SecretKey c)).
  match goal with
  | |- context [map rr_region ?x] => set (found := map rr_region x)
  end.
  assert (Hin : forall r, In r found <-> In r tencentRegions /\ av r = true)
    by (intros r; apply In_gathered).
  fold preference. clearbody found.
  destruct found as [|first others].
  - (* no probe succeeded: all six regions are returned *)
    assert (Hnone : forall r, In r preference -> av r = false).
    { intros r Hr. destruct (av r) eqn:Hav; [|reflexivity].
      destruct (proj2 (Hin r)).
      split; [|exact Hav].
      unfold preference, tencentRegions in *. simpl in *. tauto. }
    rewrite (find_ext av (fun _ => false)) by exact Hnone.
    reflexivity.
  - set (found := first :: others) in *.
    rewrite (find_ext _ av).
    + destruct (List.find av preference) as [r|] eqn:Hfind; [reflexivity|].
      exfalso.
      assert (Hfirst : In first found) by now left.
      apply Hin in Hfirst as [Hreg Hav].
      rewrite (find_none _ _ Hfind first) in Hav; [discriminate|].
      unfold preference, tencentRegions in *. simpl in *. tauto.
    + intros r Hr. destruct (av r) eqn:Hav.
      * apply existsb_eqb_In. apply Hin. split; [|exact Hav].
        unfold preference, tencentRegions in *. simpl in *. tauto.
      * destruct (existsb (String.eqb r) found) eqn:Hex; [|reflexivity].
        apply existsb_eqb_In, Hin in Hex as [_ Hex]. congruence.
Qed.

End Best.

Section Spot.
Variable cm : credentialManager.
Variable DescribeSpotPriceHistory :
  string -> string -> string -> string -> CmdOutput nat.
Variable DescribeInstanceFamilyConfigs :
  string -> string -> string -> string -> CmdOutput (list InstanceTypeConfig).
Context {scheduler : Scheduler}.

(** Whether an instance type of a region's family is listed: it is on sale
    and its spot price history is not empty. *)
Definition onOffer (secretId secretKey r : string)
    (config : InstanceTypeConfig) : Prop :=
  cfg_Status config = "SELL" /\
  exists n,
    DescribeSpotPriceHistory r (cfg_InstanceType config) secretId secretKey =
      CmdJSON n /\ (0 < n)%nat.

Lemma In_querySpotRegion instanceFamily secretId secretKey r sa :
  In sa (querySpotRegion DescribeSpotPriceHistory
           DescribeInstanceFamilyConfigs instanceFamily secretId secretKey r)
  <->
  exists set config,
    DescribeInstanceFamilyConfigs r instanceFamily secretId secretKey =
      CmdJSON set /\
    In config set /\ onOffer secretId secretKey r config /\
    sa = {| sa_Region := r; sa_InstanceType := cfg_InstanceType config;
            Available := true |}.
Proof.
  unfold querySpotRegion.
  destruct (DescribeInstanceFamilyConfigs r instanceFamily secretId secretKey)
    as [| |set].
  - split; [intros []|intros (s & c & [=] & _)].
  - split; [intros []|intros (s & c & [=] & _)].
  - match goal with
    | |- In sa (fold_left ?f set []) <-> _ => set (step := f)
    end.
    assert (Hfold : forall l acc,
              In sa (fold_left step l acc) <->
              In sa acc \/
              exists config, In config l /\
                onOffer secretId secretKey r config /\
                sa = {| sa_Region := r;
                        sa_InstanceType := cfg_InstanceType config;
                        Available := true |}).
    { induction l as [|config l IH]; intros acc; cbn [fold_left].
      - split; [now left|intros [H|(c & [] & _)]; exact H].
      - rewrite IH. unfold step, onOffer.
        destruct (String.eqb (cfg_Status config) "SELL") eqn:Hsell;
          cbn [negb].
        + apply String.eqb_eq in Hsell.
          destruct (DescribeSpotPriceHistory r (cfg_InstanceType config)
                      secretId secretKey) as [| |n] eqn:Hhist.
          * split; intros [H|(c & Hc & Hoff & Hsa)]; auto.
            -- right. exists c. split; [now right|]. now split.
            -- destruct Hc as [<-|Hc].
               ++ destruct Hoff as [_ (n & Hn & _)]. congruence.
               ++ right. exists c. now split.
          * split; intros [H|(c & Hc & Hoff & Hsa)]; auto.
            -- right. exists c. split; [now right|]. now split.
            -- destruct Hc as [<-|Hc].
               ++ destruct Hoff as [_ (n & Hn & _)]. congruence.
               ++ right. exists c. now split.
          * destruct (Nat.ltb_spec 0 n) as [Hpos|Hzero].
            -- rewrite in_app_iff. split.
               ++ intros [[H|[<-|[]]]|(c & Hc & Hoff & Hsa)]; auto.
                  ** right. exists config. split; [now left|].
                     split; [|reflexivity]. split; [exact Hsell|].
                     now exists n.
                  ** right. exists c. split; [now right|]. now split.
               ++ intros [H|(c & Hc & Hoff & Hsa)]; auto.
                  destruct Hc as [<-|Hc].
                  ** left. right. left. now symmetry.
                  ** right. exists c. now split.
            -- split; intros [H|(c & Hc & Hoff & Hsa)]; auto.
               ++ right. exists c. split; [now right|]. now split.
               ++ destruct Hc as [<-|Hc].
                  ** destruct Hoff as [_ (m & Hm & Hlt)].
                     rewrite Hhist in Hm. injection Hm as <-. lia.
                  ** right. exists c. now split.
        + apply String.eqb_neq in Hsell.
          split; intros [H|(c & Hc & Hoff & Hsa)]; auto.
          * right. exists c. split; [now right|]. now split.
          * destruct Hc as [<-|Hc].
            -- destruct Hoff as [Hs _]. congruence.
            -- right. exists c. now split. }
    rewrite Hfold. split.
    + intros [[]|(c & Hc & Hoff & Hsa)]. now exists set, c.
    + intros (s & c & [= <-] & Hc & Hoff & Hsa). right. now exists c.
Qed.

(** X12. [QuerySpotInstanceAvailability] lists exactly the offers of the
    regions asked: an entry for region [r] and instance type [t] is listed
    if and only if [r] was asked, [t] is in the family's configuration of
    [r] with status SELL, and the spot price history of [t] in [r] is not
    empty.  Every entry is marked available. *)
Theorem QuerySpotInstanceAvailability_lists_the_offers regions instanceFamily
    c :
  GetCredentials cm ProviderTencent = Ok c ->
  exists combos,
    QuerySpotInstanceAvailability cm DescribeSpotPriceHistory
      DescribeInstanceFamilyConfigs regions instanceFamily = Ok combos /\
    forall sa,
      In sa combos <->
      Available sa = true /\
      In (sa_Region sa) regions /\
      exists set config,
        DescribeInstanceFamilyConfigs (sa_Region sa) instanceFamily
          (AccessKey c) (SecretKey c) = CmdJSON set /\
        In config set /\
        cfg_InstanceType config = sa_InstanceType sa /\
        onOffer (AccessKey c) (SecretKey c) (sa_Region sa) config.
Proof.
  intros Hc. unfold QuerySpotInstanceAvailability.
  rewrite (GetCredentials_HasCredentials _ _ _ Hc), Hc. cbn [negb].
  eexists. split; [reflexivity|]. intros sa. rewrite in_concat. split.
  - intros (l & Hl & Hsa).
    apply (Permutation_in _ (arrival_Permutation _)) in Hl.
    apply in_map_iff in Hl as (r & <- & Hr).
    apply In_querySpotRegion in Hsa as (set & config & Hset & Hcfg & Hoff & ->).
    cbn. split; [reflexivity|]. split; [exact Hr|].
    now exists set, config.
  - intros (Hav & Hr & set & config & Hset & Hcfg & Htype & Hoff).
    exists (querySpotRegion DescribeSpotPriceHistory
              DescribeInstanceFamilyConfigs instanceFamily (AccessKey c)
              (SecretKey c) (sa_Region sa)).
    split.
    + apply (Permutation_in _ (Permutation_sym (arrival_Permutation _))).
      apply in_map_iff. now exists (sa_Region sa).
    + apply In_querySpotRegion. exists set, config.
      repeat split; try assumption; try apply Hoff.
      destruct sa as [r t a]. cbn in *. now subst.
Qed.

End Spot.

(** Probes that find capacity in Guangzhou and Nanjing only. *)
Definition historyInSouth (region instanceType secretId secretKey : string)
  : CmdOutput nat :=
  if String.eqb region "ap-guangzhou" || String.eqb region "ap-nanjing"
  then CmdJSON 3%nat else CmdJSON 0%nat.

(** A scheduler that delivers the results in reverse. *)
Definition lifo : Scheduler :=
  {| arrival := fun A x => rev x;
     arrival_Permutation := fun A x => Permutation_sym (Permutation_rev x) |}.

Lemma FindBestTencentRegion_first_preferred_witness :
  FindBestTencentRegion tencentConfigured historyInSouth configsDown
    (scheduler := fifo) "S5.SMALL1" = Ok "ap-guangzhou" /\
  FindBestTencentRegion tencentConfigured historyInSouth configsDown
    (scheduler := lifo) "S5.SMALL1" = Ok "ap-guangzhou".
Proof.
  split.
  - rewrite (FindBestTencentRegion_first_preferred tencentConfigured
               historyInSouth configsDown (scheduler := fifo) "S5.SMALL1"
               {| AccessKey := "AKID"; SecretKey := "SECRET";
                  Region := "" |} eq_refl).
    reflexivity.
  - rewrite (FindBestTencentRegion_first_preferred tencentConfigured
               historyInSouth configsDown (scheduler := lifo) "S5.SMALL1"
               {| AccessKey := "AKID"; SecretKey := "SECRET";
                  Region := "" |} eq_refl).
    reflexivity.
Defined.

(** A family with one type on sale and one sold out, in every region. *)
Definition familyS5 (region instanceFamily secretId secretKey : string)
  : CmdOutput (list InstanceTypeConfig) :=
  CmdJSON [ {| cfg_InstanceType := "S5.SMALL1"; cfg_InstanceFamily := "S5";
               cfg_Status := "SELL" |};
            {| cfg_InstanceType := "S5.LARGE8"; cfg_InstanceFamily := "S5";
               cfg_Status := "SOLD_OUT" |} ].

Lemma QuerySpotInstanceAvailability_lists_the_offers_witness :
  exists combos,
    QuerySpotInstanceAvailability tencentConfigured historyInSouth familyS5
      (scheduler := lifo) ["ap-beijing"; "ap-nanjing"] "S5" = Ok combos /\
    (In {| sa_Region := "ap-nanjing"; sa_InstanceType := "S5.SMALL1";
           Available := true |} combos).
Proof.
  destruct (QuerySpotInstanceAvailability_lists_the_offers tencentConfigured
              historyInSouth familyS5 (scheduler := lifo)
              ["ap-beijing"; "ap-nanjing"] "S5"
              {| AccessKey := "AKID"; SecretKey := "SECRET"; Region := "" |}
              eq_refl) as (combos & Hcall & Hin).
  exists combos. split; [exact Hcall|]. apply Hin. cbn.
  split; [reflexivity|]. split; [right; now left|].
  eexists. eexists. split; [reflexivity|]. split; [now left|].
  split; [reflexivity|]. split; [reflexivity|].
  exists 3%nat. split; [reflexivity|]. lia.
Defined.

End ProbeFacts.

(** ** The Terraform command line and environment *)

Module TerraformFacts.
Import Credentials Terraform.

(** The variables a call passes, if it passes any. *)
Definition callVars (c : EngineCall) : gmap string string :=
  match c with
  | CallInit _ => ∅
  | CallValidate _ => ∅
  | CallPlan _ vars => vars
  | CallApply _ _ vars => vars
  | CallDestroy _ _ vars => vars
  end.

(** The words of a command line that are not variable assignments. *)
Definition keywords : list string :=
  ["init"; "validate"; "plan"; "apply"; "destroy"; "-var"; "-auto-approve"].

Lemma In_varArgs vars a :
  In a (varArgs vars) <->
  exists k v,
    vars !! k = Some v /\ isCredentialVar k = false /\
    (a = "-var" \/ a = k +:+ "=" +:+ v).
Proof.
  unfold varArgs. rewrite in_flat_map. split.
  - intros ([k v] & Hkv & Ha). cbn [fst snd] in Ha.
    apply list_elem_of_In, elem_of_map_to_list in Hkv.
    destruct (isCredentialVar k) eqn:Hk; [destruct Ha|].
    exists k, v. destruct Ha as [<-|[<-|[]]]; auto.
  - intros (k & v & Hkv & Hk & Ha). exists (k, v). split.
    + now apply list_elem_of_In, elem_of_map_to_list.
    + cbn [fst snd]. rewrite Hk. destruct Ha as [->| ->]; [now left|].
      right. now left.
Qed.

(** X13. What reaches the command line of a Terraform call: apart from the
    subcommand, [-var] and [-auto-approve], every argument is the
    assignment [k=v] of a variable of the call whose name is not one of the
    credential names; and each such variable is assigned on the command
    line of plan, apply and destroy. *)
Theorem command_line_carries_plain_variables cm c :
  (forall a, In a (Args (commandOf cm c)) ->
     In a keywords \/
     exists k v,
       callVars c !! k = Some v /\ isCredentialVar k = false /\
       a = k +:+ "=" +:+ v) /\
  (forall k v,
     callVars c !! k = Some v -> isCredentialVar k = false ->
     In (k +:+ "=" +:+ v) (Args (commandOf cm c))).
Proof.
  split.
  - intros a Ha.
    assert (Hvar : forall vars, In a (varArgs vars) ->
              In a keywords \/
              exists k v,
                vars !! k = Some v /\ isCredentialVar k = false /\
                a = k +:+ "=" +:+ v).
    { intros vars Hin. apply In_varArgs in Hin as (k & v & Hkv & Hk & [-> | ->]).
      - left. unfold keywords. simpl. tauto.
      - right. now exists k, v. }
    assert (Hauto : forall b, In a (autoApproveArgs b) -> In a keywords).
    { intros [] Hin; [|destruct Hin]. destruct Hin as [<-|[]].
      unfold keywords. simpl. tauto. }
    destruct c as [d|d|d vars|d b vars|d b vars]; cbn in Ha.
    + left. destruct Ha as [<-|[]]. unfold keywords. simpl. tauto.
    + left. destruct Ha as [<-|[]]. unfold keywords. simpl. tauto.
    + destruct Ha as [<-|Ha]; [left; unfold keywords; simpl; tauto|].
      now apply Hvar.
    + destruct Ha as [<-|Ha]; [left; unfold keywords; simpl; tauto|].
      apply in_app_iff in Ha as [Ha|Ha]; [now apply Hvar|left; eauto].
    + destruct Ha as [<-|Ha]; [left; unfold keywords; simpl; tauto|].
      apply in_app_iff in Ha as [Ha|Ha]; [now apply Hvar|left; eauto].
  - intros k v Hkv Hk.
    assert (Hin : In (k +:+ "=" +:+ v) (varArgs (callVars c)))
      by (apply In_varArgs; exists k, v; auto).
    destruct c as [d|d|d vars|d b vars|d b vars]; cbn in *.
    + now rewrite lookup_empty in Hkv.
    + now rewrite lookup_empty in Hkv.
    + now right.
    + right. apply in_app_iff. now left.
    + right. apply in_app_iff. now left.
Qed.

(** The environment variables [setupCloudProviderEnv] may set. *)
Definition managed : list string :=
  ["TENCENTCLOUD_SECRET_ID"; "TENCENTCLOUD_SECRET_KEY"; "TENCENTCLOUD_REGION";
   "ALICLOUD_ACCESS_KEY"; "ALICLOUD_SECRET_KEY"; "ALICLOUD_REGION";
   "HUAWEICLOUD_ACCESS_KEY"; "HUAWEICLOUD_SECRET_KEY"; "HUAWEICLOUD_REGION";
   "AWS_ACCESS_KEY_ID"; "AWS_SECRET_ACCESS_KEY"; "AWS_REGION"].

Lemma setCreds_other ak sk rg c envMap key :
  key <> ak -> key <> sk -> key <> rg ->
  setCreds ak sk rg c envMap !! key = envMap !! key.
Proof.
  intros Hak Hsk Hrg. unfold setCreds.
  destruct (nonempty (Region c));
    rewrite ?lookup_insert_ne by congruence; reflexivity.
Qed.

Lemma overrideFromVars_other vars idVar keyVar ak sk envMap key :
  key <> ak -> key <> sk ->
  overrideFromVars vars idVar keyVar ak sk envMap !! key = envMap !! key.
Proof.
  intros Hak Hsk. unfold overrideFromVars.
  destruct (vars !! idVar) as [id|]; [|reflexivity].
  destruct (nonempty id); [|reflexivity].
  destruct (vars !! keyVar) as [k|]; [|reflexivity].
  destruct (nonempty k); [|reflexivity].
  rewrite !lookup_insert_ne by congruence. reflexivity.
Qed.

(** X14. The child process inherits the rest of the environment: a variable
    that is not one of the twelve credential and region variables of the
    four providers has, in the environment of every Terraform call, the
    value it has in the process environment (or is as absent). *)
Theorem environment_is_inherited cm vars key :
  ~ In key managed ->
  cloudProviderEnvMap cm vars !! key = environ cm !! key.
Proof.
  intros Hkey. unfold cloudProviderEnvMap.
  assert (Hset : forall ak sk rg c envMap,
            In ak managed -> In sk managed -> In rg managed ->
            setCreds ak sk rg c envMap !! key = envMap !! key).
  { intros ak sk rg c envMap Hak Hsk Hrg.
    apply setCreds_other; intros ->; contradiction. }
  assert (Hover : forall idVar keyVar ak sk envMap,
            In ak managed -> In sk managed ->
            overrideFromVars vars idVar keyVar ak sk envMap !! key =
            envMap !! key).
  { intros idVar keyVar ak sk envMap Hak Hsk.
    apply overrideFromVars_other; intros ->; contradiction. }
  repeat match goal with
  | |- context [if ?b then _ else _] => destruct b
  | |- context [match GetCredentials ?m ?p with _ => _ end] =>
      destruct (GetCredentials m p)
  end;
  repeat first
    [rewrite Hset by (unfold managed; simpl; tauto)
    |rewrite Hover by (unfold managed; simpl; tauto)];
  reflexivity.
Qed.

(** Whether [vars] carries a pair of non-empty credential variables. *)
Definition overrides (vars : gmap string string) (idVar keyVar : string)
  : option (string * string) :=
  match vars !! idVar, vars !! keyVar with
  | Some id, Some key =>
      if nonempty id && nonempty key then Some (id, key) else None
  | _, _ => None
  end.

(** The keys of a provider the credential manager yields, when both are
    non-empty. *)
Definition stored (cm : credentialManager) (p : Provider)
  : option (string * string) :=
  if HasCredentials cm p then
    match GetCredentials cm p with
    | Ok c =>
        if nonempty (AccessKey c) && nonempty (SecretKey c)
        then Some (AccessKey c, SecretKey c) else None
    | Err _ => None
    end
  else None.

Lemma overrideFromVars_keys vars idVar keyVar ak sk envMap :
  ak <> sk ->
  overrideFromVars vars idVar keyVar ak sk envMap !! ak =
    match overrides vars idVar keyVar with
    | Some (id, _) => Some id
    | None => envMap !! ak
    end /\
  overrideFromVars vars idVar keyVar ak sk envMap !! sk =
    match overrides vars idVar keyVar with
    | Some (_, key) => Some key
    | None => envMap !! sk
    end.
Proof.
  intros Hne. unfold overrideFromVars, overrides.
  destruct (vars !! idVar) as [id|]; [|now split].
  destruct (nonempty id); cbn [andb].
  - destruct (vars !! keyVar) as [k|]; [|now split].
    destruct (nonempty k); [|now split]. split.
    + rewrite lookup_insert_ne by congruence. apply lookup_insert_eq.
    + apply lookup_insert_eq.
  - destruct (vars !! keyVar); now split.
Qed.

Lemma setCreds_keys ak sk rg c envMap :
  ak <> sk -> ak <> rg -> sk <> rg ->
  setCreds ak sk rg c envMap !! ak = Some (AccessKey c) /\
  setCreds ak sk rg c envMap !! sk = Some (SecretKey c).
Proof.
  intros H1 H2 H3. unfold setCreds.
  destruct (nonempty (Region c)); split;
    rewrite ?(lookup_insert_ne _ rg) by congruence.
  - rewrite lookup_insert_ne by congruence. apply lookup_insert_eq.
  - apply lookup_insert_eq.
  - rewrite lookup_insert_ne by congruence. apply lookup_insert_eq.
  - apply lookup_insert_eq.
Qed.

Lemma fromManager_keys cm p ak sk rg envMap :
  ak <> sk -> ak <> rg -> sk <> rg ->
  let env :=
    if HasCredentials cm p then
      match GetCredentials cm p with
      | Ok c =>
          if nonempty (AccessKey c) && nonempty (SecretKey c)
          then setCreds ak sk rg c envMap
          else envMap
      | Err _ => envMap
      end
    else envMap in
  (env !! ak, env !! sk) =
  match stored cm p with
  | Some (a, s) => (Some a, Some s)
  | None => (envMap !! ak, envMap !! sk)
  end.
Proof.
  intros H1 H2 H3. cbv zeta. unfold stored.
  destruct (HasCredentials cm p); [|reflexivity].
  destruct (GetCredentials cm p) as [c|]; [|reflexivity].
  destruct (nonempty (AccessKey c) && nonempty (SecretKey c));
    [|reflexivity].
  destruct (setCreds_keys ak sk rg c envMap H1 H2 H3) as [-> ->].
  reflexivity.
Qed.

(** X15. Which Aliyun keys a Terraform call runs with: the pair
    [access_key], [secret_key] of the call's variables when both are
    non-empty; else the keys of the credential manager when both are
    non-empty; else what the process environment holds.  The Tencent keys
    are chosen in the same way from [tencentcloud_secret_id] and
    [tencentcloud_secret_key]. *)
Theorem keys_in_variables_win cm vars :
  let env := cloudProviderEnvMap cm vars in
  let choose (fromVars fromManager : option (string * string))
             (akName skName : string) :=
    match fromVars, fromManager with
    | Some (ak, sk), _ => (Some ak, Some sk)
    | None, Some (ak, sk) => (Some ak, Some sk)
    | None, None => (environ cm !! akName, environ cm !! skName)
    end in
  (env !! "ALICLOUD_ACCESS_KEY", env !! "ALICLOUD_SECRET_KEY") =
    choose (overrides vars "access_key" "secret_key")
           (stored cm ProviderAliyun)
           "ALICLOUD_ACCESS_KEY" "ALICLOUD_SECRET_KEY" /\
  (env !! "TENCENTCLOUD_SECRET_ID", env !! "TENCENTCLOUD_SECRET_KEY") =
    choose (overrides vars "tencentcloud_secret_id" "tencentcloud_secret_key")
           (stored cm ProviderTencent)
           "TENCENTCLOUD_SECRET_ID" "TENCENTCLOUD_SECRET_KEY".
Proof.
  cbv zeta. unfold cloudProviderEnvMap.
  set (e0 := environ cm).
  set (e1 := if HasCredentials cm ProviderTencent then _ else e0).
  set (e2 := overrideFromVars vars "tencentcloud_secret_id" _ _ _ e1).
  set (e3 := if HasCredentials cm ProviderAliyun then _ else e2).
  set (e4 := overrideFromVars vars "access_key" _ _ _ e3).
  set (e5 := if HasCredentials cm ProviderHuaweicloud then _ else e4).
  set (e6 := if HasCredentials cm ProviderAWS then _ else e5).
  assert (H65 : forall key,
            key <> "AWS_ACCESS_KEY_ID" -> key <> "AWS_SECRET_ACCESS_KEY" ->
            key <> "AWS_REGION" -> e6 !! key = e5 !! key).
  { intros key H1 H2 H3. unfold e6.
    destruct (HasCredentials cm ProviderAWS); [|reflexivity].
    destruct (GetCredentials cm ProviderAWS); [|reflexivity].
    now apply setCreds_other. }
  assert (H54 : forall key,
            key <> "HUAWEICLOUD_ACCESS_KEY" ->
            key <> "HUAWEICLOUD_SECRET_KEY" ->
            key <> "HUAWEICLOUD_REGION" -> e5 !! key = e4 !! key).
  { intros key H1 H2 H3. unfold e5.
    destruct (HasCredentials cm ProviderHuaweicloud); [|reflexivity].
    destruct (GetCredentials cm ProviderHuaweicloud); [|reflexivity].
    now apply setCreds_other. }
  assert (H32 : forall key,
            key <> "ALICLOUD_ACCESS_KEY" -> key <> "ALICLOUD_SECRET_KEY" ->
            key <> "ALICLOUD_REGION" -> e3 !! key = e2 !! key).
  { intros key H1 H2 H3. unfold e3.
    destruct (HasCredentials cm ProviderAliyun); [|reflexivity].
    destruct (GetCredentials cm ProviderAliyun) as [c|]; [|reflexivity].
    destruct (nonempty (AccessKey c) && nonempty (SecretKey c));
      [|reflexivity].
    now apply setCreds_other. }
  assert (H10 : forall key,
            key <> "TENCENTCLOUD_SECRET_ID" ->
            key <> "TENCENTCLOUD_SECRET_KEY" ->
            key <> "TENCENTCLOUD_REGION" -> e1 !! key = e0 !! key).
  { intros key H1 H2 H3. unfold e1.
    destruct (HasCredentials cm ProviderTencent); [|reflexivity].
    destruct (GetCredentials cm ProviderTencent) as [c|]; [|reflexivity].
    destruct (nonempty (AccessKey c) && nonempty (SecretKey c));
      [|reflexivity].
    now apply setCreds_other. }
  split.
  - rewrite !H65, !H54 by discriminate.
    destruct (overrideFromVars_keys vars "access_key" "secret_key"
                "ALICLOUD_ACCESS_KEY" "ALICLOUD_SECRET_KEY" e3) as [Ha Hs];
      [discriminate|].
    fold e4 in Ha, Hs. rewrite Ha, Hs.
    destruct (overrides vars "access_key" "secret_key") as [[ak sk]|];
      [reflexivity|].
    unfold e3.
    rewrite (fromManager_keys cm ProviderAliyun "ALICLOUD_ACCESS_KEY"
               "ALICLOUD_SECRET_KEY" "ALICLOUD_REGION" e2)
      by discriminate.
    destruct (stored cm ProviderAliyun) as [[a k]|]; [reflexivity|].
    unfold e2. rewrite !overrideFromVars_other by discriminate.
    rewrite !H10 by discriminate. reflexivity.
  - rewrite !H65, !H54 by discriminate.
    unfold e4. rewrite !overrideFromVars_other by discriminate.
    rewrite !H32 by discriminate.
    destruct (overrideFromVars_keys vars "tencentcloud_secret_id"
                "tencentcloud_secret_key" "TENCENTCLOUD_SECRET_ID"
                "TENCENTCLOUD_SECRET_KEY" e1) as [Ha Hs]; [discriminate|].
    fold e2 in Ha, Hs. rewrite Ha, Hs.
    destruct (overrides vars "tencentcloud_secret_id"
                "tencentcloud_secret_key") as [[ak sk]|]; [reflexivity|].
    unfold e1.
    rewrite (fromManager_keys cm ProviderTencent "TENCENTCLOUD_SECRET_ID"
               "TENCENTCLOUD_SECRET_KEY" "TENCENTCLOUD_REGION" e0)
      by discriminate.
    destruct (stored cm ProviderTencent) as [[a k]|]; reflexivity.
Qed.

(** A deploy of a Huawei Cloud template passes that provider's keys as
    [access_key] and [secret_key]. *)
Definition huaweiVars : gmap string string :=
  {[ "access_key" := "HW-ACCESS"; "secret_key" := "HW-SECRET" ]}.

Lemma command_line_carries_plain_variables_witness :
  let c := CallPlan "/tmp/s1" (<["region" := "cn-north-4"]> huaweiVars) in
  callVars c !! "region" = Some "cn-north-4" /\
  isCredentialVar "region" = false /\
  In "region=cn-north-4"
    (Args (commandOf {| creds := fun _ => None; environ := ∅ |} c)).
Proof.
  intros c.
  assert (Hvar : callVars c !! "region" = Some "cn-north-4") by reflexivity.
  assert (Hplain : isCredentialVar "region" = false) by reflexivity.
  split; [exact Hvar|]. split; [exact Hplain|].
  exact (proj2 (command_line_carries_plain_variables
                  {| creds := fun _ => None; environ := ∅ |} c)
               "region" "cn-north-4" Hvar Hplain).
Defined.

Lemma environment_is_inherited_witness :
  ~ In "PATH" managed /\
  cloudProviderEnvMap
    {| creds := fun _ => None; environ := {[ "PATH" := "/usr/bin" ]} |}
    huaweiVars !! "PATH" = Some "/usr/bin".
Proof.
  assert (Hpath : ~ In "PATH" managed).
  { unfold managed. simpl. intros H.
    repeat (destruct H as [H|H]; [discriminate|]). exact H. }
  split; [exact Hpath|].
  rewrite (environment_is_inherited _ _ "PATH" Hpath). reflexivity.
Defined.

End TerraformFacts.

(** ** The credential file *)

Module CredentialStoreFacts.
Import Credentials CredentialStore.

Lemma Provider_String_inj p q :
  Provider_String p = Provider_String q -> p = q.
Proof. destruct p, q; simpl; intros H; try reflexivity; discriminate. Qed.

Lemma NoDup_allProviders : List.NoDup allProviders.
Proof.
  unfold allProviders.
  repeat (constructor; [simpl; intuition discriminate|]). constructor.
Qed.

Lemma In_allProviders p : In p allProviders.
Proof. destruct p; unfold allProviders; simpl; tauto. Qed.

Lemma split_at {A} (x : A) (l : list A) :
  List.NoDup l -> In x l ->
  exists pre post, l = pre ++ x :: post /\ ~ In x pre /\ ~ In x post.
Proof.
  intros Hnd Hin. apply in_split in Hin as (pre & post & ->).
  exists pre, post. split; [reflexivity|].
  apply NoDup_remove_2 in Hnd. rewrite in_app_iff in Hnd. tauto.
Qed.

(** *** In memory *)

Section Save.
Variable Dir : string -> string.

Lemma save_manager s disk :
  manager (snd (fst (save Dir s disk))) = manager s.
Proof.
  unfold save.
  destruct (negb (nonempty (configPath s))); cbn [configPath manager];
    repeat match goal with
    | |- context [match ?x with _ => _ end] => destruct x
    end; reflexivity.
Qed.

(** X16. [SetCredentials] takes effect in memory whether or not the file
    can be written: afterwards [GetCredentials] yields exactly the
    credentials set, [HasCredentials] holds, and the other providers are as
    they were. *)
Theorem SetCredentials_then_GetCredentials s disk provider c :
  let after := manager (snd (fst (SetCredentials Dir s disk provider c))) in
  GetCredentials after provider = Ok c /\
  HasCredentials after provider = true /\
  forall other, other <> provider ->
    GetCredentials after other = GetCredentials (manager s) other /\
    HasCredentials after other = HasCredentials (manager s) other.
Proof.
  cbv zeta. unfold SetCredentials. rewrite save_manager.
  assert (Hm : forall st : Store,
            manager (if negb (nonempty (configPath st))
                     then {| configPath := ".redc.ini";
                             manager := manager st |}
                     else st) = manager st)
    by (intros st; now destruct (negb _)).
  rewrite Hm. cbn [manager].
  unfold GetCredentials, HasCredentials, setEntry.
  cbn [creds with_creds environ getEnvAccessKey getEnvSecretKey getEnvRegion].
  destruct (decide (provider = provider)) as [_|Hne]; [|congruence].
  split; [reflexivity|]. split; [reflexivity|].
  intros other Hother.
  destruct (decide (other = provider)); [congruence|]. now split.
Qed.

(** *** On disk *)

(** What [save] makes of a provider's section. *)
Definition sectionOf (provider : Provider) (c : Credentials)
    (old : gmap string string) : gmap string string :=
  let sec :=
    <[(if is_Tencent provider then "secret_id" else "access_key") :=
        AccessKey c]> old in
  let sec := <["secret_key" := SecretKey c]> sec in
  if nonempty (Region c) then <["region" := Region c]> sec else sec.

Definition writeSection (m : credentialManager) (cfg : (gmap string (gmap string string)))
    (provider : Provider) : (gmap string (gmap string string)) :=
  match creds m provider with
  | None => cfg
  | Some c =>
      <[Provider_String provider :=
          sectionOf provider c
            (default ∅ (cfg !! Provider_String provider))]> cfg
  end.

Lemma iniSet_iniSet cfg section k1 v1 k2 v2 :
  iniSet (iniSet cfg section k1 v1) section k2 v2 =
  <[section := <[k2 := v2]> (<[k1 := v1]> (default ∅ (cfg !! section)))]> cfg.
Proof.
  unfold iniSet. rewrite lookup_insert_eq. cbn [from_option id].
  now rewrite insert_insert_eq.
Qed.

Lemma writeSections_fold m l cfg :
  fold_left (writeSection m) l cfg =
  fold_left
    (fun cfg provider =>
       match creds m provider with
       | None => cfg
       | Some c =>
           let sectionName := Provider_String provider in
           let cfg :=
             if is_Tencent provider
             then iniSet cfg sectionName "secret_id" (AccessKey c)
             else iniSet cfg sectionName "access_key" (AccessKey c) in
           let cfg := iniSet cfg sectionName "secret_key" (SecretKey c) in
           if nonempty (Region c)
           then iniSet cfg sectionName "region" (Region c)
           else cfg
       end) l cfg.
Proof.
  revert cfg. induction l as [|p l IH]; intros cfg; [reflexivity|].
  cbn [fold_left]. rewrite <- IH. f_equal.
  unfold writeSection, sectionOf. destruct (creds m p) as [c|]; [|reflexivity].
  cbv zeta.
  destruct (is_Tencent p), (nonempty (Region c));
    rewrite ?iniSet_iniSet; unfold iniSet;
    rewrite ?lookup_insert_eq; cbn [from_option id];
    rewrite ?insert_insert_eq; reflexivity.
Qed.

Lemma writeSections_other m l cfg p :
  ~ In p l ->
  fold_left (writeSection m) l cfg !! Provider_String p =
  cfg !! Provider_String p.
Proof.
  revert cfg. induction l as [|q l IH]; intros cfg Hp; [reflexivity|].
  cbn [fold_left]. rewrite IH by (intros H; apply Hp; now right).
  unfold writeSection. destruct (creds m q); [|reflexivity].
  apply lookup_insert_ne. intros Heq. apply Provider_String_inj in Heq.
  apply Hp. now left.
Qed.

Lemma writeSections_section m cfg p :
  writeSections m cfg !! Provider_String p =
  match creds m p with
  | None => cfg !! Provider_String p
  | Some c =>
      Some (sectionOf p c (default ∅ (cfg !! Provider_String p)))
  end.
Proof.
  unfold writeSections. rewrite <- writeSections_fold.
  destruct (split_at p allProviders NoDup_allProviders (In_allProviders p))
    as (pre & post & -> & Hpre & Hpost).
  rewrite fold_left_app. cbn [fold_left].
  rewrite writeSections_other by exact Hpost.
  unfold writeSection at 1.
  destruct (creds m p) as [c|].
  - rewrite lookup_insert_eq. now rewrite writeSections_other.
  - now apply writeSections_other.
Qed.

(** The entry [load] makes for a provider from a parsed file. *)
Definition fileEntry (cfg : (gmap string (gmap string string))) (m : credentialManager)
    (provider : Provider) : option Credentials :=
  let sectionName := Provider_String provider in
  let accessKey :=
    if is_Tencent provider then
      if nonempty (iniValue cfg sectionName "secret_id")
      then iniValue cfg sectionName "secret_id"
      else iniValue cfg sectionName "access_key"
    else iniValue cfg sectionName "access_key" in
  let secretKey := iniValue cfg sectionName "secret_key" in
  let region := iniValue cfg sectionName "region" in
  let accessKey :=
    if nonempty accessKey then accessKey else getEnvAccessKey m provider in
  let secretKey :=
    if nonempty secretKey then secretKey else getEnvSecretKey m provider in
  let region :=
    if nonempty region then region else getEnvRegion m provider in
  if nonempty accessKey && nonempty secretKey
  then Some {| AccessKey := accessKey; SecretKey := secretKey;
               Region := region |}
  else None.

Definition loadEntry (cfg : (gmap string (gmap string string))) (m : credentialManager)
    (provider : Provider) : credentialManager :=
  match fileEntry cfg m provider with
  | Some c => setEntry m provider c
  | None => m
  end.

Lemma loadFromFile_fold cfg l m :
  fold_left (loadEntry cfg) l m =
  fold_left
    (fun m provider =>
       let sectionName := Provider_String provider in
       let accessKey :=
         if is_Tencent provider then
           let accessKey := iniValue cfg sectionName "secret_id" in
           if nonempty accessKey then accessKey
           else iniValue cfg sectionName "access_key"
         else iniValue cfg sectionName "access_key" in
       let secretKey := iniValue cfg sectionName "secret_key" in
       let region := iniValue cfg sectionName "region" in
       let accessKey :=
         if nonempty accessKey then accessKey
         else getEnvAccessKey m provider in
       let secretKey :=
         if nonempty secretKey then secretKey
         else getEnvSecretKey m provider in
       let region :=
         if nonempty region then region else getEnvRegion m provider in
       if nonempty accessKey && nonempty secretKey
       then setEntry m provider
              {| AccessKey := accessKey; SecretKey := secretKey;
                 Region := region |}
       else m) l m.
Proof.
  revert m. induction l as [|p l IH]; intros m; [reflexivity|].
  cbn [fold_left]. rewrite <- IH. f_equal.
  unfold loadEntry, fileEntry. cbv zeta.
  now destruct (nonempty _ && nonempty _).
Qed.

Lemma loadEntry_environ cfg m p : environ (loadEntry cfg m p) = environ m.
Proof. unfold loadEntry. now destruct (fileEntry cfg m p). Qed.

Lemma fileEntry_environ cfg m m' p :
  environ m' = environ m -> fileEntry cfg m' p = fileEntry cfg m p.
Proof.
  intros He. unfold fileEntry, getEnvAccessKey, getEnvSecretKey, getEnvRegion.
  now rewrite He.
Qed.

Lemma loadEntries_other cfg l m p :
  ~ In p l ->
  creds (fold_left (loadEntry cfg) l m) p = creds m p /\
  environ (fold_left (loadEntry cfg) l m) = environ m.
Proof.
  revert m. induction l as [|q l IH]; intros m Hp; [now split|].
  cbn [fold_left].
  destruct (IH (loadEntry cfg m q)) as [Hc He];
    [intros H; apply Hp; now right|].
  rewrite Hc, He, loadEntry_environ. split; [|reflexivity].
  unfold loadEntry. destruct (fileEntry cfg m q); [|reflexivity].
  cbn. destruct (decide (p = q)) as [->|]; [|reflexivity].
  exfalso. apply Hp. now left.
Qed.

Lemma environ_fold cfg l m :
  environ (fold_left (loadEntry cfg) l m) = environ m.
Proof.
  revert m. induction l as [|q l IH]; intros m; [reflexivity|].
  cbn [fold_left]. now rewrite IH, loadEntry_environ.
Qed.

Lemma loadFromFile_entry cfg m p :
  creds (loadFromFile cfg m) p =
  match fileEntry cfg m p with
  | Some c => Some c
  | None => creds m p
  end.
Proof.
  unfold loadFromFile. rewrite <- loadFromFile_fold.
  destruct (split_at p allProviders NoDup_allProviders (In_allProviders p))
    as (pre & post & -> & Hpre & Hpost).
  rewrite fold_left_app. cbn [fold_left].
  destruct (loadEntries_other cfg post
              (loadEntry cfg (fold_left (loadEntry cfg) pre m) p) p Hpost)
    as [-> _].
  destruct (loadEntries_other cfg pre m p Hpre) as [Hc He].
  unfold loadEntry at 1.
  rewrite (fileEntry_environ cfg m _ p He).
  destruct (fileEntry cfg m p) as [c|]; [|exact Hc].
  cbn. now destruct (decide (p = p)).
Qed.

Lemma iniValue_sectionOf cfg p c old :
  cfg !! Provider_String p = Some (sectionOf p c old) ->
  nonempty (AccessKey c) = true ->
  (if is_Tencent p
   then iniValue cfg (Provider_String p) "secret_id"
   else iniValue cfg (Provider_String p) "access_key") = AccessKey c /\
  iniValue cfg (Provider_String p) "secret_key" = SecretKey c /\
  (nonempty (Region c) = true ->
   iniValue cfg (Provider_String p) "region" = Region c).
Proof.
  intros Hsec Hak. unfold iniValue. rewrite Hsec. cbn [from_option id].
  unfold sectionOf. cbv zeta.
  destruct (nonempty (Region c)) eqn:Hr.
  - repeat split.
    + destruct (is_Tencent p); cbv beta iota;
        rewrite !lookup_insert_ne by discriminate;
        now rewrite lookup_insert_eq.
    + rewrite lookup_insert_ne by discriminate.
      now rewrite lookup_insert_eq.
    + intros _. now rewrite lookup_insert_eq.
  - repeat split.
    + destruct (is_Tencent p); cbv beta iota;
        rewrite !lookup_insert_ne by discriminate;
        now rewrite lookup_insert_eq.
    + now rewrite lookup_insert_eq.
    + discriminate.
Qed.

(** X17. Credentials that were set are found again by the next process:
    when both keys are non-empty and the file could be written, a
    credential manager created from the same path yields the access key and
    the secret key that were set, whatever the environment holds, and the
    region that was set when it is not empty. *)
Theorem SetCredentials_persists s disk provider c s' disk' env :
  nonempty (AccessKey c) = true ->
  nonempty (SecretKey c) = true ->
  SetCredentials Dir s disk provider c = (None, s', disk') ->
  exists loaded,
    GetCredentials
      (manager (NewCredentialManager env disk' (configPath s')))
      provider = Ok loaded /\
    AccessKey loaded = AccessKey c /\
    SecretKey loaded = SecretKey c /\
    (nonempty (Region c) = true -> Region loaded = Region c).
Proof.
  intros Hak Hsk Hset. unfold SetCredentials in Hset.
  cbn [configPath manager] in Hset.
  set (m1 := setEntry (manager s) provider c) in Hset.
  set (s1 := if negb (nonempty (configPath s)) then _ else _) in Hset.
  assert (Hm1 : manager s1 = m1) by (unfold s1; now destruct (negb _)).
  assert (Hpath : nonempty (configPath s1) = true).
  { unfold s1. destruct (nonempty (configPath s)) eqn:Hp; cbn; auto. }
  unfold save in Hset. rewrite Hpath in Hset. cbn [negb] in Hset.
  destruct (if negb (String.eqb (Dir (configPath s1)) ".") &&
               nonempty (Dir (configPath s1))
            then mkdirError disk else None); [discriminate|].
  destruct (saveError disk); [discriminate|].
  injection Hset as <- <-.
  unfold NewCredentialManager, load. cbn [configPath manager files].
  rewrite Hpath. cbn [negb]. rewrite lookup_insert_eq.
  set (cfg := writeSections (manager s1) _).
  set (m0 := {| creds := fun _ => None; environ := env |}).
  assert (Hsec : exists old,
            cfg !! Provider_String provider = Some (sectionOf provider c old)).
  { unfold cfg. rewrite writeSections_section, Hm1. unfold m1. cbn.
    destruct (decide (provider = provider)); [|congruence]. eauto. }
  destruct Hsec as (old & Hsec).
  destruct (iniValue_sectionOf cfg provider c old Hsec Hak)
    as (Ha & Hs & Hr).
  assert (Hentry : exists loaded,
            fileEntry cfg m0 provider = Some loaded /\
            AccessKey loaded = AccessKey c /\
            SecretKey loaded = SecretKey c /\
            (nonempty (Region c) = true -> Region loaded = Region c)).
  { unfold fileEntry. cbv zeta. rewrite Hs.
    assert (Hfile :
      (if is_Tencent provider
       then if nonempty (iniValue cfg (Provider_String provider) "secret_id")
            then iniValue cfg (Provider_String provider) "secret_id"
            else iniValue cfg (Provider_String provider) "access_key"
       else iniValue cfg (Provider_String provider) "access_key") =
      AccessKey c).
    { destruct (is_Tencent provider); [|exact Ha]. now rewrite Ha, Hak. }
    rewrite Hfile, Hak, Hsk. cbv iota. rewrite Hak, Hsk. cbn [andb].
    eexists. split; [reflexivity|].
    cbn [AccessKey SecretKey Region]. repeat split.
    intros Hreg. rewrite (Hr Hreg). now rewrite Hreg. }
  destruct Hentry as (loaded & Hentry & Hla & Hls & Hlr).
  exists loaded. split; [|auto].
  unfold GetCredentials. cbn [manager].
  now rewrite loadFromFile_entry, Hentry.
Qed.

(** X18. [RemoveCredentials] removes from memory only: the provider has no
    entry afterwards, but its section of the file is written back as it
    was, so the next process loads for it what it would have loaded before
    the removal. *)
Theorem RemoveCredentials_keeps_the_file s disk provider s' disk' env cfg :
  RemoveCredentials Dir s disk provider = (None, s', disk') ->
  files disk !! configPath s' = Some (Parsed cfg) ->
  creds (manager s') provider = None /\
  creds (manager (NewCredentialManager env disk' (configPath s'))) provider =
  creds (manager (NewCredentialManager env disk (configPath s'))) provider.
Proof.
  intros Hrm Hfile. unfold RemoveCredentials in Hrm.
  cbn [configPath manager] in Hrm.
  set (m1 := deleteEntry (manager s) provider) in Hrm.
  set (s1 := if negb (nonempty (configPath s)) then _ else _) in Hrm.
  assert (Hm1 : manager s1 = m1) by (unfold s1; now destruct (negb _)).
  assert (Hpath : nonempty (configPath s1) = true).
  { unfold s1. destruct (nonempty (configPath s)) eqn:Hp; cbn; auto. }
  unfold save in Hrm. rewrite Hpath in Hrm. cbn [negb] in Hrm.
  destruct (if negb (String.eqb (Dir (configPath s1)) ".") &&
               nonempty (Dir (configPath s1))
            then mkdirError disk else None); [discriminate|].
  destruct (saveError disk); [discriminate|].
  injection Hrm as <- <-. rewrite Hfile. split.
  - rewrite Hm1. unfold m1. cbn. now destruct (decide (provider = provider)).
  - unfold NewCredentialManager, load. cbn [configPath manager files].
    rewrite Hpath. cbn [negb]. rewrite lookup_insert_eq, Hfile.
    cbn [manager]. rewrite !loadFromFile_entry.
    set (m0 := {| creds := fun _ => None; environ := env |}).
    assert (Hsame : fileEntry (writeSections (manager s1) cfg) m0 provider =
                    fileEntry cfg m0 provider).
    { unfold fileEntry, iniValue.
      rewrite writeSections_section, Hm1. unfold m1. cbn.
      now destruct (decide (provider = provider)). }
    now rewrite Hsame.
Qed.

End Save.

(** *** Listing *)

Lemma hasProvider_In l p : hasProvider l p = true <-> In p l.
Proof.
  unfold hasProvider. rewrite existsb_exists. split.
  - intros (q & Hq & Heq). apply bool_decide_eq_true in Heq. now subst.
  - intros Hin. exists p. split; [exact Hin|]. now apply bool_decide_eq_true.
Qed.

Lemma listing_fold m l :
  forall acc,
    List.NoDup acc ->
    let listed :=
      fold_left
        (fun providers provider =>
           if negb (hasProvider providers provider) then
             if HasCredentials m provider then providers ++ [provider]
             else providers
           else providers) l acc in
    List.NoDup listed /\
    forall p, In p listed <->
      In p acc \/ (In p l /\ HasCredentials m p = true).
Proof.
  induction l as [|q l IH]; intros acc Hnd; cbv zeta; cbn [fold_left].
  - split; [exact Hnd|]. intros p. split; [now left|].
    intros [H|[Hf _]]; [exact H|destruct Hf].
  - destruct (hasProvider acc q) eqn:Hhas; cbn [negb].
    + destruct (IH acc Hnd) as [Hnd' Hin]. split; [exact Hnd'|].
      intros p. rewrite Hin. apply hasProvider_In in Hhas. split.
      * intros [H|[Hl Hc]]; [now left|right; split; [now right|exact Hc]].
      * intros [H|[[<-|Hl] Hc]]; [now left|now left|right; now split].
    + assert (Hq : ~ In q acc).
      { intros H. apply hasProvider_In in H. congruence. }
      destruct (HasCredentials m q) eqn:Hc.
      * destruct (IH (acc ++ [q])) as [Hnd' Hin].
        { apply NoDup_ListNoDup, NoDup_app. split.
          - now apply NoDup_ListNoDup.
          - split.
            + intros x Hx Hx'. apply list_elem_of_In in Hx, Hx'.
              destruct Hx' as [<-|[]]. contradiction.
            + apply NoDup_ListNoDup. repeat constructor. intros []. }
        split; [exact Hnd'|]. intros p. rewrite Hin, in_app_iff. simpl.
        split.
        -- intros [[H|[<-|[]]]|[Hl Hp]];
             [now left|right; split; [now left|exact Hc]
             |right; split; [now right|exact Hp]].
        -- intros [H|[[<-|Hl] Hp]];
             [left; now left|left; right; now left|right; now split].
      * destruct (IH acc Hnd) as [Hnd' Hin]. split; [exact Hnd'|].
        intros p. rewrite Hin. split.
        -- intros [H|[Hl Hp]]; [now left|right; split; [now right|exact Hp]].
        -- intros [H|[[<-|Hl] Hp]]; [now left|congruence|right; now split].
Qed.

(** X19. In whatever order the runtime visits the table, [ListProviders]
    lists exactly the providers for which [HasCredentials] holds, each
    once. *)
Theorem ListProviders_lists_the_configured visited m :
  Permutation visited allProviders ->
  List.NoDup (ListProviders visited m) /\
  forall p, In p (ListProviders visited m) <-> HasCredentials m p = true.
Proof.
  intros Hperm. unfold ListProviders.
  set (acc := List.filter _ visited).
  assert (Hnd : List.NoDup acc).
  { unfold acc. apply List.NoDup_filter.
    apply (Permutation_NoDup (Permutation_sym Hperm)).
    apply NoDup_allProviders. }
  destruct (listing_fold m allProviders acc Hnd) as [Hnd' Hin].
  split; [exact Hnd'|]. intros p. rewrite Hin. split.
  - intros [Hacc|[_ Hc]]; [|exact Hc].
    apply filter_In in Hacc as [_ Hsome].
    unfold HasCredentials. now destruct (creds m p).
  - intros Hc. right. split; [apply In_allProviders|exact Hc].
Qed.

(** *** Examples *)

Definition emptyDisk : Disk :=
  {| files := ∅; mkdirError := None; saveError := None |}.

Definition freshStore : Store :=
  {| configPath := "";
     manager := {| creds := fun _ => None; environ := ∅ |} |}.

Definition guangzhouKeys : Credentials :=
  {| AccessKey := "AKID"; SecretKey := "SECRET"; Region := "ap-guangzhou" |}.

Lemma SetCredentials_then_GetCredentials_witness :
  let after :=
    manager
      (snd (fst (SetCredentials (fun _ => ".") freshStore emptyDisk
                   ProviderTencent guangzhouKeys))) in
  ProviderAliyun <> ProviderTencent /\
  GetCredentials after ProviderTencent = Ok guangzhouKeys /\
  HasCredentials after ProviderAliyun =
    HasCredentials (manager freshStore) ProviderAliyun.
Proof.
  intros after.
  assert (Hother : ProviderAliyun <> ProviderTencent) by discriminate.
  destruct (SetCredentials_then_GetCredentials (fun _ => ".") freshStore
              emptyDisk ProviderTencent guangzhouKeys)
    as (Hget & _ & Hrest).
  split; [exact Hother|]. split; [exact Hget|].
  exact (proj2 (Hrest ProviderAliyun Hother)).
Defined.

Lemma SetCredentials_persists_witness :
  exists s' disk' loaded,
    SetCredentials (fun _ => ".") freshStore emptyDisk ProviderTencent
      guangzhouKeys = (None, s', disk') /\
    configPath s' = ".redc.ini" /\
    GetCredentials (manager (NewCredentialManager ∅ disk' (configPath s')))
      ProviderTencent = Ok loaded /\
    AccessKey loaded = "AKID" /\ SecretKey loaded = "SECRET" /\
    Region loaded = "ap-guangzhou".
Proof.
  destruct (SetCredentials_persists (fun _ => ".") freshStore emptyDisk
              ProviderTencent guangzhouKeys _ _ ∅ eq_refl eq_refl eq_refl)
    as (loaded & Hget & Hak & Hsk & Hregion).
  eexists. eexists. exists loaded. split; [reflexivity|].
  split; [reflexivity|]. split; [exact Hget|].
  split; [exact Hak|]. split; [exact Hsk|]. now apply Hregion.
Defined.

(** A file with a Tencent section, and the manager loaded from it. *)
Definition tencentFile : gmap string (gmap string string) :=
  {[ "tencent" := {[ "secret_id" := "AKID"; "secret_key" := "SECRET" ]} ]}.

Definition tencentDisk : Disk :=
  {| files := {[ ".redc.ini" := Parsed tencentFile ]};
     mkdirError := None; saveError := None |}.

Lemma RemoveCredentials_keeps_the_file_witness :
  let s := NewCredentialManager ∅ tencentDisk ".redc.ini" in
  let after :=
    RemoveCredentials (fun _ => ".") s tencentDisk ProviderTencent in
  HasCredentials (manager s) ProviderTencent = true /\
  fst (fst after) = None /\
  HasCredentials (manager (snd (fst after))) ProviderTencent = false /\
  HasCredentials
    (manager (NewCredentialManager ∅ (snd after)
                (configPath (snd (fst after)))))
    ProviderTencent = true.
Proof.
  intros s after.
  destruct (RemoveCredentials_keeps_the_file (fun _ => ".") s tencentDisk
              ProviderTencent (snd (fst after)) (snd after) ∅ tencentFile
              eq_refl eq_refl)
    as [Hgone Hsame].
  split; [reflexivity|]. split; [reflexivity|].
  split; [unfold HasCredentials; now rewrite Hgone|].
  unfold HasCredentials. now rewrite Hsame.
Defined.

Lemma ListProviders_lists_the_configured_witness :
  Permutation (rev allProviders) allProviders /\
  List.NoDup (ListProviders (rev allProviders) ProbeClaims.tencentConfigured)
  /\
  In ProviderTencent
    (ListProviders (rev allProviders) ProbeClaims.tencentConfigured).
Proof.
  assert (Hperm : Permutation (rev allProviders) allProviders)
    by apply Permutation_sym, Permutation_rev.
  split; [exact Hperm|].
  destruct (ListProviders_lists_the_configured (rev allProviders)
              ProbeClaims.tencentConfigured Hperm) as [Hnodup Hin].
  split; [exact Hnodup|]. apply Hin. reflexivity.
Defined.

End CredentialStoreFacts.

(** ** The order of the engine calls of a deploy *)

Module ProtocolFacts.
Import Credentials Probe Terraform Domain Orchestrator ServiceFacts Hoare.
Import Traces ProbeClaims.

(** How far the preparation of an apply has come: nothing is prepared, a
    directory is initialised, it is validated, or a plan for it with given
    variables has succeeded. *)
Inductive Stage : Type :=
| Unprepared
| Initialised (dir : string)
| Validated (dir : string)
| Planned (dir : string) (vars : gmap string string).

(** The stage after an event, or [None] when the event is out of order:
    a validate that does not follow a successful init of its directory, a
    plan that does not follow a successful validate of its directory, an
    apply that does not follow a successful plan of its directory with its
    variables, or a destroy. *)
Definition advance (st : Stage) (ev : Event) : option Stage :=
  match ev with
  | EvLog _ _ _ => Some st
  | EvCopyTemplate _ _ _ _ => Some st
  | EvEngine (CallInit dir) err =>
      Some (match err with None => Initialised dir | Some _ => Unprepared end)
  | EvEngine (CallValidate dir) err =>
      match st with
      | Initialised d =>
          if decide (d = dir)
          then Some (match err with
                     | None => Validated dir
                     | Some _ => Unprepared
                     end)
          else None
      | _ => None
      end
  | EvEngine (CallPlan dir vars) err =>
      match st with
      | Validated d =>
          if decide (d = dir)
          then Some (match err with
                     | None => Planned dir vars
                     | Some _ => Unprepared
                     end)
          else None
      | _ => None
      end
  | EvEngine (CallApply dir _ vars) _ =>
      match st with
      | Planned d v =>
          if decide (d = dir)
          then if decide (v = vars) then Some Unprepared else None
          else None
      | _ => None
      end
  | EvEngine (CallDestroy _ _ _) _ => None
  end.

Fixpoint follow (st : Stage) (evs : list Event) : option Stage :=
  match evs with
  | [] => Some st
  | ev :: rest =>
      match advance st ev with
      | Some st' => follow st' rest
      | None => None
      end
  end.

(** The events between [w0] and [w] are in order and end in stage [st]. *)
Definition reaches (w0 w : World) (st : Stage) : Prop :=
  exists evs, trace w = trace w0 ++ evs /\ follow Unprepared evs = Some st.

Definition inOrder (w0 w : World) : Prop := exists st, reaches w0 w st.

Lemma follow_app st evs ev :
  follow st (evs ++ [ev]) =
  match follow st evs with
  | Some st' => advance st' ev
  | None => None
  end.
Proof.
  revert st. induction evs as [|e evs IH]; intros st; simpl.
  - now destruct (advance st ev).
  - destruct (advance st e); [apply IH|reflexivity].
Qed.

Lemma reaches_refl w : reaches w w Unprepared.
Proof. exists []. split; [now rewrite app_nil_r|reflexivity]. Qed.

Lemma reaches_record w0 w st ev st' :
  reaches w0 w st -> advance st ev = Some st' ->
  reaches w0 (record w ev) st'.
Proof.
  intros (evs & Htr & Hev) Hst. exists (evs ++ [ev]). split.
  - simpl. now rewrite Htr, app_assoc.
  - now rewrite follow_app, Hev.
Qed.

Lemma reaches_with_scenarios w0 w st s :
  reaches w0 w st -> reaches w0 (with_scenarios w s) st.
Proof. auto. Qed.

Ltac solve_stage :=
  cbn [advance]; repeat rewrite decide_True by reflexivity; reflexivity.

Ltac solve_reaches :=
  lazymatch goal with
  | |- reaches _ (record _ _) _ =>
      eapply reaches_record; [solve_reaches|solve_stage]
  | |- reaches _ (with_scenarios _ _) _ =>
      apply reaches_with_scenarios; solve_reaches
  | |- reaches _ _ _ => first [eassumption|apply reaches_refl]
  end.

Ltac solve_order :=
  cbv beta in *;
  repeat match goal with
  | H : inOrder _ _ |- _ => destruct H as [? H]
  end;
  lazymatch goal with
  | |- inOrder _ _ => eexists; solve_reaches
  end.

Section Deploy.
Variable ProjectDir : string.
Variable cm : credentialManager.
Variable DescribeSpotPriceHistory :
  string -> string -> string -> string -> CmdOutput nat.
Variable DescribeInstanceTypeConfigs :
  string -> string -> string -> string -> CmdOutput (list InstanceTypeConfig).
Variable DescribeInstanceFamilyConfigs :
  string -> string -> string -> string -> CmdOutput (list InstanceTypeConfig).
Context {scheduler : Scheduler}.
Variable terraformSvc : Engine.
Variable copyTemplate : string -> string -> string -> option string.

Lemma deployAliyunProxyScenario_order projectName scenarioID autoApprove
    nodeCount toolName toolArgs scenario w0 w :
  inOrder w0 w ->
  wp (deployAliyunProxyScenario ProjectDir cm terraformSvc projectName
        scenarioID autoApprove nodeCount toolName toolArgs scenario) w
     (fun _ w' => inOrder w0 w').
Proof. intros Hw. unfold deployAliyunProxyScenario. wp_exec; solve_order. Qed.

Lemma deployRegionTurn_order projectName autoApprove nodeCount toolName
    toolArgs scenario project lastErr reg w0 w :
  inOrder w0 w ->
  wp (deployRegionTurn ProjectDir cm terraformSvc copyTemplate projectName
        autoApprove nodeCount toolName toolArgs scenario project lastErr reg)
     w (fun _ w' => inOrder w0 w').
Proof.
  intros Hw. unfold deployRegionTurn.
  repeat first
    [wp_step; intros
    |eapply wp_mono;
       [apply deployAliyunProxyScenario_order with (w0 := w0); solve_order
       |intros]];
    solve_order.
Qed.

Lemma deployRegions_order projectName autoApprove nodeCount toolName
    toolArgs scenario project regions w0 :
  forall lastErr successCount w,
    inOrder w0 w ->
    wp (deployRegions ProjectDir cm terraformSvc copyTemplate projectName
          autoApprove nodeCount toolName toolArgs scenario project regions
          lastErr successCount) w
       (fun _ w' => inOrder w0 w').
Proof.
  induction regions as [|reg rest IH]; intros lastErr successCount w Hw.
  - now apply wp_ret.
  - cbn [deployRegions]. wp_step.
    eapply wp_mono; [now apply deployRegionTurn_order with (w0 := w0)|].
    intros turn w1 Hw1. now apply IH.
Qed.

Lemma deployAliyunProxyWithRegion_order projectName scenarioID autoApprove
    nodeCount toolName toolArgs scenario region w0 w :
  inOrder w0 w ->
  wp (deployAliyunProxyWithRegion ProjectDir cm terraformSvc copyTemplate
        projectName scenarioID autoApprove nodeCount toolName toolArgs
        scenario region) w
     (fun _ w' => inOrder w0 w').
Proof.
  intros Hw. unfold deployAliyunProxyWithRegion. cbv zeta.
  repeat first
    [wp_step; intros
    |eapply wp_mono;
       [first
          [apply deployAliyunProxyScenario_order with (w0 := w0)
          |apply deployRegions_order with (w0 := w0)];
        solve_order
       |intros]];
    solve_order.
Qed.

Lemma placeNodes_order autoApprove scenario baseVars regions w0 :
  forall remainingNodes deployedRegions w,
    inOrder w0 w ->
    wp (placeNodes terraformSvc autoApprove scenario baseVars regions
          remainingNodes deployedRegions) w
       (fun _ w' => inOrder w0 w').
Proof.
  induction regions as [|region rest IH];
    intros remainingNodes deployedRegions w Hw.
  - destruct remainingNodes; now apply wp_ret.
  - cbn [placeNodes]. cbv zeta.
    wp_exec;
      lazymatch goal with
      | |- wp (placeNodes _ _ _ _ _ _ _) _ _ => apply IH; solve_order
      | |- _ => solve_order
      end.
Qed.

Lemma deployAcrossMultipleRegions_order projectName scenarioID autoApprove
    totalNodeCount toolName toolArgs scenario baseVars regions w0 w :
  inOrder w0 w ->
  wp (deployAcrossMultipleRegions ProjectDir terraformSvc projectName
        scenarioID autoApprove totalNodeCount toolName toolArgs scenario
        baseVars regions) w
     (fun _ w' => inOrder w0 w').
Proof.
  intros Hw. unfold deployAcrossMultipleRegions.
  repeat first
    [wp_step; intros
    |eapply wp_mono;
       [apply placeNodes_order with (w0 := w0); solve_order|intros]];
    solve_order.
Qed.

Lemma tryRegions_order projectName scenarioID autoApprove scenario
    originalVars originalErr regions w0 :
  forall w,
    inOrder w0 w ->
    wp (tryRegions ProjectDir terraformSvc projectName scenarioID autoApprove
          scenario originalVars originalErr regions) w
       (fun _ w' => inOrder w0 w').
Proof.
  induction regions as [|region rest IH]; intros w Hw.
  - now apply wp_ret.
  - cbn [tryRegions]. cbv zeta.
    wp_exec;
      lazymatch goal with
      | |- wp (tryRegions _ _ _ _ _ _ _ _ _) _ _ => apply IH; solve_order
      | |- _ => solve_order
      end.
Qed.

Lemma retryDeployWithDifferentRegions_order projectName scenarioID
    autoApprove nodeCount toolName toolArgs scenario originalVars originalErr
    w0 w :
  inOrder w0 w ->
  wp (retryDeployWithDifferentRegions ProjectDir terraformSvc projectName
        scenarioID autoApprove nodeCount toolName toolArgs scenario
        originalVars originalErr) w
     (fun _ w' => inOrder w0 w').
Proof.
  intros Hw. unfold retryDeployWithDifferentRegions. cbv zeta.
  wp_step. wp_step. wp_step.
  - apply deployAcrossMultipleRegions_order. solve_order.
  - wp_step. eapply wp_mono;
      [apply tryRegions_order with (w0 := w0); solve_order|].
    intros err w1 Hw1. now wp_step.
Qed.

Lemma chooseTencentRegion_order vars w0 w :
  inOrder w0 w ->
  wp (chooseTencentRegion cm DescribeSpotPriceHistory
        DescribeInstanceTypeConfigs DescribeInstanceFamilyConfigs vars) w
     (fun _ w' => inOrder w0 w').
Proof. intros Hw. unfold chooseTencentRegion. wp_exec; solve_order. Qed.

Lemma tencentVars_order templatePath vars w0 w :
  inOrder w0 w ->
  wp (tencentVars cm DescribeSpotPriceHistory DescribeInstanceTypeConfigs
        DescribeInstanceFamilyConfigs templatePath vars) w
     (fun _ w' => inOrder w0 w').
Proof.
  intros Hw. unfold tencentVars.
  repeat first
    [wp_step; intros
    |apply chooseTencentRegion_order];
    solve_order.
Qed.

Lemma toolVars_order template projectName scenarioID toolName toolArgs vars
    w0 w :
  inOrder w0 w ->
  wp (toolVars cm template projectName scenarioID toolName toolArgs vars) w
     (fun _ w' => inOrder w0 w').
Proof. intros Hw. unfold toolVars. wp_exec; solve_order. Qed.

(** X20. Every deploy keeps the engine calls in order: a validate follows
    a successful init of the same directory, a plan follows a successful
    validate of the same directory, and an apply follows a successful plan
    of the same directory with the same variables, with only log lines and
    template copies in between; and a deploy never calls destroy.  This
    holds on every path: the direct deploy, the region failover, the
    fragmentation over regions and the aliyun-proxy deploys. *)
Theorem DeployScenario_calls_in_order projectName scenarioID autoApprove
    nodeCount toolName toolArgs region w :
  exists evs st,
    trace (snd (DeployScenario ProjectDir cm DescribeSpotPriceHistory
                  DescribeInstanceTypeConfigs DescribeInstanceFamilyConfigs
                  terraformSvc copyTemplate projectName scenarioID autoApprove
                  nodeCount toolName toolArgs region w)) = trace w ++ evs /\
    follow Unprepared evs = Some st.
Proof.
  assert (Hwp :
    wp (DeployScenario ProjectDir cm DescribeSpotPriceHistory
          DescribeInstanceTypeConfigs DescribeInstanceFamilyConfigs
          terraformSvc copyTemplate projectName scenarioID autoApprove
          nodeCount toolName toolArgs region) w
       (fun _ w' => inOrder w w')).
  { unfold DeployScenario.
    repeat first
      [wp_step; intros
      |eapply wp_mono;
         [first
            [apply deployAliyunProxyScenario_order with (w0 := w)
            |apply deployAliyunProxyWithRegion_order with (w0 := w)
            |apply tencentVars_order with (w0 := w)
            |apply toolVars_order with (w0 := w)];
          solve_order
         |intros]
      |apply retryDeployWithDifferentRegions_order
      |apply deployAcrossMultipleRegions_order];
      solve_order. }
  destruct Hwp as (st & evs & Htr & Hev). now exists evs, st.
Qed.

End Deploy.

End ProtocolFacts.

(** ** What a deploy leaves in the store *)

Module OutcomeFacts.
Import Credentials Probe Terraform Domain Orchestrator ServiceFacts Hoare.
Import Traces ProbeClaims StatusClaims.

(** The template of the deploy that starts every region in turn and stores
    a scenario per region. *)
Definition everyRegion (template : string) : bool :=
  negb (Contains template "aliyun/aliyun-proxy/zone-node/ss-libev-node-") &&
  (Contains template "aliyun/aliyun-proxy" &&
   negb (Contains template "zone-node")).

(** The store is as at [w0]; only events were added. *)
Definition quiet (w0 w : World) : Prop :=
  scenarios w = scenarios w0 /\ exists evs, trace w = trace w0 ++ evs.

(** How a deploy of [sc] that began at [w0] ends: without error, after a
    successful apply and with [sc] stored as deployed, everything else as it
    was; or with an error and the store as it was. *)
Definition settled (w0 : World) (sc : Scenario) (err : option string)
    (w : World) : Prop :=
  match err with
  | None =>
      appliedSince w0 w /\
      scenarios w = <[Path sc := with_Status sc "deployed"]> (scenarios w0)
  | Some _ => scenarios w = scenarios w0
  end.

Definition settledOutcome (w0 : World) (sc : Scenario) (out : Outcome)
    (w : World) : Prop :=
  match out with
  | Returned err => settled w0 sc err w
  | Panicked _ => scenarios w = scenarios w0
  end.

Lemma quiet_refl w : quiet w w.
Proof. split; [reflexivity|]. exists []. now rewrite app_nil_r. Qed.

Lemma quiet_record w0 w ev : quiet w0 w -> quiet w0 (record w ev).
Proof.
  intros [Hs (evs & Htr)]. split; [exact Hs|].
  exists (evs ++ [ev]). simpl. now rewrite Htr, app_assoc.
Qed.

Lemma quiet_evolves w0 w w' evs : quiet w0 w -> evolves w w' evs -> quiet w0 w'.
Proof.
  intros [Hs (evs0 & Htr0)] (Htr & Hsc & _). split; [congruence|].
  exists (evs0 ++ evs). now rewrite Htr, Htr0, app_assoc.
Qed.

Lemma applied_now w0 w dir autoApprove vars :
  quiet w0 w ->
  appliedSince w0 (record w (EvEngine (CallApply dir autoApprove vars) None)).
Proof.
  intros [_ (evs & Htr)].
  exists (evs ++ [EvEngine (CallApply dir autoApprove vars) None]). split.
  - simpl. now rewrite Htr, app_assoc.
  - exists dir, autoApprove, vars. apply in_app_iff. right. now left.
Qed.

Lemma quiet_scenarios w0 w : quiet w0 w -> scenarios w = scenarios w0.
Proof. now intros [Hs _]. Qed.

Lemma settled_failed w0 sc msg w : quiet w0 w -> settled w0 sc (Some msg) w.
Proof. now intros [Hs _]. Qed.

Lemma settled_stored w0 sc w ev :
  quiet w0 w -> appliedSince w0 w ->
  settled w0 sc None
    (record
       (with_scenarios w
          (<[Path (with_Status sc "deployed") := with_Status sc "deployed"]>
             (scenarios w)))
       ev).
Proof.
  intros [Hs _] Happ. split.
  - now apply appliedSince_record, appliedSince_with_scenarios.
  - simpl. now rewrite Hs.
Qed.

Ltac solve_quiet :=
  lazymatch goal with
  | |- quiet _ (record _ _) => apply quiet_record; solve_quiet
  | |- quiet ?w ?w => apply quiet_refl
  | |- quiet _ _ => assumption
  end.

Ltac solve_applied_now :=
  lazymatch goal with
  | |- appliedSince _ (record _ (EvEngine (CallApply _ _ _) None)) =>
      apply applied_now; solve_quiet
  | |- appliedSince _ (record _ _) =>
      apply appliedSince_record; solve_applied_now
  | |- appliedSince _ _ => assumption
  end.

Ltac solve_settled :=
  cbv beta in *;
  lazymatch goal with
  | |- settled _ _ (wrap _ _) _ => apply settled_failed; solve_quiet
  | |- settled _ _ (Some _) _ => apply settled_failed; solve_quiet
  | |- settled _ _ None _ =>
      apply settled_stored; [solve_quiet|solve_applied_now]
  | |- settledOutcome _ _ (Returned _) _ =>
      cbn [settledOutcome]; solve_settled
  | |- settledOutcome _ _ (Panicked _) _ =>
      cbn [settledOutcome]; apply quiet_scenarios; solve_quiet
  | |- quiet _ _ => solve_quiet
  | |- _ => assumption
  end.

Section Deploy.
Variable ProjectDir : string.
Variable cm : credentialManager.
Variable DescribeSpotPriceHistory :
  string -> string -> string -> string -> CmdOutput nat.
Variable DescribeInstanceTypeConfigs :
  string -> string -> string -> string -> CmdOutput (list InstanceTypeConfig).
Variable DescribeInstanceFamilyConfigs :
  string -> string -> string -> string -> CmdOutput (list InstanceTypeConfig).
Context {scheduler : Scheduler}.
Variable terraformSvc : Engine.
Variable copyTemplate : string -> string -> string -> option string.

Lemma markDeployed_settles projectName scenarioID scenario format args w0 w :
  quiet w0 w -> appliedSince w0 w ->
  wp (markDeployed ProjectDir projectName scenarioID scenario format args) w
     (settled w0 scenario).
Proof. intros Hw Happ. unfold markDeployed. wp_exec; solve_settled. Qed.

Lemma deployAliyunProxyScenario_settles projectName scenarioID autoApprove
    nodeCount toolName toolArgs scenario w0 w :
  quiet w0 w ->
  wp (deployAliyunProxyScenario ProjectDir cm terraformSvc projectName
        scenarioID autoApprove nodeCount toolName toolArgs scenario) w
     (settled w0 scenario).
Proof.
  intros Hw. unfold deployAliyunProxyScenario. wp_exec; solve_settled.
Qed.

Lemma tryRegions_settles projectName scenarioID autoApprove scenario
    originalVars originalErr regions w0 :
  forall w,
    quiet w0 w ->
    wp (tryRegions ProjectDir terraformSvc projectName scenarioID autoApprove
          scenario originalVars originalErr regions) w
       (settled w0 scenario).
Proof.
  induction regions as [|region rest IH]; intros w Hw.
  - apply wp_ret. solve_settled.
  - cbn [tryRegions]. cbv zeta.
    wp_exec;
      lazymatch goal with
      | |- wp (tryRegions _ _ _ _ _ _ _ _ _) _ _ => apply IH; solve_quiet
      | |- _ => solve_settled
      end.
Qed.

Lemma deployAcrossMultipleRegions_settles projectName scenarioID autoApprove
    totalNodeCount toolName toolArgs scenario baseVars regions w0 w :
  (0 < totalNodeCount)%Z ->
  quiet w0 w ->
  wp (deployAcrossMultipleRegions ProjectDir terraformSvc projectName
        scenarioID autoApprove totalNodeCount toolName toolArgs scenario
        baseVars regions) w
     (settledOutcome w0 scenario).
Proof.
  intros Hpos Hw. unfold deployAcrossMultipleRegions.
  wp_step. wp_step.
  destruct (Z.of_nat (length regions) =? 0)%Z; [wp_step; solve_settled|].
  wp_step. eapply wp_mono; [apply FragmentClaims.placeNodes_post|].
  intros [remainingNodes deployedRegions] w1
    (evs & Hev & _ & _ & Hrem & _).
  cbn [fst snd] in *.
  assert (Hw1 : quiet w0 w1).
  { eapply quiet_evolves; [|exact Hev]. solve_quiet. }
  destruct (0 <? remainingNodes)%Z eqn:Hleft; [wp_step; solve_settled|].
  wp_step. eapply wp_mono.
  - apply markDeployed_settles with (w0 := w0); [exact Hw1|].
    apply Z.ltb_ge in Hleft.
    destruct Hw as [_ (evs0 & Htr0)]. destruct Hev as (Htr & _ & _).
    eexists. split.
    + rewrite Htr. simpl. rewrite Htr0, <- !app_assoc. reflexivity.
    + assert (Happ : someApplied evs).
      { apply placed_applied. intros Hnil. rewrite Hnil in Hrem.
        simpl in Hrem. lia. }
      destruct Happ as (d & a & v & Hin). exists d, a, v.
      apply in_app_iff. right. apply in_app_iff. now right.
  - intros err w2 Hw2. wp_step. exact Hw2.
Qed.

Lemma retryDeployWithDifferentRegions_settles projectName scenarioID
    autoApprove nodeCount toolName toolArgs scenario originalVars originalErr
    w0 w :
  quiet w0 w ->
  wp (retryDeployWithDifferentRegions ProjectDir terraformSvc projectName
        scenarioID autoApprove nodeCount toolName toolArgs scenario
        originalVars originalErr) w
     (settledOutcome w0 scenario).
Proof.
  intros Hw. unfold retryDeployWithDifferentRegions. cbv zeta.
  wp_step. wp_step. wp_step.
  - apply deployAcrossMultipleRegions_settles;
      [apply actualNodeCountOf_positive|solve_quiet].
  - wp_step. eapply wp_mono;
      [apply tryRegions_settles with (w0 := w0); solve_quiet|].
    intros err w1 Hw1. wp_step. exact Hw1.
Qed.

Lemma chooseTencentRegion_quiet vars w0 w :
  quiet w0 w ->
  wp (chooseTencentRegion cm DescribeSpotPriceHistory
        DescribeInstanceTypeConfigs DescribeInstanceFamilyConfigs vars) w
     (fun _ w' => quiet w0 w').
Proof. intros Hw. unfold chooseTencentRegion. wp_exec; solve_quiet. Qed.

Lemma tencentVars_quiet templatePath vars w0 w :
  quiet w0 w ->
  wp (tencentVars cm DescribeSpotPriceHistory DescribeInstanceTypeConfigs
        DescribeInstanceFamilyConfigs templatePath vars) w
     (fun _ w' => quiet w0 w').
Proof.
  intros Hw. unfold tencentVars.
  repeat first [wp_step; intros|apply chooseTencentRegion_quiet];
    solve_quiet.
Qed.

Lemma toolVars_quiet template projectName scenarioID toolName toolArgs vars
    w0 w :
  quiet w0 w ->
  wp (toolVars cm template projectName scenarioID toolName toolArgs vars) w
     (fun _ w' => quiet w0 w').
Proof. intros Hw. unfold toolVars. wp_exec; solve_quiet. Qed.

(** X21. What a deploy leaves in the store, for every template but the one
    that starts every region in turn: when the deploy returns no error, an
    engine apply of this deploy has succeeded and the scenario is stored
    with status deployed, every other record being as it was; when it
    returns an error (or panics), every record is as it was, whatever was
    applied on the way. *)
Theorem DeployScenario_settles projectName scenarioID autoApprove nodeCount
    toolName toolArgs region w stored :
  projectName ∈ projects w ->
  scenarios w !! joinPath (joinPath ProjectDir projectName) scenarioID =
    Some stored ->
  everyRegion (Template stored) = false ->
  let path := joinPath (joinPath ProjectDir projectName) scenarioID in
  let result :=
    DeployScenario ProjectDir cm DescribeSpotPriceHistory
      DescribeInstanceTypeConfigs DescribeInstanceFamilyConfigs terraformSvc
      copyTemplate projectName scenarioID autoApprove nodeCount toolName
      toolArgs region w in
  match fst result with
  | Returned None =>
      appliedSince w (snd result) /\
      scenarios (snd result) =
        <[path := with_Status (with_Path stored path) "deployed"]>
          (scenarios w)
  | _ => scenarios (snd result) = scenarios w
  end.
Proof.
  intros Hproject Hstored Hkind. cbv zeta.
  set (path := joinPath (joinPath ProjectDir projectName) scenarioID).
  set (scenario := with_Path stored path).
  assert (Hwp :
    wp (DeployScenario ProjectDir cm DescribeSpotPriceHistory
          DescribeInstanceTypeConfigs DescribeInstanceFamilyConfigs
          terraformSvc copyTemplate projectName scenarioID autoApprove
          nodeCount toolName toolArgs region) w
       (settledOutcome w scenario)).
  { unfold DeployScenario. wp_step. wp_step. wp_step.
    apply wp_GetScenario_found with (stored := stored);
      [exact Hproject|exact Hstored|].
    fold path. fold scenario.
    unfold everyRegion in Hkind.
    change (Template scenario) with (Template stored).
    destruct (Contains (Template stored)
                "aliyun/aliyun-proxy/zone-node/ss-libev-node-") eqn:Hscoped.
    - wp_step. wp_step. wp_step.
      eapply wp_mono;
        [apply deployAliyunProxyScenario_settles with (w0 := w); solve_quiet|].
      intros err w1 Hw1. wp_step. exact Hw1.
    - cbn [negb andb] in Hkind. rewrite Hkind.
      repeat first
        [wp_step; intros
        |eapply wp_mono;
           [first
              [apply tencentVars_quiet with (w0 := w)
              |apply toolVars_quiet with (w0 := w)
              |apply markDeployed_settles with (w0 := w)];
            first [solve_quiet|solve_applied_now]
           |intros]
        |apply retryDeployWithDifferentRegions_settles
        |apply deployAcrossMultipleRegions_settles;
           [eapply spreadNodeCount_positive; eassumption|]];
        solve_settled. }
  unfold wp in Hwp.
  destruct (DeployScenario _ _ _ _ _ _ _ _ _ _ _ _ _ _ w) as [out w'].
  cbn [fst snd]. destruct out as [[msg|]|msg]; exact Hwp.
Qed.

End Deploy.

Lemma DeployScenario_settles_witness :
  let w := worldWith "aliyun/ecs" "pending" in
  let result :=
    DeployScenario (scheduler := fifo) projectDir aliyunConfigured historyDown
      configsDown configsDown engineOk copyOk "demo" "s1" true 0 "" "" "" w in
  "demo" ∈ projects w /\
  fst result = Returned None /\
  storedStatus (snd result) "demo" "s1" = Some "deployed".
Proof.
  intros w result.
  assert (Hproject : "demo" ∈ projects w) by (vm_compute; reflexivity).
  assert (Hout : fst result = Returned None) by (vm_compute; reflexivity).
  split; [exact Hproject|]. split; [exact Hout|].
  pose proof (DeployScenario_settles (scheduler := fifo) projectDir
                aliyunConfigured historyDown configsDown configsDown engineOk
                copyOk "demo" "s1" true 0 "" "" "" w
                (scenarioOf "s1" "aliyun/ecs" "pending") Hproject eq_refl
                eq_refl) as Hsettled.
  cbv zeta in Hsettled. fold result in Hsettled. rewrite Hout in Hsettled.
  destruct Hsettled as [_ Hstore].
  unfold storedStatus. rewrite Hstore, lookup_insert_eq. reflexivity.
Defined.

End OutcomeFacts.

(** ** Destroy *)

Module DestroyFacts.
Import Credentials Probe Terraform Domain Orchestrator ServiceFacts Hoare.
Import Traces ProbeClaims.

(** [w'] is [w] with log lines added. *)
Definition logged (w w' : World) : Prop :=
  scenarios w' = scenarios w /\ projects w' = projects w /\
  engineCalls (trace w') = engineCalls (trace w).

Lemma engineCalls_app t1 t2 :
  engineCalls (t1 ++ t2) = engineCalls t1 ++ engineCalls t2.
Proof. apply flat_map_app. Qed.

Lemma logged_refl w : logged w w.
Proof. now repeat split. Qed.

Lemma logged_log w w' level format args :
  logged w w' -> logged w (record w' (EvLog level format args)).
Proof.
  intros (Hs & Hp & He). repeat split; auto. simpl.
  rewrite engineCalls_app. simpl. now rewrite app_nil_r.
Qed.

Ltac solve_logged :=
  lazymatch goal with
  | |- logged _ (record _ (EvLog _ _ _)) => apply logged_log; solve_logged
  | |- logged ?w ?w => apply logged_refl
  | |- logged _ _ => assumption
  end.

Section Destroy.
Variable ProjectDir : string.
Variable cm : credentialManager.
Variable terraformSvc : Engine.

(** The variables [destroyVars] yields do not depend on the world, and it
    only logs. *)
Lemma destroyVars_logs templatePath w0 w :
  wp (destroyVars cm templatePath) w
     (fun vars w' =>
        vars = fst (destroyVars cm templatePath w0) /\ logged w w').
Proof.
  unfold destroyVars at 1.
  wp_exec;
    (split;
     [unfold destroyVars, bind, log, ret;
      repeat match goal with
      | H : _ = _ |- _ => rewrite H
      end; reflexivity
     |solve_logged]).
Qed.

Lemma GetScenario_found projectName scenarioID w stored :
  projectName ∈ projects w ->
  scenarios w !! joinPath (joinPath ProjectDir projectName) scenarioID =
    Some stored ->
  GetScenario ProjectDir projectName scenarioID w =
  (Ok (with_Path stored
         (joinPath (joinPath ProjectDir projectName) scenarioID)), w).
Proof.
  intros Hp Hs. unfold GetScenario, bind, GetProject.
  destruct (decide _); [|contradiction]. simpl. now rewrite Hs.
Qed.

Lemma UpdateScenario_run projectName scenario w :
  projectName ∈ projects w ->
  UpdateScenario ProjectDir projectName scenario w =
  match
    scenarios w !! joinPath (joinPath ProjectDir projectName) (ID scenario)
  with
  | Some _ =>
      (None, with_scenarios w (<[Path scenario := scenario]> (scenarios w)))
  | None => (Some ("场景 " +:+ ID scenario +:+ " 不存在"), w)
  end.
Proof.
  intros Hp. unfold UpdateScenario, GetScenario, bind, GetProject.
  destruct (decide _); [|contradiction]. simpl.
  now destruct (scenarios w !! _).
Qed.

(** X22. What a destroy of an existing scenario does.  It makes exactly
    one engine call, a destroy in the scenario's directory.  When that call
    fails, the error is returned and no record changes.  When it succeeds,
    the scenario is stored with status destroyed and nothing else changes;
    unless the [ID] in the scenario's metadata names no scenario of the
    project, in which case the update fails, an error is returned and the
    status stays as it was although the resources are destroyed. *)
Theorem DestroyScenario_outcome projectName scenarioID autoApprove w stored :
  projectName ∈ projects w ->
  scenarios w !! joinPath (joinPath ProjectDir projectName) scenarioID =
    Some stored ->
  let path := joinPath (joinPath ProjectDir projectName) scenarioID in
  let call :=
    CallDestroy path autoApprove (fst (destroyVars cm (Template stored) w)) in
  let result :=
    DestroyScenario ProjectDir cm terraformSvc projectName scenarioID
      autoApprove w in
  engineCalls (trace (snd result)) = engineCalls (trace w) ++ [call] /\
  match terraformSvc (engineCalls (trace w)) call with
  | Some msg =>
      fst result = Some ("Terraform destroy 失败: " +:+ msg) /\
      scenarios (snd result) = scenarios w
  | None =>
      match
        scenarios w !! joinPath (joinPath ProjectDir projectName) (ID stored)
      with
      | Some _ =>
          fst result = None /\
          scenarios (snd result) =
            <[path := with_Status (with_Path stored path) "destroyed"]>
              (scenarios w)
      | None =>
          fst result =
            Some ("更新场景状态失败: " +:+ "场景 " +:+ ID stored +:+ " 不存在") /\
          scenarios (snd result) = scenarios w
      end
  end.
Proof.
  intros Hproject Hstored. cbv zeta.
  set (path := joinPath (joinPath ProjectDir projectName) scenarioID).
  set (vars := fst (destroyVars cm (Template stored) w)).
  set (call := CallDestroy path autoApprove vars).
  set (answer := terraformSvc (engineCalls (trace w)) call).
  assert (Hwp :
    wp (DestroyScenario ProjectDir cm terraformSvc projectName scenarioID
          autoApprove) w
       (fun err w' =>
          engineCalls (trace w') = engineCalls (trace w) ++ [call] /\
          match answer with
          | Some msg =>
              err = Some ("Terraform destroy 失败: " +:+ msg) /\
              scenarios w' = scenarios w
          | None =>
              match
                scenarios w !! joinPath (joinPath ProjectDir projectName)
                                 (ID stored)
              with
              | Some _ =>
                  err = None /\
                  scenarios w' =
                    <[path := with_Status (with_Path stored path)
                                "destroyed"]> (scenarios w)
              | None =>
                  err = Some ("更新场景状态失败: " +:+ "场景 " +:+ ID stored +:+
                              " 不存在") /\
                  scenarios w' = scenarios w
              end
          end)).
  { unfold DestroyScenario. wp_step. wp_step. wp_step.
    apply wp_GetScenario_found with (stored := stored);
      [exact Hproject|exact Hstored|].
    fold path. cbn [Template Path with_Path].
    wp_step. eapply wp_mono; [apply (destroyVars_logs (Template stored) w)|].
    intros vars' w2 [-> H2]. fold vars. fold call.
    assert (H02 : logged w w2).
    { destruct H2 as (Hs2 & Hp2 & He2). repeat split.
      - rewrite Hs2. reflexivity.
      - rewrite Hp2. reflexivity.
      - rewrite He2. simpl. rewrite engineCalls_app. simpl.
        now rewrite app_nil_r. }
    destruct H02 as (Hs & Hp & He).
    wp_step. apply wp_engine. rewrite He. fold answer.
    assert (Hcalls : forall err,
              engineCalls (trace (record w2 (EvEngine call err))) =
              engineCalls (trace w) ++ [call]).
    { intros err. simpl. now rewrite engineCalls_app, He. }
    destruct answer as [msg|].
    - wp_step. wp_step. wp_step. split.
      + simpl. rewrite engineCalls_app. simpl. rewrite app_nil_r.
        apply (Hcalls (Some msg)).
      + split; [reflexivity|exact Hs].
    - apply wp_bind. unfold wp at 1.
      rewrite UpdateScenario_run by (simpl; now rewrite Hp).
      cbn [ID with_Status with_Path scenarios record with_trace]. rewrite Hs.
      destruct (scenarios w !! joinPath (joinPath ProjectDir projectName)
                                (ID stored)); cbn [fst snd].
      + wp_step. wp_step. wp_step. split.
        * simpl. rewrite engineCalls_app. simpl. rewrite app_nil_r.
          apply (Hcalls None).
        * split; [reflexivity|]. simpl. first [reflexivity|now rewrite Hs].
      + wp_step. wp_step. wp_step. split.
        * simpl. rewrite engineCalls_app. simpl. rewrite app_nil_r.
          apply (Hcalls None).
        * split; [reflexivity|exact Hs]. }
  exact Hwp.
Qed.

End Destroy.

Lemma DestroyScenario_outcome_witness :
  let w := worldWith "aliyun/ecs" "deployed" in
  let result :=
    DestroyScenario projectDir aliyunConfigured engineOk "demo" "s1" true w in
  "demo" ∈ projects w /\
  fst result = None /\
  storedStatus (snd result) "demo" "s1" = Some "destroyed".
Proof.
  intros w result.
  assert (Hproject : "demo" ∈ projects w) by (vm_compute; reflexivity).
  split; [exact Hproject|].
  destruct (DestroyScenario_outcome projectDir aliyunConfigured engineOk
              "demo" "s1" true w (scenarioOf "s1" "aliyun/ecs" "deployed")
              Hproject eq_refl) as [_ [Hnone Hstore]].
  split; [exact Hnone|].
  unfold storedStatus. fold result in Hstore.
  rewrite Hstore, lookup_insert_eq. reflexivity.
Defined.

End DestroyFacts.

(** ** Projects and scenarios *)

Module ProjectOpsFacts.
Import Credentials Probe Terraform Domain Orchestrator ServiceFacts Hoare.
Import ProjectOps StringFacts.

Lemma removeAll_lookup path dirs k :
  removeAll path dirs !! k = if under path k then None else dirs !! k.
Proof.
  unfold removeAll. destruct (under path k) eqn:Hu.
  - apply map_lookup_filter_None. right. intros sc _. cbn. congruence.
  - destruct (dirs !! k) as [sc|] eqn:Hk.
    + apply map_lookup_filter_Some. split; [exact Hk|exact Hu].
    + apply map_lookup_filter_None. now left.
Qed.

Lemma under_self path : under path path = true.
Proof. unfold under. now rewrite String.eqb_refl. Qed.

Lemma with_Path_same sc : with_Path sc (Path sc) = sc.
Proof. now destruct sc. Qed.

(** A directory entry is a record one level below the directory. *)
Lemma entryName_Some dir k id :
  entryName dir k = Some id <->
  k = joinPath dir id /\ Contains id "/" = false /\ id <> "".
Proof.
  unfold entryName, joinPath.
  assert (Hinv : forall post, (dir +:+ "/") +:+ post = dir +:+ "/" +:+ id ->
                              post = id).
  { intros post Hk. rewrite (append_assoc dir "/" post) in Hk.
    apply append_inv_head in Hk. now injection Hk. }
  destruct (String.prefix (dir +:+ "/") k) eqn:Hpre.
  - apply prefix_occurs in Hpre. destruct Hpre as (post & ->).
    replace (String.length ((dir +:+ "/") +:+ post) - String.length dir - 1)%nat
      with (String.length post)
      by (rewrite !length_append; simpl; lia).
    replace (String.length dir + 1)%nat with (String.length (dir +:+ "/"))
      by (rewrite length_append; reflexivity).
    rewrite substring_after.
    destruct (Contains post "/") eqn:Hc; cbn [orb].
    + split; [discriminate|]. intros (Hk & Hid & _).
      apply Hinv in Hk. congruence.
    + destruct (String.eqb post "") eqn:He.
      * apply String.eqb_eq in He. subst post.
        split; [discriminate|]. intros (Hk & _ & Hid).
        apply Hinv in Hk. congruence.
      * apply String.eqb_neq in He. split.
        -- intros H. injection H as <-. split; [|now split].
           apply append_assoc.
        -- intros (Hk & _ & _). apply Hinv in Hk. now subst.
  - split; [discriminate|]. intros (-> & _ & _).
    assert (String.prefix (dir +:+ "/") (dir +:+ "/" +:+ id) = true) as Ht.
    { apply prefix_occurs. exists id. symmetry. apply append_assoc. }
    congruence.
Qed.

Lemma In_readDir dir w id :
  In id (readDir dir w) <->
  exists stored,
    scenarios w !! joinPath dir id = Some stored /\
    Contains id "/" = false /\ id <> "".
Proof.
  unfold readDir.
  rewrite (Permutation_in' eq_refl (SortFacts.sort_Permutation _ _)).
  rewrite <- list_elem_of_In, list_elem_of_omap. split.
  - intros ([k stored] & Hin & Hname). apply elem_of_map_to_list in Hin.
    apply entryName_Some in Hname. destruct Hname as (Hk & Hc & Hid).
    simpl in Hk. subst k. now exists stored.
  - intros (stored & Hk & Hc & Hid). exists (joinPath dir id, stored).
    split; [now apply elem_of_map_to_list|].
    now apply entryName_Some.
Qed.

Lemma joinPath_nonempty dir id : joinPath dir id <> "".
Proof. unfold joinPath. now destruct dir. Qed.

Section Service.
Variable ProjectDir : string.
Variable terraformSvc : Engine.
Variable copyTemplate : string -> string -> string -> option string.
Variable getTemplate : string -> string -> option string.
Variable dynamicTemplateSvc :
  option (string -> string -> string -> string -> string -> option string).

Lemma GetProject_run name w :
  GetProject ProjectDir name w =
  if decide (name ∈ projects w)
  then (Ok {| proj_Name := name; proj_Path := joinPath ProjectDir name |}, w)
  else (Err ("项目 " +:+ name +:+ " 不存在"), w).
Proof. reflexivity. Qed.

Lemma GetScenario_run projectName scenarioID w :
  projectName ∈ projects w ->
  GetScenario ProjectDir projectName scenarioID w =
  match
    scenarios w !! joinPath (joinPath ProjectDir projectName) scenarioID
  with
  | Some stored =>
      (Ok (with_Path stored
             (joinPath (joinPath ProjectDir projectName) scenarioID)), w)
  | None => (Err ("场景 " +:+ scenarioID +:+ " 不存在"), w)
  end.
Proof.
  intros Hp. unfold GetScenario, bind. rewrite GetProject_run.
  destruct (decide _); [|contradiction]. reflexivity.
Qed.

(** What [saveCreated] does in a project that exists. *)
Lemma saveCreated_run projectName scenario w :
  projectName ∈ projects w ->
  saveCreated ProjectDir projectName scenario w =
  let path := joinPath (joinPath ProjectDir projectName) (ID scenario) in
  (Created (with_Path scenario path),
   with_scenarios w (<[path := with_Path scenario path]> (scenarios w))).
Proof.
  intros Hp. unfold saveCreated, AddScenario, bind.
  rewrite GetProject_run. destruct (decide _); [|contradiction]. reflexivity.
Qed.

(** X23. A scenario that was created can be fetched: when
    [CreateScenarioWithOptions] returns a scenario, that scenario has the
    fresh identifier and status pending, lies in the project's directory
    under its identifier, [GetScenario] returns it, and no other record
    has changed. *)
Theorem created_scenario_is_stored projectName provider templateName region
    instanceType scenarioType fresh w sc w' :
  CreateScenarioWithOptions ProjectDir copyTemplate getTemplate
    dynamicTemplateSvc projectName provider templateName region instanceType
    scenarioType fresh w = (Created sc, w') ->
  ID sc = fresh /\
  Status sc = "pending" /\
  Path sc = joinPath (joinPath ProjectDir projectName) fresh /\
  GetScenario ProjectDir projectName fresh w' = (Ok sc, w') /\
  forall k, k <> Path sc -> scenarios w' !! k = scenarios w !! k.
Proof.
  unfold CreateScenarioWithOptions. unfold bind at 1.
  rewrite GetProject_run.
  destruct (decide (projectName ∈ projects w)) as [Hp|]; [|discriminate].
  assert (Hsaved : forall scenario w1,
            projects w1 = projects w ->
            scenarios w1 = scenarios w ->
            ID scenario = fresh -> Status scenario = "pending" ->
            saveCreated ProjectDir projectName scenario w1 = (Created sc, w') ->
            ID sc = fresh /\
            Status sc = "pending" /\
            Path sc = joinPath (joinPath ProjectDir projectName) fresh /\
            GetScenario ProjectDir projectName fresh w' = (Ok sc, w') /\
            forall k, k <> Path sc -> scenarios w' !! k = scenarios w !! k).
  { intros scenario w1 Hp1 Hs1 Hid Hst Hsave.
    rewrite saveCreated_run in Hsave by now rewrite Hp1.
    cbv zeta in Hsave. rewrite Hid in Hsave. injection Hsave as <- <-.
    cbn [ID Status Path with_Path]. repeat split; auto.
    - rewrite GetScenario_run by (simpl; now rewrite Hp1).
      cbn [scenarios with_scenarios]. rewrite lookup_insert_eq.
      now destruct scenario.
    - intros k Hk. cbn [scenarios with_scenarios].
      rewrite lookup_insert_ne by congruence. now rewrite Hs1. }
  destruct (nonempty scenarioType &&
            (String.eqb scenarioType "proxy" ||
             String.eqb scenarioType "task-executor")).
  - destruct dynamicTemplateSvc as [generate|]; [|discriminate].
    unfold bind at 1. rewrite GetProject_run.
    destruct (decide (projectName ∈ projects w)); [|contradiction].
    cbn [proj_Path].
    destruct (generate _ _ _ _ _); [discriminate|].
    now apply Hsaved.
  - match goal with
    | |- context [match ?c with Ok _ => _ | Err _ => _ end] =>
        destruct c as [actual|msg]
    end; [|discriminate].
    destruct (getTemplate provider actual); [discriminate|].
    unfold bind at 1. rewrite GetProject_run.
    destruct (decide (projectName ∈ projects w)); [|contradiction].
    cbn [proj_Path]. unfold bind at 1. unfold CopyTemplate.
    destruct (copyTemplate provider actual _); [discriminate|].
    now apply Hsaved.
Qed.

(** The regions [CreateScenarioWithOptions] accepts for aliyun-proxy. *)
Lemma createRegionMap_lookup region path :
  createRegionMap !! region = Some path ->
  In region regionOrder /\
  regionMap !! region = Some ("aliyun" +:+ "/" +:+ path) /\
  extractRegion ("aliyun" +:+ "/" +:+ path) = region.
Proof.
  intros Hr. apply elem_of_list_to_map_2 in Hr.
  apply list_elem_of_In in Hr. simpl in Hr.
  destruct Hr as [H|[H|[H|[H|[H|[]]]]]]; injection H as <- <-;
    (split; [simpl; tauto|split; reflexivity]).
Qed.

Lemma createRegionMap_None region :
  ~ In region regionOrder -> createRegionMap !! region = None.
Proof.
  intros Hn. apply not_elem_of_list_to_map_1.
  rewrite list_elem_of_In. simpl. simpl in Hn. tauto.
Qed.

(** X24. An aliyun-proxy scenario is created for a listed region only: for
    a region that is not one of bj, sh, hhht, wlcb and zjk the call is
    refused and nothing changes; a scenario that is created has the
    template that the deployment's region table gives for the region, and
    the deployment reads the region back off it. *)
Theorem aliyun_proxy_is_created_for_a_listed_region projectName region fresh
    w :
  let result :=
    CreateScenario ProjectDir copyTemplate getTemplate dynamicTemplateSvc
      projectName "aliyun" "aliyun-proxy" region fresh w in
  (~ In region regionOrder -> exists msg, result = (Refused msg, w)) /\
  (forall sc, fst result = Created sc ->
     In region regionOrder /\
     regionMap !! region = Some (Template sc) /\
     extractRegion (Template sc) = region).
Proof.
  cbv zeta.
  remember (CreateScenario ProjectDir copyTemplate getTemplate
              dynamicTemplateSvc projectName "aliyun" "aliyun-proxy" region
              fresh w) as result eqn:Hres.
  revert Hres. unfold CreateScenario, CreateScenarioWithOptions.
  unfold bind at 1. rewrite GetProject_run.
  destruct (decide (projectName ∈ projects w)) as [Hp|].
  2:{ intros ->. split; [intros _; eexists; reflexivity|].
      intros sc H; discriminate. }
  change (nonempty "") with false.
  change (String.eqb "aliyun" "aliyun" &&
          String.eqb "aliyun-proxy" "aliyun-proxy") with true.
  cbn [andb]. cbv beta iota zeta.
  destruct (String.eqb region "") eqn:Hempty.
  { intros ->. split; [intros _; eexists; reflexivity|].
    intros sc H; discriminate. }
  destruct (createRegionMap !! region) as [path|] eqn:Hr.
  2:{ intros ->. split; [intros _; eexists; reflexivity|].
      intros sc H; discriminate. }
  destruct (createRegionMap_lookup _ _ Hr) as (Hin & Hmap & Hextract).
  destruct (getTemplate "aliyun" path).
  { intros ->. split; [contradiction|intros sc H; discriminate]. }
  unfold bind at 1. rewrite GetProject_run.
  destruct (decide (projectName ∈ projects w)); [|contradiction].
  unfold bind at 1. unfold CopyTemplate.
  destruct (copyTemplate "aliyun" path _).
  { intros ->. split; [contradiction|intros sc H; discriminate]. }
  rewrite saveCreated_run by exact Hp.
  cbv zeta. intros ->. split; [contradiction|].
  cbn [fst]. intros sc H. injection H as <-.
  cbn [Template with_Path]. auto.
Qed.

(** X25. [DeleteScenario] spares a deployed scenario: with status
    "deployed" the call fails and changes nothing; with any other status
    the scenario's directory is removed, so that [GetScenario] no longer
    finds it, and every record outside that directory stays. *)
Theorem DeleteScenario_spares_the_deployed projectName scenarioID stored w :
  projectName ∈ projects w ->
  scenarios w !! joinPath (joinPath ProjectDir projectName) scenarioID =
    Some stored ->
  let path := joinPath (joinPath ProjectDir projectName) scenarioID in
  let result := DeleteScenario ProjectDir projectName scenarioID w in
  if String.eqb (Status stored) "deployed"
  then
    result =
    (Some ("场景 " +:+ scenarioID +:+ " 已部署，请先销毁场景"), w)
  else
    fst result = None /\
    fst (GetScenario ProjectDir projectName scenarioID (snd result)) =
      Err ("场景 " +:+ scenarioID +:+ " 不存在") /\
    (forall k, under path k = false ->
       scenarios (snd result) !! k = scenarios w !! k) /\
    projects (snd result) = projects w /\
    trace (snd result) = trace w.
Proof.
  intros Hp Hs. cbv zeta.
  remember (DeleteScenario ProjectDir projectName scenarioID w) as result
    eqn:Hres.
  revert Hres. unfold DeleteScenario. unfold bind at 1.
  rewrite GetScenario_run by exact Hp. rewrite Hs.
  cbn [Status with_Path].
  destruct (String.eqb (Status stored) "deployed"); [now intros ->|].
  unfold repoDeleteScenario, bind. rewrite GetProject_run.
  destruct (decide (projectName ∈ projects w)); [|contradiction].
  cbn [proj_Path]. rewrite Hs. intros ->. cbn [fst snd].
  split; [reflexivity|]. split.
  - rewrite GetScenario_run by exact Hp.
    cbn [scenarios with_scenarios]. rewrite removeAll_lookup, under_self.
    reflexivity.
  - split; [|split; reflexivity].
    intros k Hk. cbn [scenarios with_scenarios].
    rewrite removeAll_lookup, Hk. reflexivity.
Qed.

(** The directory names [ListScenarios] takes for scenarios: single path
    components other than [.git]. *)
Definition scenarioEntry (id : string) : bool :=
  negb (Contains id "/") && nonempty id && negb (String.eqb id ".git").

(** What one entry adds to the listing. *)
Definition listedAt (projectName : string) (w : World) (id : string)
  : list Scenario :=
  if String.eqb id ".git" then []
  else
    match scenarios w !! joinPath (joinPath ProjectDir projectName) id with
    | Some stored =>
        [with_Path stored (joinPath (joinPath ProjectDir projectName) id)]
    | None => []
    end.

Lemma listEntries_run projectName entries listed w :
  projectName ∈ projects w ->
  listEntries ProjectDir projectName entries listed w =
  (listed ++ flat_map (listedAt projectName w) entries, w).
Proof.
  intros Hp. revert listed.
  induction entries as [|id rest IH]; intros listed; cbn [listEntries].
  - simpl. now rewrite app_nil_r.
  - cbn [flat_map]. unfold listedAt at 1.
    destruct (String.eqb id ".git"); [apply IH|].
    unfold bind. rewrite GetScenario_run by exact Hp.
    destruct (scenarios w !! _) as [stored|].
    + rewrite IH. now rewrite <- app_assoc.
    + apply IH.
Qed.

Lemma ListScenarios_run projectName w :
  projectName ∈ projects w ->
  ListScenarios ProjectDir projectName w =
  (Ok (flat_map (listedAt projectName w)
         (readDir (joinPath ProjectDir projectName) w)), w).
Proof.
  intros Hp. unfold ListScenarios, bind. rewrite GetProject_run.
  destruct (decide _); [|contradiction].
  cbn [proj_Path]. rewrite listEntries_run by exact Hp. reflexivity.
Qed.

Lemma In_listed projectName w sc :
  In sc (flat_map (listedAt projectName w)
           (readDir (joinPath ProjectDir projectName) w)) <->
  exists id stored,
    scenarios w !! joinPath (joinPath ProjectDir projectName) id =
      Some stored /\
    scenarioEntry id = true /\
    sc = with_Path stored (joinPath (joinPath ProjectDir projectName) id).
Proof.
  rewrite in_flat_map. split.
  - intros (id & Hid & Hsc). apply In_readDir in Hid.
    destruct Hid as (stored & Hk & Hc & Hne). unfold listedAt in Hsc.
    destruct (String.eqb id ".git") eqn:Hgit; [destruct Hsc|].
    rewrite Hk in Hsc. destruct Hsc as [<-|[]]. exists id, stored.
    repeat split; auto. unfold scenarioEntry, nonempty.
    apply String.eqb_neq in Hne. now rewrite Hc, Hne, Hgit.
  - intros (id & stored & Hk & Hentry & ->). unfold scenarioEntry in Hentry.
    apply andb_true_iff in Hentry. destruct Hentry as (Hentry & Hgit).
    apply andb_true_iff in Hentry. destruct Hentry as (Hc & Hne).
    apply negb_true_iff in Hc, Hgit, Hne. exists id. split.
    + apply In_readDir. exists stored. repeat split; auto.
      now apply String.eqb_neq.
    + unfold listedAt. rewrite Hgit, Hk. now left.
Qed.

(** X26. [DeleteProject] spares a project with a deployed scenario: when a
    scenario directory of the project (a single path component other than
    [.git]) holds a record with status "deployed", the call fails, naming
    a deployed scenario, and changes nothing; when none does, the project
    and every record under its directory are removed and all other
    records stay. *)
Theorem DeleteProject_spares_the_deployed name w :
  name ∈ projects w ->
  let dir := joinPath ProjectDir name in
  let result := DeleteProject ProjectDir name w in
  (forall id stored,
     scenarios w !! joinPath dir id = Some stored ->
     scenarioEntry id = true ->
     Status stored = "deployed" ->
     exists sc,
       Status sc = "deployed" /\
       result =
       (Some ("项目 " +:+ name +:+ " 包含已部署的场景 " +:+ ID sc +:+
              "，请先销毁场景"), w)) /\
  ((forall id stored,
      scenarios w !! joinPath dir id = Some stored ->
      scenarioEntry id = true ->
      Status stored <> "deployed") ->
   fst result = None /\
   projects (snd result) = projects w ∖ {[name]} /\
   (forall k,
      scenarios (snd result) !! k =
      if under dir k then None else scenarios w !! k) /\
   trace (snd result) = trace w).
Proof.
  intros Hp. cbv zeta.
  remember (DeleteProject ProjectDir name w) as result eqn:Hres.
  revert Hres. unfold DeleteProject. unfold bind at 1.
  rewrite GetProject_run. destruct (decide _) as [_|]; [|contradiction].
  unfold bind at 1. rewrite ListScenarios_run by exact Hp.
  set (listed := flat_map _ _).
  destruct (find (fun sc => String.eqb (Status sc) "deployed") listed)
    as [found|] eqn:Hfind; intros ->.
  - apply find_some in Hfind. destruct Hfind as (Hin & Hst).
    apply String.eqb_eq in Hst. split.
    + intros _ _ _ _ _. now exists found.
    + intros Hnone. apply In_listed in Hin.
      destruct Hin as (id & stored & Hk & Hentry & ->).
      now destruct (Hnone id stored Hk Hentry).
  - split.
    + intros id stored Hk Hentry Hst. exfalso.
      assert (In (with_Path stored (joinPath (joinPath ProjectDir name) id))
                listed) as Hin
        by (apply In_listed; now exists id, stored).
      apply (find_none _ _ Hfind) in Hin. cbn [Status with_Path] in Hin.
      rewrite Hst in Hin. discriminate.
    + intros _. unfold repoDeleteProject.
      destruct (decide _); [|contradiction]. cbn [fst snd projects
        scenarios trace]. repeat split; auto.
      intros k. apply removeAll_lookup.
Qed.

(** X27. Creating a project and deleting it again restores the world: for
    a non-empty name that is not a project yet, [CreateProject] returns
    the project in its directory, a second [CreateProject] is refused, and
    [DeleteProject] then succeeds and leaves the world as it was before
    the creation. *)
Theorem CreateProject_then_DeleteProject name w :
  name <> "" ->
  name ∉ projects w ->
  (forall k stored,
     scenarios w !! k = Some stored ->
     under (joinPath ProjectDir name) k = false) ->
  let created := CreateProject ProjectDir name w in
  fst created =
    Ok {| proj_Name := name; proj_Path := joinPath ProjectDir name |} /\
  fst (CreateProject ProjectDir name (snd created)) =
    Err ("项目 " +:+ name +:+ " 已存在") /\
  DeleteProject ProjectDir name (snd created) = (None, w).
Proof.
  intros Hname Hnew Hclean. cbv zeta. unfold CreateProject.
  apply String.eqb_neq in Hname. rewrite Hname. unfold repoCreateProject.
  destruct (decide (name ∈ projects w)); [contradiction|]. cbn [fst snd].
  set (w1 := {| trace := trace w; projects := {[name]} ∪ projects w;
                scenarios := scenarios w |}).
  assert (Hp1 : name ∈ projects w1)
    by (apply elem_of_union_l, elem_of_singleton; reflexivity).
  split; [reflexivity|]. split.
  { destruct (decide (name ∈ projects w1)); [reflexivity|contradiction]. }
  unfold DeleteProject. unfold bind at 1. rewrite GetProject_run.
  destruct (decide _) as [_|]; [|contradiction].
  unfold bind at 1. rewrite ListScenarios_run by exact Hp1.
  set (listed := flat_map _ _).
  destruct (find (fun sc => String.eqb (Status sc) "deployed") listed)
    as [found|] eqn:Hfind.
  - exfalso. apply find_some in Hfind. destruct Hfind as (Hin & _).
    apply In_listed in Hin. destruct Hin as (id & stored & Hk & _).
    apply Hclean in Hk. unfold under in Hk.
    apply orb_false_iff in Hk. destruct Hk as (_ & Hk).
    assert (String.prefix (joinPath ProjectDir name +:+ "/")
              (joinPath (joinPath ProjectDir name) id) = true) as Ht.
    { apply prefix_occurs. exists id. unfold joinPath. symmetry.
      apply append_assoc. }
    congruence.
  - unfold repoDeleteProject. destruct (decide _); [|contradiction].
    f_equal. destruct w as [t ps ss]. cbn [trace projects scenarios w1].
    f_equal.
    + simpl in Hnew. apply set_eq. intros x.
      rewrite elem_of_difference, elem_of_union, !elem_of_singleton.
      split; [intros ([->|Hx] & Hne); [contradiction|exact Hx]|].
      intros Hx. split; [now right|]. intros ->. contradiction.
    + unfold removeAll. apply map_filter_id. intros k stored Hk.
      simpl. apply (Hclean k stored Hk).
Qed.

(** The [terraform init] calls for some scenarios. *)
Definition initCalls (listed : list Scenario) : list EngineCall :=
  map (fun sc => CallInit (Path sc)) listed.

Lemma initScenarios_run project listed w :
  Forall (fun sc => Path sc <> "") listed ->
  let result := initScenarios terraformSvc project listed w in
  scenarios (snd result) = scenarios w /\
  projects (snd result) = projects w /\
  match fst result with
  | None =>
      engineCalls (trace (snd result)) =
      engineCalls (trace w) ++ initCalls listed
  | Some msg =>
      exists done sc rest err,
        listed = done ++ sc :: rest /\
        engineCalls (trace (snd result)) =
          engineCalls (trace w) ++ initCalls (done ++ [sc]) /\
        terraformSvc (engineCalls (trace w) ++ initCalls done)
          (CallInit (Path sc)) = Some err /\
        msg = "初始化场景 " +:+ ID sc +:+ " (项目 " +:+ proj_Name project +:+
              ") 失败: " +:+ err
  end.
Proof.
  intros Hpaths. revert w.
  induction Hpaths as [|sc rest Hsc _ IH]; intros w; cbv zeta.
  - cbn [initScenarios ret fst snd initCalls map].
    now rewrite app_nil_r.
  - cbn [initScenarios]. apply String.eqb_neq in Hsc. rewrite Hsc.
    unfold bind, engine.
    destruct (terraformSvc (engineCalls (trace w)) (CallInit (Path sc)))
      as [err|] eqn:Hcall.
    + cbn [ret fst snd scenarios projects trace with_trace].
      split; [reflexivity|]. split; [reflexivity|].
      exists [], sc, rest, err. cbn [app initCalls map].
      rewrite app_nil_r. repeat split; auto.
      unfold engineCalls. rewrite flat_map_app. reflexivity.
    + set (w1 := with_trace w _).
      specialize (IH w1). cbv zeta in IH.
      destruct IH as (Hs & Hp & IH). split; [exact Hs|]. split; [exact Hp|].
      assert (Hw1 : engineCalls (trace w1) =
                    engineCalls (trace w) ++ [CallInit (Path sc)]).
      { unfold w1, engineCalls. cbn [trace with_trace].
        rewrite flat_map_app. reflexivity. }
      destruct (fst (initScenarios terraformSvc project rest w1)) as [msg|].
      * destruct IH as (done & failed & rest' & err & -> & Hcalls & Herr &
                        ->).
        exists (sc :: done), failed, rest', err.
        rewrite Hw1 in Hcalls, Herr. rewrite <- app_assoc in Hcalls, Herr.
        repeat split; auto.
      * rewrite IH, Hw1, <- app_assoc. reflexivity.
Qed.

Lemma listed_paths projectName w :
  Forall (fun sc => Path sc <> "")
    (flat_map (listedAt projectName w)
       (readDir (joinPath ProjectDir projectName) w)).
Proof.
  apply List.Forall_forall. intros sc Hin. apply In_listed in Hin.
  destruct Hin as (id & stored & _ & _ & ->). cbn [Path with_Path].
  apply joinPath_nonempty.
Qed.

(** X28. [InitProject] runs [terraform init] in the directories that
    [ListScenarios] lists, in that order, and nothing else: when it
    returns no error every listed scenario was initialised; when it
    returns one, the calls stop at the first scenario whose
    initialisation failed, and the error names that scenario.  The store
    is unchanged. *)
Theorem InitProject_initialises_the_listed name listed w :
  ListScenarios ProjectDir name w = (Ok listed, w) ->
  let result := InitProject ProjectDir terraformSvc name w in
  scenarios (snd result) = scenarios w /\
  projects (snd result) = projects w /\
  match fst result with
  | None =>
      engineCalls (trace (snd result)) =
      engineCalls (trace w) ++ initCalls listed
  | Some msg =>
      exists done sc rest err,
        listed = done ++ sc :: rest /\
        engineCalls (trace (snd result)) =
          engineCalls (trace w) ++ initCalls (done ++ [sc]) /\
        terraformSvc (engineCalls (trace w) ++ initCalls done)
          (CallInit (Path sc)) = Some err /\
        msg = "初始化场景 " +:+ ID sc +:+ " (项目 " +:+ name +:+
              ") 失败: " +:+ err
  end.
Proof.
  intros Hlist. cbv zeta.
  assert (Hp : name ∈ projects w).
  { revert Hlist. unfold ListScenarios, bind. rewrite GetProject_run.
    destruct (decide _); [auto|discriminate]. }
  assert (Hpaths : Forall (fun sc => Path sc <> "") listed).
  { rewrite ListScenarios_run in Hlist by exact Hp.
    injection Hlist as <-. apply listed_paths. }
  remember (InitProject ProjectDir terraformSvc name w) as result eqn:Hres.
  revert Hres. unfold InitProject. unfold bind at 1. rewrite GetProject_run.
  destruct (decide _) as [_|]; [|contradiction].
  unfold bind at 1. rewrite Hlist.
  destruct listed as [|sc rest]; intros ->.
  - cbn [ret fst snd initCalls map]. now rewrite app_nil_r.
  - apply (initScenarios_run
             {| proj_Name := name; proj_Path := joinPath ProjectDir name |}
             (sc :: rest) w Hpaths).
Qed.

End Service.

(** *** Examples *)

(** A template repository that has every template, and no dynamic
    template service. *)
Definition everyTemplate (provider name : string) : option string := None.

Definition staticOnly :
  option (string -> string -> string -> string -> string -> option string) :=
  None.

Definition pendingWorld : World := worldWith "aliyun/ecs" "pending".
Definition deployedWorld : World := worldWith "aliyun/ecs" "deployed".

Definition newWorld : World :=
  {| trace := []; projects := ∅; scenarios := ∅ |}.

(** An engine whose [init] fails in the directory of "s2". *)
Definition initBroken : Engine :=
  fun _ c =>
    match c with
    | CallInit dir =>
        if String.eqb dir (projectDir +:+ "/demo/s2")
        then Some "no network" else None
    | _ => None
    end.

Definition threeScenarios : World :=
  {| trace := [];
     projects := {["demo"]};
     scenarios :=
       {[ projectDir +:+ "/demo/s3" := scenarioOf "s3" "aliyun/ecs" "pending";
          projectDir +:+ "/demo/s1" := scenarioOf "s1" "aliyun/ecs" "pending";
          projectDir +:+ "/demo/s2" := scenarioOf "s2" "aliyun/ecs" "pending"
       ]} |}.

Lemma created_scenario_is_stored_witness :
  let after :=
    CreateScenarioWithOptions projectDir copyOk everyTemplate staticOnly
      "demo" "aliyun" "ecs" "" "" "" "s2" pendingWorld in
  exists sc,
    fst after = Created sc /\
    Status sc = "pending" /\
    GetScenario projectDir "demo" "s2" (snd after) = (Ok sc, snd after).
Proof.
  intros after.
  set (sc := {| ID := "s2"; Name := "aliyun-ecs"; Template := "aliyun/ecs";
                Path := projectDir +:+ "/demo/s2"; Status := "pending" |}).
  exists sc.
  destruct (created_scenario_is_stored projectDir copyOk everyTemplate
              staticOnly "demo" "aliyun" "ecs" "" "" "" "s2" pendingWorld
              sc (snd after))
    as (_ & Hstatus & _ & Hget & _).
  - vm_compute. reflexivity.
  - split; [vm_compute; reflexivity|]. split; [exact Hstatus|exact Hget].
Defined.

Lemma aliyun_proxy_is_created_for_a_listed_region_witness :
  ~ In "gz" regionOrder /\
  exists msg,
    CreateScenario projectDir copyOk everyTemplate staticOnly "demo" "aliyun"
      "aliyun-proxy" "gz" "s2" pendingWorld = (Refused msg, pendingWorld).
Proof.
  assert (Hregion : ~ In "gz" regionOrder).
  { simpl. intros H.
    repeat (destruct H as [H|H]; [discriminate|]). exact H. }
  split; [exact Hregion|].
  exact (proj1 (aliyun_proxy_is_created_for_a_listed_region projectDir copyOk
                  everyTemplate staticOnly "demo" "gz" "s2" pendingWorld)
               Hregion).
Defined.

Lemma DeleteScenario_spares_the_deployed_witness :
  "demo" ∈ projects deployedWorld /\
  DeleteScenario projectDir "demo" "s1" deployedWorld =
    (Some "场景 s1 已部署，请先销毁场景", deployedWorld).
Proof.
  assert (Hp : "demo" ∈ projects deployedWorld)
    by (vm_compute; reflexivity).
  split; [exact Hp|].
  exact (DeleteScenario_spares_the_deployed projectDir "demo" "s1"
           (scenarioOf "s1" "aliyun/ecs" "deployed") deployedWorld Hp
           eq_refl).
Defined.

Lemma DeleteProject_spares_the_deployed_witness :
  "demo" ∈ projects deployedWorld /\
  exists sc,
    Status sc = "deployed" /\
    DeleteProject projectDir "demo" deployedWorld =
    (Some ("项目 " +:+ "demo" +:+ " 包含已部署的场景 " +:+ ID sc +:+
           "，请先销毁场景"), deployedWorld).
Proof.
  assert (Hp : "demo" ∈ projects deployedWorld)
    by (vm_compute; reflexivity).
  split; [exact Hp|].
  destruct (DeleteProject_spares_the_deployed projectDir "demo"
              deployedWorld Hp) as [Hrefused _].
  exact (Hrefused "s1" (scenarioOf "s1" "aliyun/ecs" "deployed") eq_refl
           eq_refl eq_refl).
Defined.

Lemma CreateProject_then_DeleteProject_witness :
  ("demo" <> "") /\
  ("demo" ∉ projects newWorld) /\
  DeleteProject projectDir "demo"
    (snd (CreateProject projectDir "demo" newWorld)) = (None, newWorld).
Proof.
  assert (Hname : "demo" <> "") by discriminate.
  assert (Hnew : "demo" ∉ projects newWorld) by apply not_elem_of_empty.
  split; [exact Hname|]. split; [exact Hnew|].
  apply (CreateProject_then_DeleteProject projectDir "demo" newWorld Hname
           Hnew).
  intros k stored Hk. discriminate Hk.
Defined.

Lemma InitProject_initialises_the_listed_witness :
  let listed :=
    [scenarioOf "s1" "aliyun/ecs" "pending";
     scenarioOf "s2" "aliyun/ecs" "pending";
     scenarioOf "s3" "aliyun/ecs" "pending"] in
  ListScenarios projectDir "demo" threeScenarios = (Ok listed, threeScenarios) /\
  engineCalls
    (trace (snd (InitProject projectDir engineOk "demo" threeScenarios))) =
  initCalls listed.
Proof.
  intros listed.
  assert (Hlist : ListScenarios projectDir "demo" threeScenarios =
                  (Ok listed, threeScenarios))
    by (vm_compute; reflexivity).
  split; [exact Hlist|].
  destruct (InitProject_initialises_the_listed projectDir engineOk "demo"
              listed threeScenarios Hlist) as (_ & _ & Hcalls).
  change (fst (InitProject projectDir engineOk "demo" threeScenarios))
    with (@None string) in Hcalls.
  exact Hcalls.
Defined.

End ProjectOpsFacts.

(** ** Scenarios that do not exist *)

Module LookupFacts.
Import Credentials Probe Terraform Domain Orchestrator ServiceFacts.

Section Service.
Variable ProjectDir : string.
Variable cm : credentialManager.
Variable DescribeSpotPriceHistory :
  string -> string -> string -> string -> CmdOutput nat.
Variable DescribeInstanceTypeConfigs :
  string -> string -> string -> string -> CmdOutput (list InstanceTypeConfig).
Variable DescribeInstanceFamilyConfigs :
  string -> string -> string -> string -> CmdOutput (list InstanceTypeConfig).
Context {scheduler : Scheduler}.
Variable terraformSvc : Engine.
Variable copyTemplate : string -> string -> string -> option string.

(** X29. A deploy or a destroy of a scenario that [GetScenario] does not
    find (the project or the scenario is missing) returns the error of the
    lookup, calls neither the engine nor the template repository, and
    leaves projects and scenarios as they were: it only writes two log
    lines. *)
Theorem missing_scenario_is_only_reported projectName scenarioID autoApprove
    nodeCount toolName toolArgs region msg w :
  fst (GetScenario ProjectDir projectName scenarioID w) = Err msg ->
  let deploy :=
    DeployScenario ProjectDir cm DescribeSpotPriceHistory
      DescribeInstanceTypeConfigs DescribeInstanceFamilyConfigs terraformSvc
      copyTemplate projectName scenarioID autoApprove nodeCount toolName
      toolArgs region w in
  let destroy :=
    DestroyScenario ProjectDir cm terraformSvc projectName scenarioID
      autoApprove w in
  let failure :=
    EvLog LError "获取场景信息失败: project=%s, scenario=%s, error=%v"
      [projectName; scenarioID; msg] in
  fst deploy = Returned (Some msg) /\
  fst destroy = Some msg /\
  (exists started, trace (snd deploy) = trace w ++ [started; failure]) /\
  (exists started, trace (snd destroy) = trace w ++ [started; failure]) /\
  projects (snd deploy) = projects w /\
  scenarios (snd deploy) = scenarios w /\
  projects (snd destroy) = projects w /\
  scenarios (snd destroy) = scenarios w.
Proof.
  intros Hmissing. cbv zeta.
  assert (Hrun : forall w1, projects w1 = projects w ->
                            scenarios w1 = scenarios w ->
                            GetScenario ProjectDir projectName scenarioID w1 =
                            (Err msg, w1)).
  { intros w1 Hp Hs. revert Hmissing.
    unfold GetScenario, bind, GetProject, ret. rewrite Hp.
    destruct (decide _); cbn [fst proj_Path]; [|now intros ->].
    rewrite Hs. destruct (scenarios w !! _); cbn [fst]; [discriminate|].
    now intros H; injection H as ->. }
  unfold DeployScenario, DestroyScenario, bind, log, ret.
  rewrite !Hrun by reflexivity. cbn [fst snd trace with_trace projects
    scenarios].
  repeat split; try reflexivity;
    eexists; rewrite <- app_assoc; reflexivity.
Qed.

End Service.

Lemma missing_scenario_is_only_reported_witness :
  let w := worldWith "aliyun/ecs" "pending" in
  fst (GetScenario projectDir "demo" "s9" w) = Err "场景 s9 不存在" /\
  fst (DestroyScenario projectDir aliyunConfigured engineOk "demo" "s9" true
         w) = Some "场景 s9 不存在".
Proof.
  intros w.
  assert (Hmissing : fst (GetScenario projectDir "demo" "s9" w) =
                     Err "场景 s9 不存在") by (vm_compute; reflexivity).
  split; [exact Hmissing|].
  apply (missing_scenario_is_only_reported (scheduler := ProbeClaims.fifo)
           projectDir aliyunConfigured ProbeClaims.historyDown
           ProbeClaims.configsDown ProbeClaims.configsDown engineOk copyOk
           "demo" "s9" true 0 "" "" "" "场景 s9 不存在" w Hmissing).
Defined.

End LookupFacts.
